(** * Plugin lifecycle of the Modmail bot ([cogs/plugins.py])

    A shallow embedding of the [Plugin] identity class and of the [Plugins]
    cog: reference parsing, archive download and selective extraction,
    extension loading, and the add / remove / update / initial-load
    commands, with the properties the specification states about them. *)

From Stdlib Require Import Ascii.
From stdpp Require Import base option list strings gmap fin_maps.

Local Open Scope char_scope.
Local Open Scope stdpp_scope.

(** ** Text

    Python [str] values are modelled as [string]. *)

Module Str.

(** [c in s] *)
Fixpoint contains (c : ascii) (s : string) : bool :=
  match s with
  | EmptyString => false
  | String d s' => if Ascii.eqb c d then true else contains c s'
  end.

(** [s.count(c)] for a one-character [c] *)
Fixpoint count (c : ascii) (s : string) : nat :=
  match s with
  | EmptyString => 0
  | String d s' => (if Ascii.eqb c d then 1 else 0) + count c s'
  end.

End Str.

(** ** [class Plugin] *)

Record Plugin := mkPlugin {
  user : string;
  repo : string;
  name : string;
  branch : string;
}.

(** [Plugin.__init__]: [branch if branch is not None else "master"]. *)
Definition Plugin_init (user repo name : string) (branch : option string) : Plugin :=
  mkPlugin user repo name (default "master" branch).

(** [Plugin.url] *)
Definition url (p : Plugin) : string :=
  "https://github.com/" +:+ user p +:+ "/" +:+ repo p +:+ "/archive/"
    +:+ branch p +:+ ".zip".

(** [Plugin.ext_string] *)
Definition ext_string (p : Plugin) : string :=
  "plugins." +:+ user p +:+ "." +:+ repo p +:+ "." +:+ name p +:+ "-"
    +:+ branch p +:+ "." +:+ name p.

(** [Plugin.__str__] *)
Definition str (p : Plugin) : string :=
  user p +:+ "/" +:+ repo p +:+ "/" +:+ name p +:+ "@" +:+ branch p.

Global Instance Plugin_eq_dec : EqDecision Plugin.
Proof. solve_decision. Defined.

Global Instance Plugin_countable : Countable Plugin.
Proof.
  refine (inj_countable'
    (λ p, (user p, repo p, name p, branch p))
    (λ t, match t with (u, r, n, b) => mkPlugin u r n b end) _).
  by intros [].
Defined.

(** [Plugin.__eq__], for another [Plugin], and [Plugin.__hash__], the
    built-in [hash] of tuples being any function [h]. *)
Definition __eq__ (p other : Plugin) : bool :=
  bool_decide (str p = str other).

Definition __hash__ {H : Type} (h : string * string * string * string → H)
    (p : Plugin) : H :=
  h (user p, repo p, name p, branch p).

(** *** The regular expressions of [Plugin.from_string]

    [re.match] is a backtracking matcher. Each construct of the two
    patterns is a combinator taking the continuation that matches the rest
    of the pattern, so that the order in which alternatives are tried is the
    order of the [re] module. *)

Definition newline : ascii := "010".

(** [.] without [re.DOTALL]: any character except a newline. *)
Definition dot (c : ascii) : bool := negb (Ascii.eqb c newline).

(** [$] without [re.MULTILINE]: the end of the text, or just before a
    newline that ends the text. *)
Definition at_end (s : string) : bool :=
  match s with
  | EmptyString => true
  | String c EmptyString => Ascii.eqb c newline
  | _ => false
  end.

(** [(.+?)]: a lazy group of one or more characters; [g] is what the group
    has consumed so far. The shortest extension is tried first and the
    group grows only when the rest of the pattern fails. *)
Fixpoint lazy_plus {R} (k : string → string → option R) (g s : string) : option R :=
  match s with
  | EmptyString => None
  | String c rest =>
      if dot c then
        let g' := g +:+ String c "" in
        match k g' rest with
        | Some r => Some r
        | None => lazy_plus k g' rest
        end
      else None
  end.

(** A literal character. *)
Definition lit {R} (c : ascii) (k : string → option R) (s : string) : option R :=
  match s with
  | String d rest => if Ascii.eqb c d then k rest else None
  | EmptyString => None
  end.

(** What [m.groups()] returns: an unmatched group is [None]. *)
Definition groups : Type := string * string * string * option string.

(** [^(.+?)/(.+?)/(.+?)(?:@(.+?))?$]; the optional group is greedy, it is
    tried before being skipped. *)
Definition re_lenient (s : string) : option groups :=
  lazy_plus (λ u, lit "/" (
  lazy_plus (λ r, lit "/" (
  lazy_plus (λ n s3,
    match lit "@" (lazy_plus (λ b s4,
            if at_end s4 then Some (u, r, n, Some b) else None) "") s3 with
    | Some m => Some m
    | None => if at_end s3 then Some (u, r, n, None) else None
    end) "")) "")) "" s.

(** [^(.+?)/(.+?)/(.+?)@(.+?)$] *)
Definition re_strict (s : string) : option groups :=
  lazy_plus (λ u, lit "/" (
  lazy_plus (λ r, lit "/" (
  lazy_plus (λ n, lit "@" (
  lazy_plus (λ b s4,
    if at_end s4 then Some (u, r, n, Some b) else None) "")) "")) "")) "" s.

(** [Plugin.from_string]; [None] stands for the raised
    [InvalidPluginError]. *)
Definition from_string (s : string) (strict : bool) : option Plugin :=
  match (if negb strict then re_lenient s else re_strict s) with
  | Some (u, r, n, b) => Some (Plugin_init u r n b)
  | None => None
  end.

(** The reference forms of the grammar. *)
Definition ref3 (o r n : string) : string := o +:+ "/" +:+ r +:+ "/" +:+ n.
Definition ref4 (o r n b : string) : string := ref3 o r n +:+ "@" +:+ b.

(** A field of a well-formed reference: not empty, and free of the
    separators and of line breaks. *)
Definition valid_field (s : string) : bool :=
  negb (bool_decide (s = "")) && negb (Str.contains "/" s)
    && negb (Str.contains "@" s) && negb (Str.contains newline s).

(** A branch only has to be non-empty and on one line. *)
Definition valid_branch (s : string) : bool :=
  negb (bool_decide (s = "")) && negb (Str.contains newline s).


(** ** Paths ([pathlib], POSIX flavour)

    A path is the tuple [PurePath.parts]: the root, when there is one,
    followed by the segments. *)

Abbreviation path := (list string).

(** [s.split(c)] *)
Fixpoint split_on (c : ascii) (s : string) : list string :=
  match s with
  | EmptyString => [""]
  | String d s' =>
      if Ascii.eqb c d then "" :: split_on c s'
      else match split_on c s' with
           | x :: xs => String d x :: xs
           | [] => [String d ""]
           end
  end.

(** The number of fields that the separator [/] cuts a reference into. *)
Definition field_count (s : string) : nat := length (split_on "/" s).

(** A reference with too few fields, or with three fields one of which is
    empty. *)
Definition malformed (s : string) : Prop :=
  field_count s < 3 ∨ (field_count s = 3 ∧ "" ∈ split_on "/" s).

(** The root of a path text: exactly two leading slashes are kept as
    they are, any other number of them is one. *)
Definition root_of (s : string) : option string :=
  match s with
  | String "/" (String "/" (String "/" _)) => Some "/"
  | String "/" (String "/" _) => Some "//"
  | String "/" _ => Some "/"
  | _ => None
  end.

(** [PurePath(s).parts]: empty segments and [.] are dropped, [..] is kept. *)
Definition parts (s : string) : path :=
  option_list (root_of s)
    ++ filter (λ x, x ≠ "" ∧ x ≠ ".") (split_on "/" s).

Definition has_root (p : path) : bool :=
  match p with
  | String "/" _ :: _ => true
  | _ => false
  end.

(** [a / b] for two paths: a rooted right operand replaces the left one. *)
Definition join (a b : path) : path := if has_root b then b else a ++ b.

(** [a / s] for a path and a text. *)
Definition joinpath (a : path) (s : string) : path := join a (parts s).

(** [p.parent]; the parent of a root is the root itself. *)
Definition parent (p : path) : path :=
  match p with
  | [r] => if has_root p then p else []
  | _ => removelast p
  end.

(** ** The file system *)

(** A member of [zipfile.ZipFile.infolist()]. *)
Record ZipInfo := mkZipInfo {
  filename : string;
  data : string;
}.

(** [ZipInfo.is_dir()]: the name ends with a slash. *)
Fixpoint ends_with_slash (s : string) : bool :=
  match s with
  | EmptyString => false
  | String c EmptyString => Ascii.eqb c "/"
  | String _ s' => ends_with_slash s'
  end.

Definition is_dir (info : ZipInfo) : bool := ends_with_slash (filename info).

(** The bytes of a file or of an HTTP response body, by what
    [zipfile.ZipFile] makes of them: a readable archive, or anything else
    (for which it raises [BadZipFile]). *)
Inductive content :=
  | Bytes (s : string)
  | ZipBytes (z : list ZipInfo).

Inductive node :=
  | Dir
  | File (c : content).

Global Instance ZipInfo_eq_dec : EqDecision ZipInfo.
Proof. solve_decision. Defined.
Global Instance content_eq_dec : EqDecision content.
Proof. solve_decision. Defined.
Global Instance node_eq_dec : EqDecision node.
Proof. solve_decision. Defined.

(** The disk: which absolute paths exist, and what is there. A path is
    kept under the name the program gives it, part by part: the map does not
    follow [..], so that [a/x/..] and [a] are two keys, where the system has
    one directory. What is stated about paths that are left alone is
    therefore stated for names without [..]. *)
Abbreviation disk := (gmap path node).

(** [p.exists()] *)
Definition path_exists (fs : disk) (p : path) : bool :=
  bool_decide (is_Some (fs !! p)).

(** The ancestors of [todo] below [done] are created from the top; a file
    in the way is the [OSError] of [os.mkdir] ([None]). *)
Fixpoint mkdir_parents (fs : disk) (done todo : path) : option disk :=
  match todo with
  | [] => Some fs
  | x :: todo' =>
      let d := done ++ [x] in
      match fs !! d with
      | Some Dir => mkdir_parents fs d todo'
      | Some (File _) => None
      | None => mkdir_parents (<[d := Dir]> fs) d todo'
      end
  end.

(** [p.mkdir(parents=True, exist_ok=exist_ok)] *)
Definition mkdir (fs : disk) (p : path) (exist_ok : bool) : option disk :=
  match fs !! p with
  | Some Dir => if exist_ok then Some fs else None
  | Some (File _) => None
  | None => mkdir_parents fs [] p
  end.

(** [with p.open("wb") as f: f.write(c)]: the parent has to be a
    directory and [p] must not be one. *)
Definition write_file (fs : disk) (p : path) (c : content) : option disk :=
  match fs !! parent p, fs !! p with
  | Some Dir, None | Some Dir, Some (File _) => Some (<[p := File c]> fs)
  | _, _ => None
  end.

(** [p.open("rb")] and reading it. *)
Definition read_file (fs : disk) (p : path) : option content :=
  match fs !! p with
  | Some (File c) => Some c
  | _ => None
  end.

(** [q] is [p] or lies below it. *)
Definition below (p q : path) : Prop := p `prefix_of` q.

(** [shutil.rmtree(p, onerror=...)]: the tree of a directory goes away;
    anything else is an error that [onerror] only logs. *)
Definition rmtree (fs : disk) (p : path) : disk :=
  match fs !! p with
  | Some Dir => filter (λ kv, ¬ below p kv.1) fs
  | _ => fs
  end.

(** [p.rmdir()]: only an empty directory can be removed ([None] is the
    [OSError]). *)
Definition rmdir (fs : disk) (p : path) : option disk :=
  match fs !! p with
  | Some Dir =>
      if decide (filter (λ kv, below p kv.1 ∧ kv.1 ≠ p) fs = ∅)
      then Some (delete p fs) else None
  | _ => None
  end.

(** ** The cog and its surroundings *)

(** One entry of the plugin registry ([registry.json]). *)
Record details := mkDetails {
  repository : string;
  d_branch : option string;
  bot_version : option nat;
}.

(** What the command answers ([ctx.send] and [msg.edit] of an embed). *)
Inductive reply :=
  | StillLoading        (* "Los plugins todavía están cargando ..." *)
  | VersionTooLow       (* "La versión del BOT es muy baja ..." *)
  | InvalidName         (* "Nombre del plugin inválido ..." *)
  | AlreadyInstalled    (* "Este plugin ya está instalado." *)
  | CogNameClash        (* "No se puede instalar este plugin (nombre de pieza engañoso)" *)
  | Downloading         (* "Iniciando la descarga de ..." *)
  | DownloadFailed      (* "Fallo al descargar el plugin ..." *)
  | LoadFailed          (* the same text, sent when loading failed *)
  | Installed           (* "Plugin instalado correctamente. ..." *)
  | InstalledDisabled   (* "... permanecerá deshabilitado ... ENABLE_PLUGINS ..." *)
  | NotInstalled        (* "El plugin no está instalado." *)
  | Removed             (* "El plugin fue correctamente desinstalado." *)
  | Updated.            (* "Actualizado ... correctamente." *)

(** What the cog does to the outside, in the order it does it. *)
Inductive event :=
  | EvGet (u : string)                 (* [bot.session.get(u)] *)
  | EvConfigUpdate (l : list string)   (* [bot.config.update()], with the list stored *)
  | EvReady                            (* [_ready_event.set()] *)
  | EvSend (r : reply).

Global Instance reply_eq_dec : EqDecision reply.
Proof. solve_decision. Defined.
Global Instance event_eq_dec : EqDecision event.
Proof. solve_decision. Defined.

Inductive exn :=
  | InvalidPluginError
  | ExtensionAlreadyLoaded     (* a [commands.ExtensionError] *)
  | ExtensionNotLoaded         (* a [commands.ExtensionError] *)
  | ExtensionFailed            (* a [commands.ExtensionError] *)
  | KeyError
  | ValueError
  | OSError
  | ClientError                (* the HTTP request failed *)
  | BadZipFile.

Global Instance exn_eq_dec : EqDecision exn.
Proof. solve_decision. Defined.

Definition is_ExtensionError (e : exn) : bool :=
  match e with
  | ExtensionAlreadyLoaded | ExtensionNotLoaded | ExtensionFailed => true
  | _ => false
  end.

(** The bot as the cog sees it, and the cog's own attributes. *)
Record state := mkState {
  config_plugins : list string;    (* [bot.config["plugins"]], the cached list *)
  stored_plugins : list string;    (* the list in the configuration store *)
  enable_plugins : bool;           (* [bot.config.get("enable_plugins")] *)
  version : nat;                   (* [bot.version] *)
  fs : disk;
  extensions : gset string;        (* the extensions the bot has loaded *)
  registry : gmap string details;  (* [self.registry] *)
  loaded_plugins : gset Plugin;    (* [self.loaded_plugins] *)
  ready : bool;                    (* [self._ready_event.is_set()] *)
  trace : list event;
}.

(** What a call depends on outside the bot: the network, [pip], whether
    the code of an extension sets itself up, the names of the cogs the bot
    has. *)
Record Env := mkEnv {
  http_get : string → option content;   (* [None]: the request raises *)
  pip_stderr : path → bool;             (* [pip install -r] wrote to stderr *)
  setup_ok : string → bool;             (* importing and [setup(bot)] went through *)
  cogs : list string;                   (* the keys of [bot.cogs] *)
  registry_json : option (gmap string details);
                                        (* the registry as served; [None]: the request raises *)
}.

(** *** Computations that change the state and may raise *)

Inductive result (A : Type) :=
  | Ok (a : A) (s : state)
  | Raise (e : exn) (s : state).
Arguments Ok {A} a s.
Arguments Raise {A} e s.

Definition M (A : Type) : Type := state → result A.

Global Instance M_ret : MRet M := λ A a s, Ok a s.
Global Instance M_bind : MBind M := λ A B f m s,
  match m s with
  | Ok a s' => f a s'
  | Raise e s' => Raise e s'
  end.

Definition ret {A} (a : A) : M A := mret a.
Definition raise {A} (e : exn) : M A := λ s, Raise e s.
Definition get : M state := λ s, Ok s s.
Definition modify (f : state → state) : M unit := λ s, Ok tt (f s).

(** The state a computation ends in, however it ends. *)
Definition final {A} (r : result A) : state :=
  match r with
  | Ok _ s => s
  | Raise _ s => s
  end.

Definition raised {A} (r : result A) : option exn :=
  match r with
  | Ok _ _ => None
  | Raise e _ => Some e
  end.

(** [try: m  except <the exceptions caught>: h] *)
Definition try_except {A} (m : M A) (caught : exn → bool) (h : M A) : M A :=
  λ s, match m s with
       | Ok a s' => Ok a s'
       | Raise e s' => if caught e then h s' else Raise e s'
       end.

(** [for x in l: f x] *)
Fixpoint for_each {A} (l : list A) (f : A → M unit) : M unit :=
  match l with
  | [] => ret tt
  | x :: l' => _ ← f x; for_each l' f
  end.

(** A disk operation that may fail with [OSError]. *)
Definition disk_op (f : disk → option disk) : M unit := λ s,
  match f (fs s) with
  | Some d =>
      Ok tt (mkState (config_plugins s) (stored_plugins s) (enable_plugins s)
               (version s) d (extensions s) (registry s) (loaded_plugins s)
               (ready s) (trace s))
  | None => Raise OSError s
  end.

Definition emit (e : event) : M unit :=
  modify (λ s, mkState (config_plugins s) (stored_plugins s) (enable_plugins s)
                 (version s) (fs s) (extensions s) (registry s)
                 (loaded_plugins s) (ready s) (trace s ++ [e])).

Definition set_config_plugins (l : list string) : M unit :=
  modify (λ s, mkState l (stored_plugins s) (enable_plugins s)
                 (version s) (fs s) (extensions s) (registry s)
                 (loaded_plugins s) (ready s) (trace s)).

Definition set_extensions (x : gset string) : M unit :=
  modify (λ s, mkState (config_plugins s) (stored_plugins s) (enable_plugins s)
                 (version s) (fs s) x (registry s)
                 (loaded_plugins s) (ready s) (trace s)).

Definition set_loaded_plugins (x : gset Plugin) : M unit :=
  modify (λ s, mkState (config_plugins s) (stored_plugins s) (enable_plugins s)
                 (version s) (fs s) (extensions s) (registry s)
                 x (ready s) (trace s)).

(** [ctx.send(embed=...)] *)
Definition send (r : reply) : M unit := emit (EvSend r).

(** [await self.bot.config.update()] *)
Definition config_update : M unit :=
  s ← get;
  _ ← modify (λ s, mkState (config_plugins s) (config_plugins s) (enable_plugins s)
                 (version s) (fs s) (extensions s) (registry s)
                 (loaded_plugins s) (ready s) (trace s));
  emit (EvConfigUpdate (config_plugins s)).

(** [self._ready_event.set()] *)
Definition ready_event_set : M unit :=
  _ ← modify (λ s, mkState (config_plugins s) (stored_plugins s) (enable_plugins s)
                 (version s) (fs s) (extensions s) (registry s)
                 (loaded_plugins s) true (trace s));
  emit EvReady.

(** [bot.load_extension(ext)] of discord.py *)
Definition load_extension (env : Env) (ext : string) : M unit :=
  s ← get;
  if decide (ext ∈ extensions s) then raise ExtensionAlreadyLoaded
  else if setup_ok env ext then set_extensions ({[ext]} ∪ extensions s)
  else raise ExtensionFailed.

(** [bot.unload_extension(ext)] of discord.py *)
Definition unload_extension (ext : string) : M unit :=
  s ← get;
  if decide (ext ∈ extensions s) then set_extensions (extensions s ∖ {[ext]})
  else raise ExtensionNotLoaded.

(** [l.remove(x)]: the first occurrence goes; [None] is the [ValueError]
    raised when there is none. *)
Fixpoint list_remove (x : string) (l : list string) : option (list string) :=
  match l with
  | [] => None
  | y :: l' => if decide (x = y) then Some l' else (y ::.) <$> list_remove x l'
  end.

(** [s.split(c, maxsplit=1)] unpacked into two names; [None] is the
    [ValueError] of the unpacking when [c] does not occur. *)
Fixpoint split_once (c : ascii) (s : string) : option (string * string) :=
  match s with
  | EmptyString => None
  | String d s' =>
      if Ascii.eqb c d then Some ("", s')
      else match split_once c s' with
           | Some (a, b) => Some (String d a, b)
           | None => None
           end
  end.

Section Cog.

(** The directory of the bot, [Path(__file__).absolute().parent.parent]. *)
Variable base : path.

(** [Plugin.path] *)
Definition plugin_path (p : Plugin) : path :=
  joinpath (joinpath (joinpath (parts "plugins") (user p)) (repo p))
    (name p +:+ "-" +:+ branch p).

(** [Plugin.abs_path] *)
Definition abs_path (p : Plugin) : path := join base (plugin_path p).

(** [Plugin.cache_path] *)
Definition cache_path (p : Plugin) : path :=
  joinpath (joinpath (joinpath base "temp") "plugins-cache")
    (user p +:+ "-" +:+ repo p +:+ "-" +:+ branch p +:+ ".zip").

(** The test of the extraction loop on one member:
    [len(path.parts) >= 3 and path.parts[1] == plugin.name]. *)
Definition selected (p : Plugin) (info : ZipInfo) : bool :=
  let ps := parts (filename info) in
  bool_decide (3 ≤ length ps) && bool_decide (ps !! 1 = Some (name p)).

(** Where a selected member goes:
    [plugin.abs_path / Path( *path.parts[2:])]. The parts of a parsed path
    hold no separator, so joining them adds them as they are. A part [..]
    is kept as it is: the place that the system finds under such a name can
    be outside the install directory. *)
Definition target (p : Plugin) (info : ZipInfo) : path :=
  abs_path p ++ drop 2 (parts (filename info)).

(** The body of the loop over [zipf.infolist()]. *)
Definition extract_member (p : Plugin) (info : ZipInfo) : M unit :=
  if selected p info then
    if is_dir info then
      disk_op (λ d, mkdir d (target p info) true)
    else
      _ ← disk_op (λ d, mkdir d (parent (target p info)) true);
      disk_op (λ d, write_file d (target p info) (Bytes (data info)))
  else ret tt.

(** [zipfile.ZipFile(plugin_io)] *)
Definition ZipFile (c : content) : M (list ZipInfo) :=
  match c with
  | ZipBytes z => ret z
  | Bytes _ => raise BadZipFile
  end.

(** [Plugins.download_plugin] *)
Definition download_plugin (env : Env) (p : Plugin) (force : bool) : M unit :=
  s ← get;
  if path_exists (fs s) (abs_path p) && negb force then ret tt
  else
    _ ← disk_op (λ d, mkdir d (abs_path p) true);
    s ← get;
    plugin_io ←
      (if path_exists (fs s) (cache_path p) && negb force then
         match read_file (fs s) (cache_path p) with
         | Some c => ret c
         | None => raise OSError
         end
       else
         _ ← emit (EvGet (url p));
         match http_get env (url p) with
         | None => raise ClientError
         | Some raw =>
             _ ← (if negb (path_exists (fs s) (parent (cache_path p)))
                  then disk_op (λ d, mkdir d (parent (cache_path p)) false)
                  else ret tt);
             _ ← disk_op (λ d, write_file d (cache_path p) raw);
             ret raw
         end);
    zipf ← ZipFile plugin_io;
    for_each zipf (extract_member p).

(** [Plugins.load_plugin] *)
Definition load_plugin (env : Env) (p : Plugin) : M unit :=
  s ← get;
  if negb (path_exists (fs s) (joinpath (abs_path p) (name p +:+ ".py")))
  then raise InvalidPluginError
  else
    let req_txt := joinpath (abs_path p) "requirements.txt" in
    _ ← (if path_exists (fs s) req_txt
         then if pip_stderr env req_txt then raise InvalidPluginError else ret tt
         else ret tt);
    try_except
      (_ ← load_extension env (ext_string p);
       s ← get;
       set_loaded_plugins ({[p]} ∪ loaded_plugins s))
      is_ExtensionError
      (raise InvalidPluginError).

(** [Plugins.parse_user_input]; [None] is the bare [return]. *)
Definition parse_user_input (plugin_name : string) (check_version : bool)
    : M (option Plugin) :=
  s ← get;
  if negb (ready s) then
    _ ← send StillLoading; ret None
  else
    match registry s !! plugin_name with
    | Some d =>
        match split_once "/" (repository d) with
        | None => raise ValueError
        | Some (u, r) =>
            if check_version
               && match bot_version d with
                  | Some v => bool_decide (version s < v)
                  | None => false
                  end
            then _ ← send VersionTooLow; ret None
            else ret (Some (Plugin_init u r plugin_name (d_branch d)))
        end
    | None =>
        match from_string plugin_name false with
        | Some p => ret (Some p)
        | None => _ ← send InvalidName; ret None
        end
    end.

(** [Plugins.plugins_add] *)
Definition plugins_add (env : Env) (plugin_name : string) : M unit :=
  o ← parse_user_input plugin_name true;
  match o with
  | None => ret tt
  | Some p =>
      s ← get;
      if decide (str p ∈ config_plugins s) then send AlreadyInstalled
      else if decide (name p ∈ cogs env) then send CogNameClash
      else
        _ ← send Downloading;
        downloaded ← try_except (A := bool)
          (_ ← download_plugin env p true; ret true)
          (λ _, true)
          (_ ← send DownloadFailed; ret false);
        if negb downloaded then ret tt
        else
          s ← get;
          _ ← set_config_plugins (config_plugins s ++ [str p]);
          _ ← config_update;
          if enable_plugins s then
            loaded ← try_except (A := bool)
              (_ ← load_plugin env p; ret true)
              (λ _, true)
              (ret false);
            send (if (loaded : bool) then Installed else LoadFailed)
          else send InstalledDisabled
  end.

(** [Plugins.plugins_remove] *)
Definition plugins_remove (plugin_name : string) : M unit :=
  o ← parse_user_input plugin_name false;
  match o with
  | None => ret tt
  | Some p =>
      s ← get;
      if decide (str p ∉ config_plugins s) then send NotInstalled
      else
        _ ← (if enable_plugins s then
               try_except
                 (_ ← unload_extension (ext_string p);
                  s ← get;
                  if decide (p ∈ loaded_plugins s)
                  then set_loaded_plugins (loaded_plugins s ∖ {[p]})
                  else raise KeyError)
                 (λ e, bool_decide (e = ExtensionNotLoaded ∨ e = KeyError))
                 (ret tt)
             else ret tt);
        s ← get;
        match list_remove (str p) (config_plugins s) with
        | None => raise ValueError
        | Some l =>
            _ ← set_config_plugins l;
            _ ← config_update;
            _ ← disk_op (λ d, Some (rmtree d (abs_path p)));
            _ ← try_except
                  (_ ← disk_op (λ d, rmdir d (parent (abs_path p)));
                   disk_op (λ d, rmdir d (parent (parent (abs_path p)))))
                  (λ e, bool_decide (e = OSError))
                  (ret tt);
            send Removed
        end
  end.

(** [Plugins.update_plugin] *)
Definition update_plugin (env : Env) (plugin_name : string) : M unit :=
  o ← parse_user_input plugin_name true;
  match o with
  | None => ret tt
  | Some p =>
      s ← get;
      if decide (str p ∉ config_plugins s) then send NotInstalled
      else
        _ ← download_plugin env p true;
        _ ← (if enable_plugins s then
               _ ← try_except (unload_extension (ext_string p))
                     is_ExtensionError (ret tt);
               load_plugin env p
             else ret tt);
        send Updated
  end.

(** [Plugins.plugins_update]. The loop runs over the list itself, which
    [update_plugin] never changes, so it sees the elements the list has
    when the loop starts. *)
Definition plugins_update (env : Env) (plugin_name : option string) : M unit :=
  match plugin_name with
  | None =>
      s ← get;
      for_each (config_plugins s) (update_plugin env)
  | Some n => update_plugin env n
  end.

(** One turn of the loop of [initial_load_plugins]. *)
Definition initial_load_one (env : Env) (plugin_name : string) : M unit :=
  o ← match from_string plugin_name true with
      | Some p => ret (Some p)
      | None =>
          s ← get;
          match list_remove plugin_name (config_plugins s) with
          | None => raise ValueError
          | Some l =>
              _ ← set_config_plugins l;
              match from_string plugin_name false with
              | None => ret None                        (* [continue] *)
              | Some p =>
                  s ← get;
                  _ ← set_config_plugins (config_plugins s ++ [str p]);
                  ret (Some p)
              end
          end
      end;
  match o with
  | None => ret tt
  | Some p =>
      try_except
        (_ ← download_plugin env p false; load_plugin env p)
        (λ _, true)
        (ret tt)
  end.

(** What one turn of that loop does to the cached list: an entry that
    parses strictly stays, any other is removed and, when it parses
    leniently, its normal form is appended. *)
Definition migrate (plugin_name : string) (l : list string) : option (list string) :=
  match from_string plugin_name true with
  | Some _ => Some l
  | None =>
      match list_remove plugin_name l with
      | None => None
      | Some l' =>
          Some (l' ++ match from_string plugin_name false with
                      | Some p => [str p]
                      | None => []
                      end)
      end
  end.

Fixpoint migrate_all (names l : list string) : option (list string) :=
  match names with
  | [] => Some l
  | x :: names' =>
      match migrate x l with
      | Some l' => migrate_all names' l'
      | None => None
      end
  end.

(** [Plugins.initial_load_plugins]; the loop runs over a copy of the list. *)
Definition initial_load_plugins (env : Env) : M unit :=
  s ← get;
  _ ← for_each (config_plugins s) (initial_load_one env);
  _ ← ready_event_set;
  config_update.

(** [Plugins.populate_registry] *)
Definition populate_registry (env : Env) : M unit :=
  _ ← emit (EvGet "https://raw.githubusercontent.com/kyb3r/modmail/master/plugins/registry.json");
  match registry_json env with
  | None => raise ClientError
  | Some r =>
      modify (λ s, mkState (config_plugins s) (stored_plugins s) (enable_plugins s)
                     (version s) (fs s) (extensions s) r
                     (loaded_plugins s) (ready s) (trace s))
  end.

(** What [__init__] hands to [bot.loop.create_task]. *)
Inductive task :=
  | PopulateRegistry
  | InitialLoad.

Global Instance task_eq_dec : EqDecision task.
Proof. solve_decision. Defined.

(** [Plugins.__init__]: the attributes are reset, and the tasks to run are
    returned. *)
Definition Plugins_init (s : state) : state * list task :=
  (mkState (config_plugins s) (stored_plugins s) (enable_plugins s)
     (version s) (fs s) (extensions s) ∅ ∅ false (trace s),
   PopulateRegistry :: (if enable_plugins s then [InitialLoad] else [])).

(** The commands of the [plugins] group that change something. *)
Inductive command :=
  | CmdAdd (plugin_name : string)
  | CmdRemove (plugin_name : string)
  | CmdUpdate (plugin_name : option string).

Definition run_task (env : Env) (t : task) : M unit :=
  match t with
  | PopulateRegistry => populate_registry env
  | InitialLoad => initial_load_plugins env
  end.

Definition run_command (env : Env) (c : command) : M unit :=
  match c with
  | CmdAdd n => plugins_add env n
  | CmdRemove n => plugins_remove n
  | CmdUpdate n => plugins_update env n
  end.

(** What happens next in the event loop: a scheduled task runs, or a
    command is invoked. An exception that leaves a task or a command is
    logged by the caller; the state stays as it was when it was raised. *)
Inductive action :=
  | RunTask (t : task)
  | Invoke (c : command).

Definition step (tasks : list task) (s : state) (ea : Env * action) : state :=
  match ea.2 with
  | RunTask t => if decide (t ∈ tasks) then final (run_task ea.1 t s) else s
  | Invoke c => final (run_command ea.1 c s)
  end.

(** The bot after the cog is created in state [s] and the given actions
    have happened, each in its own surroundings. *)
Definition run (s : state) (l : list (Env * action)) : state :=
  let '(s0, tasks) := Plugins_init s in
  foldl (step tasks) s0 l.

(** The invariant of the loaded set: every loaded plugin has its install
    directory on disk. *)
Definition loaded_installed (s : state) : Prop :=
  ∀ p, p ∈ loaded_plugins s → is_Some (fs s !! abs_path p).

(** The configuration was stored before the readiness gate opened: some
    [EvConfigUpdate] comes before some [EvReady]. *)
Definition persist_before_ready (tr : list event) : Prop :=
  ∃ i j l, i < j ∧ tr !! i = Some (EvConfigUpdate l) ∧ tr !! j = Some EvReady.

(** The number of downloads in a trace. *)
Definition is_get (e : event) : bool :=
  match e with
  | EvGet _ => true
  | _ => false
  end.

Definition downloads (tr : list event) : nat :=
  length (filter (λ e, is_get e = true) tr).

(** ** Relations between states, used to state what the code keeps *)

(** What any text accepted by one of the two patterns looks like: two
    slashes cut it into three parts, none of them empty. *)
Definition three_parts (s : string) : Prop :=
  ∃ q1 q2 q3, q1 ≠ "" ∧ q2 ≠ "" ∧ q3 ≠ "" ∧ s = ref3 q1 q2 q3.

(** A computation keeps a relation between the state it starts in and the
    state it ends in, however it ends. Such facts compose along the
    structure of the code. *)
Definition keeps {A} (R : relation state) (m : M A) : Prop :=
  ∀ s, R s (final (m s)).

(** Downloading and loading touch the disk, the extensions and the loaded
    set, and add downloads to the trace; nothing else. *)
Definition frame (s s' : state) : Prop :=
  config_plugins s' = config_plugins s
  ∧ stored_plugins s' = stored_plugins s
  ∧ enable_plugins s' = enable_plugins s
  ∧ version s' = version s
  ∧ registry s' = registry s
  ∧ ready s' = ready s
  ∧ ∃ evs, trace s' = trace s ++ evs ∧ Forall (λ e, ∃ u, e = EvGet u) evs.

(** Nothing happens but the answer that the plugins are still loading,
    and downloads of the registry. *)
Definition idle (s s' : state) : Prop :=
  config_plugins s' = config_plugins s
  ∧ stored_plugins s' = stored_plugins s
  ∧ enable_plugins s' = enable_plugins s
  ∧ fs s' = fs s
  ∧ extensions s' = extensions s
  ∧ loaded_plugins s' = loaded_plugins s
  ∧ ready s' = ready s
  ∧ ∃ evs, trace s' = trace s ++ evs
      ∧ Forall (λ e, e = EvSend StillLoading ∨ is_get e = true) evs.

(** The lists are as they were, and the trace has only grown. *)
Definition lists_kept (s s' : state) : Prop :=
  config_plugins s' = config_plugins s
  ∧ stored_plugins s' = stored_plugins s
  ∧ ∃ evs, trace s' = trace s ++ evs.

(** Like [frame], but the cached list may have changed. *)
Definition frame_but_list (s s' : state) : Prop :=
  stored_plugins s' = stored_plugins s
  ∧ ready s' = ready s
  ∧ ∃ evs, trace s' = trace s ++ evs ∧ Forall (λ e, is_get e = true) evs.

(** What is on disk stays, as what it is: a directory stays one, a file
    stays a file (its content may change). *)
Definition kind_le (d d' : disk) : Prop :=
  ∀ q, match d !! q with
       | None => True
       | Some Dir => d' !! q = Some Dir
       | Some (File _) => ∃ c, d' !! q = Some (File c)
       end.

(** Whatever differs lies at one of the paths [T] or above it. *)
Definition within (T : list path) (d d' : disk) : Prop :=
  ∀ q, d' !! q ≠ d !! q → ∃ t, t ∈ T ∧ q `prefix_of` t.

(** Only the disk has changed, by additions and rewritten files at [T] or
    above. *)
Definition disk_only (T : list path) (s s' : state) : Prop :=
  config_plugins s' = config_plugins s
  ∧ stored_plugins s' = stored_plugins s
  ∧ enable_plugins s' = enable_plugins s
  ∧ version s' = version s
  ∧ extensions s' = extensions s
  ∧ registry s' = registry s
  ∧ loaded_plugins s' = loaded_plugins s
  ∧ ready s' = ready s
  ∧ trace s' = trace s
  ∧ kind_le (fs s) (fs s')
  ∧ within T (fs s) (fs s').

(** What a member that belongs to the plugin leaves at its target. *)
Definition extracted (info : ZipInfo) (o : option node) : Prop :=
  if is_dir info then o = Some Dir else ∃ c, o = Some (File c).

(** The targets of the members of an archive that belong to the plugin. *)
Definition targets (p : Plugin) (zipf : list ZipInfo) : list path :=
  target p <$> filter (λ info, selected p info = true) zipf.

(** A field that a parse can return: not empty and on one line. *)
Definition one_line (s : string) : Prop :=
  s ≠ "" ∧ Str.contains newline s = false.

(** Only the disk has changed, and nothing on it went away. *)
Definition disk_grows (s s' : state) : Prop :=
  config_plugins s' = config_plugins s
  ∧ stored_plugins s' = stored_plugins s
  ∧ enable_plugins s' = enable_plugins s
  ∧ version s' = version s
  ∧ extensions s' = extensions s
  ∧ registry s' = registry s
  ∧ loaded_plugins s' = loaded_plugins s
  ∧ ready s' = ready s
  ∧ trace s' = trace s
  ∧ kind_le (fs s) (fs s').

(** The state is the same but for the disk and the trace. *)
Definition same_but_disk (s s' : state) : Prop :=
  config_plugins s' = config_plugins s
  ∧ stored_plugins s' = stored_plugins s
  ∧ enable_plugins s' = enable_plugins s
  ∧ version s' = version s
  ∧ extensions s' = extensions s
  ∧ registry s' = registry s
  ∧ loaded_plugins s' = loaded_plugins s
  ∧ ready s' = ready s.

(** Nothing was created or changed on disk: what is there afterwards was
    there before, as it is. *)
Definition shrinks (d d' : disk) : Prop :=
  ∀ q, d' !! q = None ∨ d' !! q = d !! q.

(** What [parse_user_input] looks at. *)
Definition parse_kept (s s' : state) : Prop :=
  ready s' = ready s ∧ registry s' = registry s ∧ version s' = version s.

(** The switches and the lists are as they were, and the trace has grown
    by requests and answers only. *)
Definition settings_kept (s s' : state) : Prop :=
  config_plugins s' = config_plugins s
  ∧ stored_plugins s' = stored_plugins s
  ∧ enable_plugins s' = enable_plugins s
  ∧ version s' = version s
  ∧ registry s' = registry s
  ∧ ready s' = ready s
  ∧ ∃ evs, trace s' = trace s ++ evs
      ∧ Forall (λ e, is_get e = true ∨ ∃ r, e = EvSend r) evs.

(** Nothing was loaded or unloaded, and the switch is as it was. *)
Definition loading_kept (s s' : state) : Prop :=
  enable_plugins s' = enable_plugins s
  ∧ loaded_plugins s' = loaded_plugins s
  ∧ extensions s' = extensions s.

(** [plugins_add] after its checks, by what the forced download does: the
    state it ends in. *)
Definition added (env : Env) (p : Plugin) (s : state) : state :=
  match download_plugin env p true (final (send Downloading s)) with
  | Raise _ s1 => final (send DownloadFailed s1)
  | Ok _ s1 =>
      let s2 := final (config_update
                  (final (set_config_plugins (config_plugins s1 ++ [str p]) s1))) in
      if enable_plugins s1 then
        match load_plugin env p s2 with
        | Ok _ s3 => final (send Installed s3)
        | Raise _ s3 => final (send LoadFailed s3)
        end
      else final (send InstalledDisabled s2)
  end.

(** The identity that the initial load makes of an entry of the list: the
    strict parse, and the lenient one when that fails. *)
Definition entry_plugin (x : string) : option Plugin :=
  match from_string x true with
  | Some p => Some p
  | None => from_string x false
  end.

(** Nothing on disk went away and no extension was unloaded. *)
Definition grows (s s' : state) : Prop :=
  kind_le (fs s) (fs s') ∧ extensions s ⊆ extensions s'.

(** A text that makes one segment of a path and names an entry of the
    directory it is looked up in: not empty, neither [.] nor [..], and
    without a slash. *)
Definition segment (s : string) : Prop :=
  s ≠ "" ∧ s ≠ "." ∧ s ≠ ".." ∧ Str.contains "/" s = false.

(** An identity whose owner and repository are one segment each and whose
    name and branch hold no slash, the name holding no hyphen either. The
    install path of such an identity has no [..] below [base]. *)
Definition plain (p : Plugin) : Prop :=
  segment (user p) ∧ segment (repo p)
  ∧ Str.contains "/" (name p) = false ∧ Str.contains "-" (name p) = false
  ∧ Str.contains "/" (branch p) = false.

End Cog.

(** ** The answer of [plugins loaded]

    The lines 476-487 of [plugins_loaded]: the names of the loaded
    plugins, in the order [sorted] gives them, are cut into pages of at most
    2048 characters, each inside a code fence. [len] is the number of
    characters of a text, [String.length] here. *)

Definition fence_open : string := "```" +:+ String newline "".
Definition fence_close : string := "```".

(** [s[n:]] *)
Fixpoint str_drop (n : nat) (s : string) : string :=
  match n, s with
  | 0, _ => s
  | S n', String _ s' => str_drop n' s'
  | S _, EmptyString => EmptyString
  end.

(** [s[-n:]] for a positive [n] *)
Definition str_last (n : nat) (s : string) : string :=
  str_drop (String.length s - n) s.

(** The loop over the names. The list [pages] of the source is never
    empty: it is kept as its last element [cur] and the elements [done]
    before it, so that [pages[-1] += x] changes [cur] and [pages.append(x)]
    moves [cur] to the end of [done]. *)
Fixpoint pages_loop (names : list string) (done : list string) (cur : string)
    : list string * string :=
  match names with
  | [] => (done, cur)
  | plugin :: names' =>
      let msg := plugin +:+ String newline "" in
      if decide (String.length msg + String.length cur + 3 ≤ 2048)
      then pages_loop names' done (cur +:+ msg)
      else pages_loop names' (done ++ [cur +:+ fence_close]) (fence_open +:+ msg)
  end.

(** The pages that are shown. *)
Definition loaded_pages (names : list string) : list string :=
  let '(done, cur) := pages_loop names [] fence_open in
  done ++ [if decide (str_last 3 cur ≠ fence_close)
           then cur +:+ fence_close else cur].

(** A page with its fences. *)
Definition fenced (body : string) : string :=
  fence_open +:+ body +:+ fence_close.

(** [''.join(l)] *)
Definition str_concat (l : list string) : string :=
  foldr String.append "" l.

(** The body of the last page is empty or ends with a line break. *)
Definition open_body (b : string) : Prop :=
  b = "" ∨ ∃ t, b = t +:+ String newline "".

(** ** The page of [plugins registry]

    The lines 514-538 of [plugins_registry]: which entry of the registry,
    sorted by name, is shown first, or whether the answer is that no such
    plugin was found. *)

Inductive registry_arg :=
  | ArgNone
  | ArgInt (k : Z)
  | ArgStr (n : string).

(** [next((i for i, (n, _) in enumerate(registry) if plugin_name == n), 0)] *)
Fixpoint find_index (names : list string) (n : string) (i : Z) : Z :=
  match names with
  | [] => 0
  | x :: names' => if decide (n = x) then i else find_index names' n (i + 1)
  end.

Definition registry_index (names : list string) (arg : registry_arg) : Z :=
  match arg with
  | ArgInt k =>
      let index := (k - 1)%Z in
      let index := if decide (index < 0)%Z then 0%Z else index in
      if decide (index >= Z.of_nat (length names))%Z
      then (Z.of_nat (length names) - 1)%Z else index
  | ArgStr n => find_index names n 0
  | ArgNone => 0%Z
  end.

Global Instance registry_arg_eq_dec : EqDecision registry_arg.
Proof. solve_decision. Defined.

(** How the command goes on after the index is computed. *)
Inductive registry_answer :=
  | Paginate (index : Z)   (* [paginator.current = index] *)
  | AnswerNotFound         (* the embed "No se pudo encontrar ..." is sent *)
  | RaiseTypeError.        (* raised by [get_close_matches] before it is sent *)

(** The branch [not index and plugin_name is not None] builds the answer
    that the plugin was not found and calls
    [get_close_matches(plugin_name, ...)] before sending it; [difflib]
    iterates over its first argument, which raises [TypeError] for an
    [int]. *)
Definition registry_page (names : list string) (arg : registry_arg)
    : registry_answer :=
  let index := registry_index names arg in
  if bool_decide (index = 0%Z) && negb (bool_decide (arg = ArgNone))
  then match arg with
       | ArgInt _ => RaiseTypeError
       | _ => AnswerNotFound
       end
  else Paginate index.

(** ** The pages of [plugins registry compact]

    The loop over the lines [fmt] of the registry, the last page being
    kept apart as in [pages_loop]. *)
Fixpoint compact_loop (fmts : list string) (done : list string) (cur : string)
    : list string :=
  match fmts with
  | [] => done ++ [cur]
  | fmt :: fmts' =>
      if decide (String.length fmt + String.length cur ≤ 2048)
      then compact_loop fmts' done (cur +:+ fmt)
      else compact_loop fmts' (done ++ [cur]) fmt
  end.

Definition compact_pages (fmts : list string) : list string :=
  compact_loop fmts [] "".

(** * The configuration manager ([core/config.py])

    [ConfigManager] keeps the settings in the dict [self._cache]; the cog
    above reads [config["plugins"]] and calls [config.update()]. The values
    are kept abstract, with the equality Python compares them with, and so
    are [str.lower] and the three class-level dicts of names and defaults.
    A [dict] is the list of its items in insertion order. *)

Module ConfigManager.
Section ConfigManager.

Context {V : Type} `{EqDecision V}.
Local Abbreviation dict := (list (string * V)).

(** [d.keys()] *)
Definition keys (d : dict) : list string := d.*1.

(** [d.get(k)] *)
Fixpoint dict_get (k : string) (d : dict) : option V :=
  match d with
  | [] => None
  | (k', v) :: d' => if decide (k' = k) then Some v else dict_get k d'
  end.

(** [d[k] = v]: the item of the key is replaced where it stands, a new key
    goes to the end. *)
Fixpoint dict_set (k : string) (v : V) (d : dict) : dict :=
  match d with
  | [] => [(k, v)]
  | (k', v') :: d' =>
      if decide (k' = k) then (k', v) :: d' else (k', v') :: dict_set k v d'
  end.

(** [del d[k]] *)
Definition dict_del (k : string) (d : dict) : dict :=
  filter (λ kv, kv.1 ≠ k) d.

(** [{**a, **b, **c}] *)
Definition dict_merge (ds : list dict) : dict :=
  foldl (λ d kv, dict_set kv.1 kv.2 d) [] (concat ds).

(** [str.lower] *)
Variable lower : string → string.

Variables public_keys private_keys protected_keys : dict.

Definition defaults : dict :=
  dict_merge [public_keys; private_keys; protected_keys].

Definition all_keys : gset string := list_to_set (keys defaults).

(** The names of the source are written in lower case. *)
Definition lower_case_keys : Prop := ∀ k, k ∈ all_keys → lower k = k.

Record t : Type := { _cache : dict; ready_event : bool }.

Definition set_cache (self : t) (cache : dict) : t :=
  {| _cache := cache; ready_event := ready_event self |}.

Inductive error : Type :=
| InvalidConfigError (key : string)
| KeyError (key : string).

Inductive outcome (A : Type) : Type :=
| Return (a : A) (self : t)
| Raise (e : error) (self : t).
Arguments Return {A} a self.
Arguments Raise {A} e self.

Definition self_of {A : Type} (o : outcome A) : t :=
  match o with Return _ self | Raise _ self => self end.

(** [d[key]] in an expression *)
Definition subscript {A : Type} (d : dict) (key : string) (self : t)
    (k : V → outcome A) : outcome A :=
  match dict_get key d with
  | Some v => k v
  | None => Raise (KeyError key) self
  end.

Definition __setitem__ (self : t) (key : string) (item : V) : outcome unit :=
  let key := lower key in
  if decide (key ∉ all_keys) then Raise (InvalidConfigError key) self
  else Return tt (set_cache self (dict_set key item (_cache self))).

Definition __getitem__ (self : t) (key : string) : outcome V :=
  let key := lower key in
  if decide (key ∉ all_keys) then Raise (InvalidConfigError key) self
  else
    if decide (key ∉ keys (_cache self))
    then
      subscript defaults key self (λ d,
        let self := set_cache self (dict_set key d (_cache self)) in
        subscript (_cache self) key self (λ v, Return v self))
    else subscript (_cache self) key self (λ v, Return v self).

Definition remove (self : t) (key : string) : outcome V :=
  let key := lower key in
  if decide (key ∉ all_keys) then Raise (InvalidConfigError key) self
  else
    let self :=
      if decide (key ∈ keys (_cache self))
      then set_cache self (dict_del key (_cache self)) else self in
    subscript defaults key self (λ d,
      let self := set_cache self (dict_set key d (_cache self)) in
      subscript (_cache self) key self (λ v, Return v self)).

Definition __delitem__ (self : t) (key : string) : outcome V :=
  remove self key.

Definition items (self : t) : dict := _cache self.

Definition filter_valid (data : dict) : dict :=
  foldl (λ out kv,
           let k := lower kv.1 in
           if decide (k ∈ keys public_keys ∨ k ∈ keys private_keys)
           then dict_set k kv.2 out else out)
        [] data.

Definition filter_default (data : dict) : dict :=
  foldl (λ filtered kv,
           match dict_get (lower kv.1) defaults with
           | None => filtered
           | Some default =>
               if decide (kv.2 ≠ default)
               then dict_set (lower kv.1) kv.2 filtered else filtered
           end)
        [] data.

(** [update]: the data handed to [api.update_config]. *)
Definition update (self : t) : dict := filter_default (_cache self).

(** [refresh], [db] being the answer of [api.get_config]. *)
Definition refresh (self : t) (db : dict) : dict * t :=
  let cache :=
    foldl (λ cache kv,
             let k := lower kv.1 in
             if decide (k ∈ all_keys) then dict_set k kv.2 cache else cache)
          (_cache self) db in
  let self := {| _cache := cache; ready_event := true |} in
  (_cache self, self).

(** The keys of the cache are names of the configuration, none twice. *)
Definition valid (self : t) : Prop :=
  NoDup (keys (_cache self)) ∧ ∀ k, k ∈ keys (_cache self) → k ∈ all_keys.

(** What [update] keeps of an item. *)
Definition changed (kv : string * V) : Prop :=
  dict_get kv.1 defaults ≠ Some kv.2.

#[global] Instance changed_dec (kv : string * V) : Decision (changed kv).
Proof. unfold changed. apply _. Defined.

End ConfigManager.

Arguments Return {V A} a self.
Arguments Raise {V A} e self.

End ConfigManager.

(** ** A small world to run the code in *)

Module Sample.

Definition base : path := ["/"; "bot"].

Definition X : Plugin := mkPlugin "a" "b" "x" "master".
Definition Y : Plugin := mkPlugin "c" "d" "y" "master".
Definition Z : Plugin := mkPlugin "a" "b" "z" "master".

(** The archive of [a/b@master], with the plugins [x] and [z] and a
    directory of its own. *)
Definition zip_ab : content :=
  ZipBytes [mkZipInfo "b-master/" "";
            mkZipInfo "b-master/README.md" "two plugins";
            mkZipInfo "b-master/x/" "";
            mkZipInfo "b-master/x/x.py" "def setup(bot): ...";
            mkZipInfo "b-master/z/z.py" "def setup(bot): ...";
            mkZipInfo "b-master/z/data/words.txt" "a b c"].

Definition zip_cd : content :=
  ZipBytes [mkZipInfo "d-master/y/y.py" "def setup(bot): ..."].

Definition github (u : string) : option content :=
  if decide (u = url X) then Some zip_ab
  else if decide (u = url Y) then Some zip_cd
  else None.

(** Everything works. *)
Definition env_ok : Env := mkEnv github (λ _, false) (λ _, true) [] None.

(** The network is down: every request raises. *)
Definition env_offline : Env := mkEnv (λ _, None) (λ _, false) (λ _, true) [] None.

(** The code of [x] raises when it is set up. *)
Definition env_x_broken : Env :=
  mkEnv github (λ _, false) (λ ext, bool_decide (ext ≠ ext_string X)) [] None.

(** A bot that has just started, with the given list and switch. *)
Definition fresh (plugins : list string) (enable : bool) : state :=
  mkState plugins plugins enable 1 ∅ ∅ ∅ ∅ false [].

(** The same bot with the gate open. *)
Definition started (plugins : list string) (enable : bool) : state :=
  mkState plugins plugins enable 1 ∅ ∅ ∅ ∅ true [].

(** A configuration of three names whose values are texts, and the lower
    case of ASCII letters for [str.lower]. *)
Definition lower_ascii (c : ascii) : ascii :=
  let n := nat_of_ascii c in
  if decide (65 ≤ n ≤ 90) then ascii_of_nat (n + 32) else c.

Fixpoint lower (s : string) : string :=
  match s with
  | "" => ""
  | String c s' => String (lower_ascii c) (lower s')
  end.

Definition public_keys : list (string * string) := [("prefix", "/")].
Definition private_keys : list (string * string) := [("plugins", "[]")].
Definition protected_keys : list (string * string) :=
  [("enable_plugins", "True")].

Definition config (cache : list (string * string)) : ConfigManager.t :=
  {| ConfigManager._cache := cache; ConfigManager.ready_event := true |}.

(** The bot with [y] installed, and [x] and [y] in its list. *)
Definition with_y : state :=
  final (download_plugin base env_ok Y true (fresh [str X; str Y] true)).

End Sample.

(** * Properties *)

Section properties.

Variable base : path.

Local Abbreviation abs_path := (abs_path base).
Local Abbreviation cache_path := (cache_path base).
Local Abbreviation target := (target base).
Local Abbreviation targets := (targets base).
Local Abbreviation extract_member := (extract_member base).
Local Abbreviation download_plugin := (download_plugin base).
Local Abbreviation load_plugin := (load_plugin base).
Local Abbreviation plugins_add := (plugins_add base).
Local Abbreviation plugins_remove := (plugins_remove base).
Local Abbreviation update_plugin := (update_plugin base).
Local Abbreviation plugins_update := (plugins_update base).
Local Abbreviation initial_load_one := (initial_load_one base).
Local Abbreviation initial_load_plugins := (initial_load_plugins base).
Local Abbreviation run_task := (run_task base).
Local Abbreviation run_command := (run_command base).
Local Abbreviation step := (step base).
Local Abbreviation run := (run base).
Local Abbreviation added := (added base).

(** ** Text *)

Import Str.

Lemma str_app_nil_l (s : string) : "" +:+ s = s.
Proof. reflexivity. Qed.

Lemma str_app_cons (c : ascii) (s t : string) :
  String c s +:+ t = String c (s +:+ t).
Proof. reflexivity. Qed.

Lemma str_app_nil_r (s : string) : s +:+ "" = s.
Proof. induction s as [|c s IH]; [done|]. by rewrite str_app_cons, IH. Qed.

Lemma str_app_assoc (s t u : string) : (s +:+ t) +:+ u = s +:+ (t +:+ u).
Proof. induction s as [|c s IH]; [done|]. by rewrite !str_app_cons, IH. Qed.

Lemma str_app_inv_head (s x y : string) : s +:+ x = s +:+ y → x = y.
Proof.
  induction s as [|c s IH]; [done|].
  rewrite !str_app_cons. intros [= H]. auto.
Qed.

Lemma str_app_eq_nil (s t : string) : s +:+ t = "" → s = "" ∧ t = "".
Proof. destruct s; [done|]. by rewrite str_app_cons. Qed.

Lemma str_contains_app c s t : contains c (s +:+ t) = contains c s || contains c t.
Proof.
  induction s as [|d s IH]; [done|].
  rewrite str_app_cons. simpl. by destruct (Ascii.eqb c d).
Qed.

Lemma str_count_app c s t : count c (s +:+ t) = count c s + count c t.
Proof.
  induction s as [|d s IH]; [done|].
  rewrite str_app_cons. simpl. rewrite IH. lia.
Qed.

Lemma str_count_cons_same c s : count c (String c s) = S (count c s).
Proof. simpl. by rewrite Ascii.eqb_refl. Qed.

(** Where the first occurrence of [c] lies decides how a text splits
    around an occurrence of [c]. *)
Lemma str_split_first c o x q y :
  contains c o = false →
  o +:+ String c x = q +:+ String c y →
  (q = o ∧ x = y) ∨ (∃ q', q = o +:+ String c q' ∧ x = q' +:+ String c y).
Proof.
  revert q. induction o as [|d o IH]; intros q Ho E.
  - destruct q as [|e q].
    + left. by injection E.
    + right. rewrite str_app_nil_l, str_app_cons in E. injection E as -> ->.
      by exists q.
  - simpl in Ho. destruct (Ascii.eqb c d) eqn:Hcd; [done|].
    destruct q as [|e q].
    + rewrite str_app_nil_l, str_app_cons in E. injection E as <- _.
      by rewrite Ascii.eqb_refl in Hcd.
    + rewrite !str_app_cons in E. injection E as <- E.
      destruct (IH q Ho E) as [[-> ->]|(q' & -> & ->)].
      * by left.
      * right. by exists q'.
Qed.

Lemma str_split_unique c o x q y :
  contains c o = false → contains c q = false →
  o +:+ String c x = q +:+ String c y → q = o ∧ x = y.
Proof.
  intros Ho Hq E. destruct (str_split_first c o x q y Ho E) as [?|(q' & -> & _)]; [done|].
  rewrite str_contains_app in Hq. simpl in Hq. rewrite Ascii.eqb_refl in Hq.
  by destruct (contains c o).
Qed.

Example from_string_ex1 :
  from_string "kyb3r/modmail-plugins/tags" false
  = Some (mkPlugin "kyb3r" "modmail-plugins" "tags" "master").
Proof. reflexivity. Qed.

Example from_string_ex2 :
  from_string "kyb3r/modmail-plugins/tags@dev" true
  = Some (mkPlugin "kyb3r" "modmail-plugins" "tags" "dev").
Proof. reflexivity. Qed.

Example from_string_ex3 : from_string "kyb3r/modmail-plugins/tags" true = None.
Proof. reflexivity. Qed.

(** ** The matcher *)

Lemma str_nonempty_app (s t : string) : s ≠ "" → s +:+ t ≠ "".
Proof. destruct s; [done|]. by rewrite str_app_cons. Qed.

Lemma dot_iff c : dot c = negb (Ascii.eqb newline c).
Proof. unfold dot. by rewrite Ascii.eqb_sym. Qed.

(** A lazy group that matches has consumed a non-empty prefix on one
    line, after which the rest of the pattern matched. *)
Lemma lazy_plus_inv_line {R} (k : string → string → option R) g s r :
  lazy_plus k g s = Some r →
  ∃ q t, q ≠ "" ∧ contains newline q = false ∧ s = q +:+ t
         ∧ k (g +:+ q) t = Some r.
Proof.
  revert g. induction s as [|c s IH]; intros g; cbn [lazy_plus]; [done|].
  rewrite dot_iff.
  destruct (Ascii.eqb newline c) eqn:Hc; [done|]. cbn [negb].
  destruct (k (g +:+ String c "") s) eqn:Hk.
  - intros [= ->]. exists (String c ""), s. cbn [contains]. by rewrite Hc.
  - intros H. destruct (IH _ H) as (q & t & Hq & Hnl & -> & Hr).
    exists (String c q), t. cbn [contains]. rewrite Hc.
    split_and!; [done|done|done|]. by rewrite str_app_assoc in Hr.
Qed.

Lemma lazy_plus_inv {R} (k : string → string → option R) g s r :
  lazy_plus k g s = Some r →
  ∃ q t, q ≠ "" ∧ s = q +:+ t ∧ k (g +:+ q) t = Some r.
Proof.
  intros (q & t & ? & _ & ? & ?)%lazy_plus_inv_line. by exists q, t.
Qed.

(** The search is complete: when the rest of the pattern matches after
    some prefix, the group finds a match. *)
Lemma lazy_plus_complete {R} (k : string → string → option R) q g t :
  q ≠ "" → contains newline q = false →
  is_Some (k (g +:+ q) t) → is_Some (lazy_plus k g (q +:+ t)).
Proof.
  revert g. induction q as [|c q IH]; intros g Hne Hnl Hk; [done|].
  rewrite str_app_cons. cbn [lazy_plus]. cbn [contains] in Hnl. rewrite dot_iff.
  destruct (Ascii.eqb newline c) eqn:Hc; [done|]. cbn [negb].
  destruct (k (g +:+ String c "") (q +:+ t)) eqn:E; [done|].
  destruct q as [|d q].
  - rewrite str_app_nil_l in E. rewrite E in Hk. by destruct Hk.
  - apply IH; [done|done|]. by rewrite str_app_assoc.
Qed.

(** A lazy group takes the prefix [p] when the rest of the pattern matches
    after [p] and after no shorter prefix. *)
Lemma lazy_plus_shortest {R} (k : string → string → option R) p g rest r :
  p ≠ "" →
  contains newline p = false →
  k (g +:+ p) rest = Some r →
  (∀ q q', q ≠ "" → q' ≠ "" → p = q +:+ q' → k (g +:+ q) (q' +:+ rest) = None) →
  lazy_plus k g (p +:+ rest) = Some r.
Proof.
  revert g. induction p as [|c p IH]; intros g Hne Hnl Hk Hshort; [done|].
  rewrite str_app_cons. cbn [lazy_plus]. cbn [contains] in Hnl. rewrite dot_iff.
  destruct (Ascii.eqb newline c) eqn:Hc; [done|]. cbn [negb].
  destruct p as [|d p].
  - by rewrite str_app_nil_l, Hk.
  - rewrite (Hshort (String c "") (String d p)); [|done..].
    apply IH; [done|done|by rewrite str_app_assoc|].
    intros q q' Hq Hq' E. rewrite str_app_assoc.
    apply Hshort; [done|done|]. by rewrite E.
Qed.

Lemma lit_first_ne {R} c (k : string → option R) d s :
  Ascii.eqb c d = false → lit c k (String d s) = None.
Proof. intros H. simpl. by rewrite H. Qed.

Lemma lit_same {R} c (k : string → option R) s : lit c k (String c s) = k s.
Proof. simpl. by rewrite Ascii.eqb_refl. Qed.

Lemma at_end_long c d s : at_end (String c (String d s)) = false.
Proof. done. Qed.

Lemma at_end_no_newline s : s ≠ "" → contains newline s = false → at_end s = false.
Proof.
  destruct s as [|c [|d s]]; [done| |done].
  cbn [at_end contains]. intros _. rewrite (Ascii.eqb_sym newline c).
  by destruct (Ascii.eqb c newline).
Qed.

(** A proper suffix of a text without [c] does not start with [c]. *)
Lemma suffix_head c q q' p :
  contains c p = false → q' ≠ "" → p = q +:+ q' →
  ∃ d t, q' = String d t ∧ Ascii.eqb c d = false ∧ contains c t = false.
Proof.
  intros Hp Hq' ->. rewrite str_contains_app in Hp.
  apply orb_false_elim in Hp as [_ Hp].
  destruct q' as [|d t]; [done|]. exists d, t. simpl in Hp.
  by destruct (Ascii.eqb c d).
Qed.

Lemma valid_field_spec s :
  valid_field s = true ↔
  s ≠ "" ∧ contains "/" s = false ∧ contains "@" s = false
    ∧ contains newline s = false.
Proof.
  unfold valid_field. rewrite !andb_true_iff, !negb_true_iff.
  rewrite bool_decide_eq_false. tauto.
Qed.

Lemma valid_branch_spec s :
  valid_branch s = true ↔ s ≠ "" ∧ contains newline s = false.
Proof.
  unfold valid_branch. rewrite !andb_true_iff, !negb_true_iff.
  by rewrite bool_decide_eq_false.
Qed.

Lemma lit_inv {R} c (k : string → option R) s r :
  lit c k s = Some r → ∃ t, s = String c t ∧ k t = Some r.
Proof.
  destruct s as [|d t]; [done|]. cbn [lit].
  destruct (Ascii.eqb c d) eqn:E; [|done].
  apply Ascii.eqb_eq in E as <-. eauto.
Qed.

(** A field followed by the separator [c]: the group stops at the field
    when the rest of the pattern matches there. *)
Lemma lazy_plus_sep {R} c (K : string → string → option R) p rest r :
  p ≠ "" → contains newline p = false → contains c p = false →
  K p rest = Some r →
  lazy_plus (λ g, lit c (K g)) "" (p +:+ String c rest) = Some r.
Proof.
  intros Hne Hnl Hc HK.
  apply lazy_plus_shortest; [done|done|by rewrite str_app_nil_l, lit_same|].
  intros q q' Hq Hq' E.
  destruct (suffix_head c q q' p Hc Hq' E) as (d & t & -> & Hd & _).
  rewrite str_app_cons. by apply lit_first_ne.
Qed.

(** The last group of a pattern, up to the end of the text. *)
Lemma lazy_plus_last {R} (f : string → R) p :
  p ≠ "" → contains newline p = false →
  lazy_plus (λ b s4, if at_end s4 then Some (f b) else None) "" p = Some (f p).
Proof.
  intros Hne Hnl. rewrite <- (str_app_nil_r p) at 1.
  apply lazy_plus_shortest; [done|done|by rewrite str_app_nil_l|].
  intros q q' Hq Hq' E. rewrite str_app_nil_r.
  rewrite at_end_no_newline; [done|done|].
  rewrite E, str_contains_app in Hnl. by apply orb_false_elim in Hnl as [_ ?].
Qed.

Lemma re_lenient_ref3 o r n :
  valid_field o = true → valid_field r = true → valid_field n = true →
  re_lenient (ref3 o r n) = Some (o, r, n, None).
Proof.
  intros (Ho & Ho1 & _ & Ho3)%valid_field_spec (Hr & Hr1 & _ & Hr3)%valid_field_spec
    (Hn & _ & Hn2 & Hn3)%valid_field_spec.
  unfold re_lenient, ref3.
  apply lazy_plus_sep; [done..|].
  apply lazy_plus_sep; [done..|].
  rewrite <- (str_app_nil_r n) at 1.
  apply lazy_plus_shortest; [done|done|by rewrite str_app_nil_l|].
  intros q q' Hq Hq' E. cbn beta. rewrite str_app_nil_r.
  destruct (suffix_head "@" q q' n Hn2 Hq' E) as (d & t & -> & Hd & _).
  rewrite lit_first_ne by done.
  rewrite at_end_no_newline; [done|done|].
  rewrite E, str_contains_app in Hn3. by apply orb_false_elim in Hn3 as [_ ?].
Qed.

Lemma re_lenient_ref4 o r n b :
  valid_field o = true → valid_field r = true → valid_field n = true →
  valid_branch b = true →
  re_lenient (ref4 o r n b) = Some (o, r, n, Some b).
Proof.
  intros (Ho & Ho1 & _ & Ho3)%valid_field_spec (Hr & Hr1 & _ & Hr3)%valid_field_spec
    (Hn & _ & Hn2 & Hn3)%valid_field_spec (Hb & Hb3)%valid_branch_spec.
  unfold re_lenient, ref4, ref3. rewrite !str_app_assoc.
  apply lazy_plus_sep; [done..|].
  apply lazy_plus_sep; [done..|].
  apply lazy_plus_shortest; [done|done| |].
  - cbn beta. rewrite str_app_cons, !str_app_nil_l, lit_same.
    by rewrite (lazy_plus_last (λ b, (o, r, n, Some b))).
  - intros q q' Hq Hq' E. cbn beta.
    destruct (suffix_head "@" q q' n Hn2 Hq' E) as (d & t & -> & Hd & _).
    rewrite !str_app_cons, lit_first_ne by done.
    rewrite str_app_nil_l. by destruct t.
Qed.

Lemma re_strict_ref4 o r n b :
  valid_field o = true → valid_field r = true → valid_field n = true →
  valid_branch b = true →
  re_strict (ref4 o r n b) = Some (o, r, n, Some b).
Proof.
  intros (Ho & Ho1 & _ & Ho3)%valid_field_spec (Hr & Hr1 & _ & Hr3)%valid_field_spec
    (Hn & _ & Hn2 & Hn3)%valid_field_spec (Hb & Hb3)%valid_branch_spec.
  unfold re_strict, ref4, ref3. rewrite !str_app_assoc.
  apply lazy_plus_sep; [done..|].
  apply lazy_plus_sep; [done..|].
  apply lazy_plus_sep; [done..|].
  by rewrite (lazy_plus_last (λ b, (o, r, n, Some b))).
Qed.

Lemma re_lenient_shape s m : re_lenient s = Some m → three_parts s.
Proof.
  unfold re_lenient. intros H.
  apply lazy_plus_inv in H as (q1 & t1 & Hq1 & -> & H).
  apply lit_inv in H as (t2 & -> & H).
  apply lazy_plus_inv in H as (q2 & t3 & Hq2 & -> & H).
  apply lit_inv in H as (t4 & -> & H).
  apply lazy_plus_inv in H as (q3 & t5 & Hq3 & -> & _).
  exists q1, q2, (q3 +:+ t5). split_and!; [done|done|by apply str_nonempty_app|done].
Qed.

Lemma re_strict_shape s m :
  re_strict s = Some m → three_parts s ∧ contains "@" s = true.
Proof.
  unfold re_strict. intros H.
  apply lazy_plus_inv in H as (q1 & t1 & Hq1 & -> & H).
  apply lit_inv in H as (t2 & -> & H).
  apply lazy_plus_inv in H as (q2 & t3 & Hq2 & -> & H).
  apply lit_inv in H as (t4 & -> & H).
  apply lazy_plus_inv in H as (q3 & t5 & Hq3 & -> & H).
  apply lit_inv in H as (t6 & -> & _).
  split.
  - exists q1, q2, (q3 +:+ String "@" t6).
    split_and!; [done|done|by apply str_nonempty_app|done].
  - rewrite !str_contains_app. cbn [contains]. rewrite !str_contains_app.
    cbn [contains]. rewrite !str_contains_app. cbn [contains].
    rewrite Ascii.eqb_refl. by rewrite !orb_true_r.
Qed.

Lemma from_string_shape s strict p :
  from_string s strict = Some p →
  three_parts s ∧ (strict = true → contains "@" s = true).
Proof.
  unfold from_string. destruct strict; cbn [negb].
  - destruct (re_strict s) as [m|] eqn:E; [|done].
    intros _. by apply re_strict_shape in E as [].
  - destruct (re_lenient s) as [m|] eqn:E; [|done].
    intros _. split; [|done]. by apply re_lenient_shape in E.
Qed.

Lemma from_string_ref3 o r n :
  valid_field o = true → valid_field r = true → valid_field n = true →
  from_string (ref3 o r n) false = Some (mkPlugin o r n "master")
  ∧ from_string (ref3 o r n) true = None.
Proof.
  intros Ho Hr Hn. unfold from_string. cbn [negb].
  rewrite re_lenient_ref3 by done. split; [done|].
  destruct (re_strict (ref3 o r n)) as [m|] eqn:E; [|done].
  apply re_strict_shape in E as [_ E].
  apply valid_field_spec in Ho as (_ & _ & Ho & _).
  apply valid_field_spec in Hr as (_ & _ & Hr & _).
  apply valid_field_spec in Hn as (_ & _ & Hn & _).
  unfold ref3 in E. rewrite !str_contains_app, Ho, Hr, Hn in E. done.
Qed.

(** C5. For every reference [owner/repo/name] with valid fields, the
    lenient parse gives the identity with branch [master] and the strict
    parse fails; for every reference [owner/repo/name@branch], both parses
    give the identity with exactly that branch. *)
Theorem from_string_valid (o r n b : string) :
  valid_field o = true → valid_field r = true → valid_field n = true →
  valid_branch b = true →
  from_string (ref3 o r n) false = Some (mkPlugin o r n "master")
  ∧ from_string (ref3 o r n) true = None
  ∧ from_string (ref4 o r n b) false = Some (mkPlugin o r n b)
  ∧ from_string (ref4 o r n b) true = Some (mkPlugin o r n b).
Proof.
  intros Ho Hr Hn Hb. destruct (from_string_ref3 o r n Ho Hr Hn) as [H1 H2].
  split_and!; [done|done| |].
  - unfold from_string. cbn [negb]. by rewrite re_lenient_ref4.
  - unfold from_string. cbn [negb]. by rewrite re_strict_ref4.
Qed.

Lemma from_string_valid_witness :
  from_string (ref3 "kyb3r" "modmail-plugins" "tags") false
    = Some (mkPlugin "kyb3r" "modmail-plugins" "tags" "master")
  ∧ from_string (ref3 "kyb3r" "modmail-plugins" "tags") true = None
  ∧ from_string (ref4 "kyb3r" "modmail-plugins" "tags" "feature/x") false
    = Some (mkPlugin "kyb3r" "modmail-plugins" "tags" "feature/x")
  ∧ from_string (ref4 "kyb3r" "modmail-plugins" "tags" "feature/x") true
    = Some (mkPlugin "kyb3r" "modmail-plugins" "tags" "feature/x").
Proof.
  apply (from_string_valid "kyb3r" "modmail-plugins" "tags" "feature/x");
    reflexivity.
Defined.

Lemma split_on_length c s : length (split_on c s) = S (count c s).
Proof.
  induction s as [|d s IH]; [done|]. cbn [split_on count].
  destruct (Ascii.eqb c d); cbn [length]; [by rewrite IH|].
  destruct (split_on c s); [done|]. by cbn [length] in *.
Qed.

Lemma split_on_none c s : contains c s = false → split_on c s = [s].
Proof.
  induction s as [|d s IH]; [done|]. cbn [split_on contains].
  destruct (Ascii.eqb c d); [done|]. intros H. by rewrite IH.
Qed.

Lemma split_on_app c a b :
  contains c a = false → split_on c (a +:+ String c b) = a :: split_on c b.
Proof.
  induction a as [|d a IH].
  - intros _. rewrite str_app_nil_l. cbn [split_on]. by rewrite Ascii.eqb_refl.
  - cbn [contains]. rewrite str_app_cons. cbn [split_on].
    destruct (Ascii.eqb c d); [done|]. intros H. by rewrite IH.
Qed.

Lemma count_zero_contains c s : count c s = 0 → contains c s = false.
Proof.
  induction s as [|d s IH]; [done|]. cbn [count contains].
  destruct (Ascii.eqb c d); [done|]. apply IH.
Qed.

Lemma three_parts_fields s :
  three_parts s →
  3 ≤ field_count s ∧ (field_count s = 3 → "" ∉ split_on "/" s).
Proof.
  intros (q1 & q2 & q3 & H1 & H2 & H3 & ->). unfold field_count, ref3.
  rewrite split_on_length, !str_count_app.
  change (count "/" "/") with 1. split; [lia|].
  intros E.
  assert (count "/" q1 = 0 ∧ count "/" q2 = 0 ∧ count "/" q3 = 0)
    as (Z1 & Z2 & Z3) by lia.
  apply count_zero_contains in Z1. apply count_zero_contains in Z2.
  apply count_zero_contains in Z3.
  change ("/" +:+ q2 +:+ "/" +:+ q3) with (String "/" (q2 +:+ String "/" q3)).
  rewrite !split_on_app, split_on_none by done.
  rewrite !elem_of_cons, elem_of_nil. intros [?|[?|[?|[]]]]; congruence.
Qed.

(** C6, as the code has it. A reference with fewer than three fields, or
    with exactly three fields one of which is empty, is rejected by the
    strict and by the lenient parse. *)
Theorem from_string_malformed (s : string) (strict : bool) :
  malformed s → from_string s strict = None.
Proof.
  intros Hbad. destruct (from_string s strict) as [p|] eqn:E; [|done].
  apply from_string_shape in E as [H3 _].
  apply three_parts_fields in H3 as [Hge Hnone].
  destruct Hbad as [?|[Heq Hin]]; [lia|]. by destruct (Hnone Heq).
Qed.

Lemma from_string_malformed_witness :
  malformed "a//c@dev" ∧ from_string "a//c@dev" true = None
  ∧ from_string "a//c@dev" false = None.
Proof.
  assert (malformed "a//c@dev") as H.
  { right. split; [reflexivity|]. vm_compute. apply list_elem_of_further, list_elem_of_here. }
  split; [exact H|]. split; apply (from_string_malformed "a//c@dev"); exact H.
Defined.

(** C6, as stated, fails: a reference with four fields is accepted by the
    lenient parse, the name taking the extra field. *)
Lemma from_string_four_fields :
  field_count "a/b/c/d" = 4
  ∧ from_string "a/b/c/d" false = Some (mkPlugin "a" "b" "c/d" "master").
Proof. split; reflexivity. Qed.

(** ** The extension identifier *)

Lemma str_length_app (s t : string) :
  String.length (s +:+ t) = String.length s + String.length t.
Proof. induction s as [|c s IH]; [done|]. rewrite str_app_cons. simpl. by rewrite IH. Qed.

Lemma str_app_inv_tail (t s s' : string) : s +:+ t = s' +:+ t → s = s'.
Proof.
  revert s'. induction s as [|c s IH]; intros [|c' s'] E; [done| | |].
  - apply (f_equal String.length) in E. rewrite !str_length_app in E. simpl in E. lia.
  - apply (f_equal String.length) in E. rewrite !str_length_app in E. simpl in E. lia.
  - rewrite !str_app_cons in E. injection E as -> E. f_equal. by apply IH.
Qed.

(** C9, as the code has it. Two identities with the same name whose owner
    and repository hold no dot get different extension identifiers as soon
    as they differ in owner, repository or branch. *)
Theorem ext_string_inj (p1 p2 : Plugin) :
  name p1 = name p2 →
  contains "." (user p1) = false → contains "." (repo p1) = false →
  contains "." (user p2) = false → contains "." (repo p2) = false →
  (user p1, repo p1, branch p1) ≠ (user p2, repo p2, branch p2) →
  ext_string p1 ≠ ext_string p2.
Proof.
  destruct p1 as [u1 r1 n1 b1], p2 as [u2 r2 n2 b2]. cbn [user repo name branch].
  intros <- Hu1 Hr1 Hu2 Hr2 Hne E. apply Hne. clear Hne.
  unfold ext_string in E. cbn [user repo name branch] in E.
  apply str_app_inv_head in E.
  change ("." +:+ ?x) with (String "." x) in E.
  apply (str_split_unique "." u1 _ u2 _ Hu1 Hu2) in E as [-> E].
  change ("." +:+ ?x) with (String "." x) in E.
  apply (str_split_unique "." r1 _ r2 _ Hr1 Hr2) in E as [-> E].
  apply str_app_inv_head, str_app_inv_head in E.
  rewrite <- !str_app_assoc in E.
  by apply str_app_inv_tail, str_app_inv_tail in E as ->.
Qed.

Lemma ext_string_inj_witness :
  ext_string (mkPlugin "kyb3r" "modmail-plugins" "tags" "master")
  ≠ ext_string (mkPlugin "kyb3r" "modmail-plugins" "tags" "dev").
Proof.
  apply ext_string_inj; [reflexivity..|]. intros [=].
Defined.

(** C9, as stated, fails: a dot in a repository or branch name moves the
    boundary between the fields. Both identities come out of
    [from_string]. *)
Lemma ext_string_collision :
  let p1 := mkPlugin "a" "x" "n" "y.n-z" in
  let p2 := mkPlugin "a" "x.n-y" "n" "z" in
  from_string "a/x/n@y.n-z" true = Some p1
  ∧ from_string "a/x.n-y/n@z" true = Some p2
  ∧ name p1 = name p2 ∧ repo p1 ≠ repo p2 ∧ branch p1 ≠ branch p2
  ∧ ext_string p1 = ext_string p2.
Proof. split_and!; done. Qed.

(** ** Running computations *)

Lemma bind_run {A B} (m : M A) (f : A → M B) s :
  (m ≫= f) s = match m s with
               | Ok a s' => f a s'
               | Raise e s' => Raise e s'
               end.
Proof. reflexivity. Qed.

(** One more step of a computation. *)
Ltac mstep :=
  progress
    (rewrite ?bind_run;
     cbn [get modify emit send ret mret M_ret raise set_config_plugins
          set_extensions set_loaded_plugins ready_event_set final negb
          config_plugins stored_plugins enable_plugins version fs extensions
          registry loaded_plugins ready trace];
     cbv beta).

Lemma bind_ok {A B} (m : M A) (f : A → M B) s a s' :
  m s = Ok a s' → (m ≫= f) s = f a s'.
Proof. intros H. by rewrite bind_run, H. Qed.

Lemma bind_raise {A B} (m : M A) (f : A → M B) s e s' :
  m s = Raise e s' → (m ≫= f) s = Raise e s'.
Proof. intros H. by rewrite bind_run, H. Qed.

Section keeps.
Context (R : relation state) `{!Reflexive R} `{!Transitive R}.

Lemma keeps_ret {A} (a : A) : keeps R (ret a).
Proof. intros s. apply reflexivity. Qed.

Lemma keeps_raise {A} e : keeps R (raise (A := A) e).
Proof. intros s. apply reflexivity. Qed.

Lemma keeps_get : keeps R get.
Proof. intros s. apply reflexivity. Qed.

Lemma keeps_bind {A B} (m : M A) (f : A → M B) :
  keeps R m → (∀ a, keeps R (f a)) → keeps R (m ≫= f).
Proof.
  intros Hm Hf s. rewrite bind_run. specialize (Hm s).
  destruct (m s) as [a s'|e s']; [|done].
  cbn [final] in Hm. etrans; [done|]. apply Hf.
Qed.

Lemma keeps_try {A} (m h : M A) caught :
  keeps R m → keeps R h → keeps R (try_except m caught h).
Proof.
  intros Hm Hh s. unfold try_except. specialize (Hm s).
  destruct (m s) as [a s'|e s']; [done|].
  destruct (caught e); [|done]. cbn [final] in Hm. etrans; [done|]. apply Hh.
Qed.

Lemma keeps_for_each {A} (l : list A) (f : A → M unit) :
  (∀ a, keeps R (f a)) → keeps R (for_each l f).
Proof.
  intros Hf. induction l as [|x l IH]; cbn [for_each].
  - intros s. apply reflexivity.
  - apply keeps_bind; [done|]. by intros _.
Qed.
End keeps.

(** The pieces of the code are taken apart in the order of the code. *)
Ltac keeps_step :=
  first
    [ solve [apply keeps_ret; typeclasses eauto]
    | solve [apply keeps_raise; typeclasses eauto]
    | solve [apply keeps_get; typeclasses eauto]
    | apply keeps_bind; try typeclasses eauto; [|intros ?]
    | apply keeps_try; try typeclasses eauto
    | apply keeps_for_each; try typeclasses eauto; intros ?
    | match goal with
      | |- keeps _ (if ?b then _ else _) => destruct b
      | |- keeps _ (match ?x with _ => _ end) => destruct x
      end ].

(** *** What leaves the lists, the gate and the switches alone *)

Global Instance frame_refl : Reflexive frame.
Proof.
  intros s. unfold frame. split_and!; try done.
  exists []. by rewrite app_nil_r.
Qed.

Global Instance frame_trans : Transitive frame.
Proof.
  intros s1 s2 s3 (?&?&?&?&?&?&evs1&?&?) (?&?&?&?&?&?&evs2&?&?).
  unfold frame. split_and!; try congruence.
  exists (evs1 ++ evs2). split; [|by apply Forall_app].
  rewrite app_assoc. congruence.
Qed.

Lemma frame_disk_op f : keeps frame (disk_op f).
Proof.
  intros s. unfold disk_op. destruct (f (fs s)); cbn [final]; [|apply reflexivity].
  unfold frame. cbn. split_and!; try done. exists []. by rewrite app_nil_r.
Qed.

Lemma frame_get_event u : keeps frame (emit (EvGet u)).
Proof.
  intros s. unfold frame. cbn. split_and!; try done.
  exists [EvGet u]. split; [done|]. repeat constructor. by exists u.
Qed.

Lemma frame_set_extensions x : keeps frame (set_extensions x).
Proof.
  intros s. unfold frame. cbn. split_and!; try done. exists []. by rewrite app_nil_r.
Qed.

Lemma frame_set_loaded_plugins x : keeps frame (set_loaded_plugins x).
Proof.
  intros s. unfold frame. cbn. split_and!; try done. exists []. by rewrite app_nil_r.
Qed.

Ltac frame_steps :=
  repeat first
    [ apply frame_disk_op | apply frame_get_event | apply frame_set_extensions
    | apply frame_set_loaded_plugins | keeps_step ].

Lemma frame_extract_member p info : keeps frame (extract_member p info).
Proof. unfold extract_member. frame_steps. Qed.

Lemma frame_download_plugin env p force : keeps frame (download_plugin env p force).
Proof.
  unfold download_plugin, ZipFile. frame_steps; apply frame_extract_member.
Qed.

Lemma frame_load_extension env ext : keeps frame (load_extension env ext).
Proof. unfold load_extension. frame_steps. Qed.

Lemma frame_unload_extension ext : keeps frame (unload_extension ext).
Proof. unfold unload_extension. frame_steps. Qed.

Lemma frame_load_plugin env p : keeps frame (load_plugin env p).
Proof. unfold load_plugin. frame_steps; apply frame_load_extension. Qed.

(** ** While the gate is closed *)

Global Instance idle_refl : Reflexive idle.
Proof.
  intros s. unfold idle. split_and!; try done.
  exists []. by rewrite app_nil_r.
Qed.

Global Instance idle_trans : Transitive idle.
Proof.
  intros s1 s2 s3 (?&?&?&?&?&?&?&evs1&?&?) (?&?&?&?&?&?&?&evs2&?&?).
  unfold idle. split_and!; try congruence.
  exists (evs1 ++ evs2). split; [|by apply Forall_app].
  rewrite app_assoc. congruence.
Qed.

Lemma idle_still_loading s : idle s (final (send StillLoading s)).
Proof.
  unfold idle. cbn. split_and!; try done.
  exists [EvSend StillLoading]. split; [done|]. repeat constructor.
Qed.

Lemma parse_not_ready n cv s :
  ready s = false →
  parse_user_input n cv s = Ok None (final (send StillLoading s)).
Proof.
  intros H. unfold parse_user_input. rewrite bind_run. cbn [get].
  rewrite H. reflexivity.
Qed.

Lemma plugins_add_not_ready env n s :
  ready s = false → plugins_add env n s = Ok tt (final (send StillLoading s)).
Proof.
  intros H. unfold plugins_add. by rewrite (bind_ok _ _ _ _ _ (parse_not_ready _ _ _ H)).
Qed.

Lemma plugins_remove_not_ready n s :
  ready s = false → plugins_remove n s = Ok tt (final (send StillLoading s)).
Proof.
  intros H. unfold plugins_remove.
  by rewrite (bind_ok _ _ _ _ _ (parse_not_ready _ _ _ H)).
Qed.

Lemma update_plugin_not_ready env n s :
  ready s = false → update_plugin env n s = Ok tt (final (send StillLoading s)).
Proof.
  intros H. unfold update_plugin.
  by rewrite (bind_ok _ _ _ _ _ (parse_not_ready _ _ _ H)).
Qed.

Lemma update_all_not_ready env l s :
  ready s = false → idle s (final (for_each l (update_plugin env) s)).
Proof.
  revert s. induction l as [|n l IH]; intros s H; cbn [for_each].
  - apply reflexivity.
  - rewrite (bind_ok _ _ _ _ _ (update_plugin_not_ready env n s H)).
    etrans; [apply idle_still_loading|]. by apply IH.
Qed.

Lemma run_command_not_ready env c s :
  ready s = false → idle s (final (run_command env c s)).
Proof.
  intros H. destruct c as [n|n|[n|]]; cbn [run_command plugins_update].
  - rewrite plugins_add_not_ready by done. apply idle_still_loading.
  - rewrite plugins_remove_not_ready by done. apply idle_still_loading.
  - rewrite update_plugin_not_ready by done. apply idle_still_loading.
  - rewrite bind_run. cbn [get]. by apply update_all_not_ready.
Qed.

Lemma idle_populate_registry env : keeps idle (populate_registry env).
Proof.
  intros s. unfold populate_registry. rewrite bind_run. cbn [emit modify].
  destruct (registry_json env); cbn.
  all: unfold idle; cbn; split_and!; try done.
  all: eexists [EvGet _]; split; [done|]; repeat constructor; by right.
Qed.

Lemma step_not_ready s ea :
  ready s = false → idle s (step [PopulateRegistry] s ea).
Proof.
  intros H. unfold step. destruct (ea.2) as [t|c].
  - case_decide as Ht; [|apply reflexivity].
    apply list_elem_of_singleton in Ht as ->. apply idle_populate_registry.
  - by apply run_command_not_ready.
Qed.

Lemma steps_not_ready l s :
  ready s = false → idle s (foldl (step [PopulateRegistry]) s l).
Proof.
  revert s. induction l as [|ea l IH]; intros s H; cbn [foldl].
  - apply reflexivity.
  - pose proof (step_not_ready s ea H) as Hi. etrans; [done|].
    apply IH. destruct Hi as (_&_&_&_&_&_&->&_). done.
Qed.

(** C10. With [enable_plugins] off when the cog is created, the initial
    load is not scheduled and the gate never opens: whatever tasks and
    commands run afterwards, the lists, the disk and the loaded set stay as
    they were, and the only answer ever sent is that the plugins are still
    loading. *)
Theorem disabled_never_ready (s : state) (l : list (Env * action)) :
  enable_plugins s = false →
  (InitialLoad ∉ snd (Plugins_init s))
  ∧ ready (run s l) = false
  ∧ config_plugins (run s l) = config_plugins s
  ∧ stored_plugins (run s l) = stored_plugins s
  ∧ fs (run s l) = fs s
  ∧ loaded_plugins (run s l) = ∅
  ∧ ∀ r, EvSend r ∈ trace (run s l) → EvSend r ∈ trace s ∨ r = StillLoading.
Proof.
  intros Hoff. unfold run, Plugins_init. rewrite Hoff. cbn [snd].
  split.
  { intros [=]%list_elem_of_singleton. }
  match goal with |- context [foldl _ ?s0 l] => set (s0' := s0) end.
  destruct (steps_not_ready l s0' eq_refl) as (Hc&Hs&_&Hf&_&Hl&Hr&evs&Ht&Hevs).
  split_and!; [done..|].
  intros r. rewrite Ht. cbn [trace s0']. intros [?|Hin]%elem_of_app; [by left|].
  right. rewrite Forall_forall in Hevs. by destruct (Hevs _ Hin) as [[= ->]|].
Qed.

(** ** [add] *)

Global Instance lists_kept_refl : Reflexive lists_kept.
Proof. intros s. split_and!; try done. exists []. by rewrite app_nil_r. Qed.

Global Instance lists_kept_trans : Transitive lists_kept.
Proof.
  intros s1 s2 s3 (?&?&evs1&?) (?&?&evs2&?). split_and!; try congruence.
  exists (evs1 ++ evs2). rewrite app_assoc. congruence.
Qed.

Lemma keeps_weaken {A} (R R' : relation state) (m : M A) :
  (∀ s s', R s s' → R' s s') → keeps R m → keeps R' m.
Proof. intros HR Hm s. apply HR, Hm. Qed.

Lemma frame_lists_kept s s' : frame s s' → lists_kept s s'.
Proof. intros (?&?&_&_&_&_&evs&?&_). split_and!; try done. by exists evs. Qed.

Lemma lists_kept_emit e : keeps lists_kept (emit e).
Proof. intros s. split_and!; try done. by exists [e]. Qed.

Lemma lists_kept_send r : keeps lists_kept (send r).
Proof. apply lists_kept_emit. Qed.

(** What [parse_user_input] can do: give an identity and change nothing,
    answer and give none, or fail on a registry entry without a slash. *)
Lemma parse_user_input_cases n cv s :
  (∃ p, parse_user_input n cv s = Ok (Some p) s)
  ∨ (∃ r, parse_user_input n cv s = Ok None (final (send r s)))
  ∨ parse_user_input n cv s = Raise ValueError s.
Proof.
  unfold parse_user_input. rewrite bind_run. cbn [get].
  destruct (negb (ready s)); [right; left; by eexists|].
  destruct (registry s !! n) as [d|].
  - destruct (split_once "/" (repository d)) as [[u r]|]; [|by right; right].
    destruct (cv && _); [right; left; by eexists|left; by eexists].
  - destruct (from_string n false); [left; by eexists|right; left; by eexists].
Qed.

Lemma lists_kept_parse_user_input n cv : keeps lists_kept (parse_user_input n cv).
Proof.
  intros s. destruct (parse_user_input_cases n cv s) as [[p ->]|[[r ->]| ->]].
  - apply reflexivity.
  - apply lists_kept_send.
  - apply reflexivity.
Qed.

(** C1. [add] of an identity that is already in the list only answers that
    it is installed: the state, and so the install directory, is as before.
    In every [add] the list, in memory and in the store, either stays as it
    is, or the forced download and extraction succeeded first and the
    identity is then appended and stored; so when they fail the list is
    unchanged. *)
Theorem plugins_add_persist (env : Env) (n : string) (s : state) :
  let r := plugins_add env n s in
  (∀ p, parse_user_input n true s = Ok (Some p) s →
     str p ∈ config_plugins s →
     r = Ok tt (final (send AlreadyInstalled s)) ∧ fs (final r) = fs s)
  ∧ (∀ p e s1, parse_user_input n true s = Ok (Some p) s →
       download_plugin env p true (final (send Downloading s)) = Raise e s1 →
       config_plugins (final r) = config_plugins s
       ∧ stored_plugins (final r) = stored_plugins s)
  ∧ ((config_plugins (final r) = config_plugins s
      ∧ stored_plugins (final r) = stored_plugins s)
     ∨ ∃ p s1,
         parse_user_input n true s = Ok (Some p) s
         ∧ download_plugin env p true (final (send Downloading s)) = Ok tt s1
         ∧ config_plugins (final r) = config_plugins s ++ [str p]
         ∧ stored_plugins (final r) = config_plugins s ++ [str p]
         ∧ ∃ evs, trace (final r)
                  = trace s1 ++ EvConfigUpdate (config_plugins s ++ [str p]) :: evs).
Proof.
  intros r.
  assert ((config_plugins (final r) = config_plugins s
      ∧ stored_plugins (final r) = stored_plugins s)
     ∨ ∃ p s1,
         parse_user_input n true s = Ok (Some p) s
         ∧ download_plugin env p true (final (send Downloading s)) = Ok tt s1
         ∧ config_plugins (final r) = config_plugins s ++ [str p]
         ∧ stored_plugins (final r) = config_plugins s ++ [str p]
         ∧ ∃ evs, trace (final r)
                  = trace s1 ++ EvConfigUpdate (config_plugins s ++ [str p]) :: evs)
    as Hmain.
  { subst r. unfold plugins_add. rewrite bind_run.
    pose proof (lists_kept_parse_user_input n true s) as Hp.
    destruct (parse_user_input_cases n true s) as [[p Hs]|[[r' Hn]|Hv]].
    2:{ rewrite Hn in *. left. by destruct Hp as (?&?&_). }
    2:{ rewrite Hv in *. by left. }
    rewrite Hs. rewrite bind_run. cbn [get].
    case_decide; [by left|]. case_decide; [by left|].
    rewrite bind_run. change (send Downloading s) with (Ok tt (final (send Downloading s))).
    cbv beta iota. set (sd := final (send Downloading s)).
    pose proof (frame_download_plugin env p true sd) as Hd.
    destruct (download_plugin env p true sd) as [[] s1|e s1] eqn:Hdl; cbn [final] in Hd.
    - assert (try_except (A := bool) (download_plugin env p true ≫= λ _, ret true)
                (λ _, true) (send DownloadFailed ≫= λ _, ret false) sd
              = Ok true s1) as Htry.
      { unfold try_except. by rewrite (bind_ok _ _ _ _ _ Hdl). }
      rewrite (bind_ok _ _ _ _ _ Htry). cbn [negb].
      right. exists p, s1. split; [done|]. split; [done|].
      destruct Hd as (Hc&Hst&_&_&_&_&_). cbn [sd send emit modify final config_plugins] in Hc.
      unfold config_update. repeat mstep. rewrite Hc.
      match goal with |- context [final (?m ?s2)] =>
        assert (lists_kept s2 (final (m s2))) as (H1&H2&evs&H3) end.
      { destruct (enable_plugins s1).
        - apply keeps_bind; [typeclasses eauto| |intros ?; apply lists_kept_send].
          apply keeps_try; try typeclasses eauto.
          + apply keeps_bind; [typeclasses eauto| |intros ?; by apply keeps_ret; typeclasses eauto].
            eapply keeps_weaken; [apply frame_lists_kept|apply frame_load_plugin].
          + apply keeps_ret; typeclasses eauto.
        - apply lists_kept_send. }
      cbn [config_plugins stored_plugins trace] in H1, H2, H3.
      split_and!; [done|done|]. exists evs. by rewrite H3, <- app_assoc.
    - assert (try_except (A := bool) (download_plugin env p true ≫= λ _, ret true)
                (λ _, true) (send DownloadFailed ≫= λ _, ret false) sd
              = Ok false (final (send DownloadFailed s1))) as Htry.
      { unfold try_except. by rewrite (bind_raise _ _ _ _ _ Hdl). }
      rewrite (bind_ok _ _ _ _ _ Htry). cbn [negb].
      left. cbn. destruct Hd as (Hc&Hst&_). by rewrite Hc, Hst. }
  split_and!; [| |done].
  - intros p Hs Hin. subst r. unfold plugins_add. rewrite bind_run, Hs, bind_run.
    cbn [get]. by rewrite decide_True.
  - intros p e s1 Hs Hdl. destruct Hmain as [?|(p'&s1'&Hs'&Hdl'&_)]; [done|].
    rewrite Hs in Hs'. injection Hs' as <-. by rewrite Hdl in Hdl'.
Qed.

(** ** The initial load *)

Global Instance frame_but_list_refl : Reflexive frame_but_list.
Proof. intros s. split_and!; try done. exists []. by rewrite app_nil_r. Qed.

Global Instance frame_but_list_trans : Transitive frame_but_list.
Proof.
  intros s1 s2 s3 (?&?&evs1&?&?) (?&?&evs2&?&?). split_and!; try congruence.
  exists (evs1 ++ evs2). split; [|by apply Forall_app].
  rewrite app_assoc. congruence.
Qed.

Lemma frame_frame_but_list s s' : frame s s' → frame_but_list s s'.
Proof.
  intros (_&?&_&_&_&?&evs&?&Hevs). split_and!; try done. exists evs.
  split; [done|]. eapply Forall_impl; [done|]. by intros e [u ->].
Qed.

Lemma frame_but_list_set_config l s :
  frame_but_list s (final (set_config_plugins l s)).
Proof. split_and!; try done. exists []. by rewrite app_nil_r. Qed.

(** Downloading and loading inside [try: ... except Exception: continue]. *)
Lemma try_download_load env p s :
  ∃ s', try_except (download_plugin env p false ≫= λ _, load_plugin env p)
          (λ _, true) (ret tt) s = Ok tt s'
        ∧ frame s s'.
Proof.
  assert (keeps frame (download_plugin env p false ≫= λ _, load_plugin env p)) as Hk.
  { apply keeps_bind; [typeclasses eauto|apply frame_download_plugin|].
    intros _. apply frame_load_plugin. }
  specialize (Hk s). unfold try_except.
  destruct ((download_plugin env p false ≫= λ _, load_plugin env p) s) as [[] s'|e s'];
    by exists s'.
Qed.

Lemma initial_load_one_spec env nm s :
  match migrate nm (config_plugins s) with
  | Some l' =>
      ∃ s', initial_load_one env nm s = Ok tt s'
            ∧ config_plugins s' = l' ∧ frame_but_list s s'
  | None => initial_load_one env nm s = Raise ValueError s
  end.
Proof.
  unfold migrate, initial_load_one.
  destruct (from_string nm true) as [p|].
  - mstep. destruct (try_download_load env p s) as (s' & -> & Hf).
    exists s'. split_and!; [done|apply Hf|by apply frame_frame_but_list].
  - repeat mstep. destruct (list_remove nm (config_plugins s)) as [l|]; [|done].
    repeat mstep. destruct (from_string nm false) as [p|].
    + repeat mstep.
      match goal with |- context [try_except _ _ _ ?s2] =>
        destruct (try_download_load env p s2) as (s' & -> & Hf) end.
      exists s'. split; [done|]. split; [apply Hf|].
      apply frame_frame_but_list in Hf. destruct Hf as (?&?&?).
      by split_and!.
    + repeat mstep. eexists. split; [done|]. cbn. rewrite app_nil_r.
      split; [done|]. apply (frame_but_list_set_config l s).
Qed.

Lemma initial_load_loop_spec env names s :
  match migrate_all names (config_plugins s) with
  | Some l' =>
      ∃ s', for_each names (initial_load_one env) s = Ok tt s'
            ∧ config_plugins s' = l' ∧ frame_but_list s s'
  | None => ∃ s', for_each names (initial_load_one env) s = Raise ValueError s'
  end.
Proof.
  revert s. induction names as [|nm names IH]; intros s; cbn [migrate_all for_each].
  - exists s. by split_and!.
  - pose proof (initial_load_one_spec env nm s) as H1.
    destruct (migrate nm (config_plugins s)) as [l1|].
    + destruct H1 as (s1 & E1 & <- & F1). rewrite (bind_ok _ _ _ _ _ E1).
      specialize (IH s1). destruct (migrate_all names (config_plugins s1)).
      * destruct IH as (s' & ? & ? & ?). exists s'. split_and!; [done..|]. by etrans.
      * done.
    + exists s. by rewrite (bind_raise _ _ _ _ _ H1).
Qed.

(** *** The list after the loop *)

Abbreviation occ x l := (count_occ Stdlib.Strings.String.string_dec l x).

Lemma list_remove_occ x l :
  0 < occ x l →
  ∃ l', list_remove x l = Some l'
        ∧ occ x l = S (occ x l') ∧ ∀ y, y ≠ x → occ y l' = occ y l.
Proof.
  induction l as [|z l IH]; cbn [list_remove]; [cbn; lia|].
  intros Hpos. case_decide as Hxz.
  - subst z. exists l. split; [done|]. split.
    + by rewrite count_occ_cons_eq.
    + intros y Hy. by rewrite count_occ_cons_neq.
  - rewrite count_occ_cons_neq in Hpos by done.
    destruct (IH Hpos) as (l' & -> & H1 & H2). exists (z :: l'). split; [done|].
    split.
    + by rewrite !count_occ_cons_neq.
    + intros y Hy. destruct (decide (z = y)) as [->|].
      * rewrite !count_occ_cons_eq by done. by rewrite H2.
      * rewrite !count_occ_cons_neq by done. by apply H2.
Qed.

Lemma occ_elem_of x (l : list string) : x ∈ l ↔ 0 < occ x l.
Proof. rewrite list_elem_of_In. apply count_occ_In. Qed.

(** What the lenient parse returns is written back in a form that the
    strict parse accepts. *)
Lemma re_strict_complete u r n b :
  u ≠ "" → contains newline u = false →
  r ≠ "" → contains newline r = false →
  n ≠ "" → contains newline n = false →
  b ≠ "" → contains newline b = false →
  is_Some (re_strict (ref4 u r n b)).
Proof.
  intros. unfold re_strict, ref4, ref3. rewrite !str_app_assoc.
  apply lazy_plus_complete; [done..|]. cbv beta.
  rewrite str_app_cons, !str_app_nil_l, lit_same.
  apply lazy_plus_complete; [done..|]. cbv beta.
  rewrite str_app_cons, !str_app_nil_l, lit_same.
  apply lazy_plus_complete; [done..|]. cbv beta.
  rewrite str_app_cons, !str_app_nil_l, lit_same.
  rewrite <- (str_app_nil_r b).
  apply lazy_plus_complete; [done|done|]. cbn [at_end]. by eexists.
Qed.

Lemma str_ref4 p : str p = ref4 (user p) (repo p) (name p) (branch p).
Proof. unfold str, ref4, ref3. by rewrite !str_app_assoc. Qed.

Lemma re_lenient_fields s u r n b :
  re_lenient s = Some (u, r, n, b) →
  u ≠ "" ∧ contains newline u = false
  ∧ r ≠ "" ∧ contains newline r = false
  ∧ n ≠ "" ∧ contains newline n = false
  ∧ match b with
    | Some b => b ≠ "" ∧ contains newline b = false
    | None => True
    end.
Proof.
  unfold re_lenient. intros H.
  apply lazy_plus_inv_line in H as (q1 & t1 & Hq1 & Hn1 & -> & H).
  apply lit_inv in H as (t2 & -> & H).
  apply lazy_plus_inv_line in H as (q2 & t3 & Hq2 & Hn2 & -> & H).
  apply lit_inv in H as (t4 & -> & H).
  apply lazy_plus_inv_line in H as (q3 & t5 & Hq3 & Hn3 & -> & H).
  rewrite !str_app_nil_l in H.
  destruct (lit "@" _ t5) as [m|] eqn:E.
  - injection H as ->. apply lit_inv in E as (t6 & -> & H).
    apply lazy_plus_inv_line in H as (q4 & t7 & Hq4 & Hn4 & -> & H).
    rewrite str_app_nil_l in H. destruct (at_end t7); [|done].
    injection H as <- <- <- <-. by split_and!.
  - destruct (at_end t5); [|done]. injection H as <- <- <- <-. by split_and!.
Qed.

Lemma from_string_normal nm p :
  from_string nm false = Some p → is_Some (from_string (str p) true).
Proof.
  unfold from_string. cbn [negb].
  destruct (re_lenient nm) as [[[[u r] n] b]|] eqn:E; [|done].
  intros [= <-]. apply re_lenient_fields in E as (?&?&?&?&?&?&Hb).
  rewrite str_ref4. unfold Plugin_init. cbn [user repo name branch].
  assert (is_Some (re_strict (ref4 u r n (default "master" b)))) as [m ->].
  { apply re_strict_complete; try done; destruct b as [b|]; cbn [default];
      by (done || destruct Hb). }
  by destruct m as [[[??]?]?].
Qed.

(** Every pass of the loop finds the entry it removes, and after the loop
    only entries in normal form are left: those that were, and the normal
    forms of the others. *)
Lemma migrate_all_spec names l :
  (∀ x, from_string x true = None → occ x l = occ x names) →
  ∃ l', migrate_all names l = Some l'
        ∧ (∀ x, from_string x true = None → occ x l' = 0)
        ∧ (∀ y, is_Some (from_string y true) → y ∈ l → y ∈ l')
        ∧ (∀ nm p, nm ∈ names → from_string nm true = None →
             from_string nm false = Some p → str p ∈ l').
Proof.
  revert l. induction names as [|nm names IH]; intros l HE; cbn [migrate_all].
  - exists l. split_and!; [done|done|done|]. by intros ?? ?%elem_of_nil.
  - unfold migrate. destruct (from_string nm true) as [p0|] eqn:Hs.
    + destruct (IH l) as (l' & -> & H1 & H2 & H3).
      { intros x Hx. rewrite HE by done. rewrite count_occ_cons_neq; [done|].
        intros ->. by rewrite Hs in Hx. }
      exists l'. split_and!; [done..|].
      intros nm' p [->|?]%elem_of_cons Hn Hl; [by rewrite Hs in Hn|eauto].
    + destruct (list_remove_occ nm l) as (l1 & -> & Hocc & Hoth).
      { rewrite HE by done. rewrite count_occ_cons_eq by done. lia. }
      set (extra := match from_string nm false with Some p => [str p] | None => [] end).
      assert (∀ x, from_string x true = None → occ x extra = 0) as Hextra.
      { intros x Hx. subst extra. destruct (from_string nm false) as [p|] eqn:Hl; [|done].
        rewrite count_occ_cons_neq; [done|]. intros <-.
        apply from_string_normal in Hl as [? Hl]. by rewrite Hl in Hx. }
      destruct (IH (l1 ++ extra)) as (l' & -> & H1 & H2 & H3).
      { intros x Hx. rewrite count_occ_app, Hextra by done.
        destruct (decide (x = nm)) as [->|Hne].
        - rewrite HE, count_occ_cons_eq in Hocc by done. lia.
        - rewrite Hoth, HE by done. by rewrite count_occ_cons_neq. }
      exists l'. split_and!; [done|done| |].
      * intros y Hy Hin. apply H2; [done|]. apply elem_of_app. left.
        apply occ_elem_of. rewrite Hoth; [by apply occ_elem_of|].
        intros ->. rewrite Hs in Hy. by destruct Hy.
      * intros nm' p [->|?]%elem_of_cons Hn Hl; [|eauto].
        apply H2; [by eapply from_string_normal|].
        apply elem_of_app. right. subst extra. rewrite Hl. by apply list_elem_of_here.
Qed.

(** C3, as the code has it. The initial load always runs to its end. An
    entry without a branch is replaced in the cached list by its normal
    form, so that only entries with a branch are left; then the gate is
    opened, and only after that is the rewritten list stored, once. *)
Theorem initial_load_plugins_order (env : Env) (s : state) :
  ∃ s' evs,
    initial_load_plugins env s = Ok tt s'
    ∧ ready s' = true
    ∧ stored_plugins s' = config_plugins s'
    ∧ trace s' = trace s ++ evs ++ [EvReady; EvConfigUpdate (config_plugins s')]
    ∧ Forall (λ e, is_get e = true) evs
    ∧ (∀ x, x ∈ config_plugins s' → is_Some (from_string x true))
    ∧ (∀ o r n, valid_field o = true → valid_field r = true →
         valid_field n = true → ref3 o r n ∈ config_plugins s →
         ref4 o r n "master" ∈ config_plugins s').
Proof.
  unfold initial_load_plugins. rewrite bind_run. cbn [get]. cbv beta.
  pose proof (initial_load_loop_spec env (config_plugins s) s) as Hloop.
  destruct (migrate_all_spec (config_plugins s) (config_plugins s))
    as (l' & Hm & Hnone & Hkeep & Hnew); [done|].
  rewrite Hm in Hloop. destruct Hloop as (s1 & Hl & <- & Hst & Hr & evs & Ht & Hevs).
  rewrite (bind_ok _ _ _ _ _ Hl). unfold config_update. repeat mstep.
  eexists _, evs. split; [done|]. cbn.
  split_and!; [done|done|by rewrite Ht, <- !app_assoc|done| |].
  - intros x Hx. destruct (from_string x true) eqn:E; [done|].
    apply occ_elem_of in Hx. rewrite Hnone in Hx by done. lia.
  - intros o r n Ho Hr' Hn Hin.
    destruct (from_string_ref3 o r n Ho Hr' Hn) as (Hlen & Hstr).
    by apply (Hnew _ _ Hin Hstr) in Hlen; rewrite str_ref4 in Hlen.
Qed.

(** ** The disk *)

Global Instance kind_le_refl : Reflexive kind_le.
Proof. intros d q. by destruct (d !! q) as [[]|]; eauto. Qed.

Global Instance kind_le_trans : Transitive kind_le.
Proof.
  intros d1 d2 d3 H12 H23 q. specialize (H12 q). specialize (H23 q).
  destruct (d1 !! q) as [[|c]|]; [| |done].
  - by rewrite H12 in H23.
  - destruct H12 as [c' H12]. by rewrite H12 in H23.
Qed.

Global Instance within_refl T : Reflexive (within T).
Proof. by intros d q. Qed.

Global Instance within_trans T : Transitive (within T).
Proof.
  intros d1 d2 d3 H12 H23 q Hq.
  destruct (decide (d2 !! q = d1 !! q)) as [E|]; [|by apply H12].
  apply H23. by rewrite E.
Qed.

Lemma within_mono T T' d d' : T ⊆ T' → within T d d' → within T' d d'.
Proof. intros HT H q Hq. destruct (H q Hq) as (t & ? & ?). exists t. split; [by apply HT|done]. Qed.

Lemma kind_le_exists d d' q : kind_le d d' → is_Some (d !! q) → is_Some (d' !! q).
Proof.
  intros H [x Hx]. specialize (H q). rewrite Hx in H.
  destruct x as [|c0]; [by rewrite H|]. destruct H as [c1 ->]. done.
Qed.

Lemma mkdir_parents_changes d done todo d' :
  mkdir_parents d done todo = Some d' →
  ∀ q, d' !! q = d !! q
       ∨ (d !! q = None ∧ d' !! q = Some Dir ∧ q `prefix_of` done ++ todo).
Proof.
  revert d done. induction todo as [|x todo IH]; intros d dn; cbn [mkdir_parents].
  - intros [= ->] q. by left.
  - intros H q. rewrite cons_middle, app_assoc.
    destruct (d !! (dn ++ [x])) as [[|c]|] eqn:E; [|done|].
    + by apply IH.
    + destruct (IH _ _ H q) as [Hq|(Hq1 & Hq2 & Hq3)].
      * destruct (decide (q = dn ++ [x])) as [->|Hne].
        -- right. rewrite Hq, lookup_insert_eq. split_and!; [done|done|].
           by apply prefix_app_r.
        -- left. by rewrite Hq, lookup_insert_ne.
      * right. split_and!; [|done|done].
        destruct (decide (q = dn ++ [x])) as [->|Hne]; [done|].
        by rewrite lookup_insert_ne in Hq1.
Qed.

Lemma mkdir_changes d p ok d' :
  mkdir d p ok = Some d' →
  ∀ q, d' !! q = d !! q
       ∨ (d !! q = None ∧ d' !! q = Some Dir ∧ q `prefix_of` p).
Proof.
  unfold mkdir. destruct (d !! p) as [[|c]|]; [|done|].
  - destruct ok; [|done]. intros [= ->] q. by left.
  - intros H q. by apply (mkdir_parents_changes _ _ _ _ H).
Qed.

Lemma mkdir_parents_made d done todo d' :
  mkdir_parents d done todo = Some d' → todo ≠ [] →
  d' !! (done ++ todo) = Some Dir.
Proof.
  revert d done. induction todo as [|x todo IH]; intros d dn; [done|].
  cbn [mkdir_parents]. intros H _. rewrite cons_middle, app_assoc.
  destruct todo as [|y todo].
  - rewrite app_nil_r.
    destruct (d !! (dn ++ [x])) as [[|c]|] eqn:E; [| done |];
      cbn [mkdir_parents] in H; injection H as <-; [done|].
    by rewrite lookup_insert_eq.
  - destruct (d !! (dn ++ [x])) as [[|c]|] eqn:E; [|done|]; by apply IH in H.
Qed.

Lemma mkdir_made d p ok d' :
  mkdir d p ok = Some d' → p ≠ [] → d' !! p = Some Dir.
Proof.
  unfold mkdir. destruct (d !! p) as [[|c]|] eqn:E; [|done|].
  - destruct ok; [|done]. by intros [= <-].
  - intros H Hp. by apply (mkdir_parents_made _ [] _ _ H).
Qed.

Lemma write_file_changes d p c d' :
  write_file d p c = Some d' →
  d' !! p = Some (File c)
  ∧ (d !! p = None ∨ ∃ c0, d !! p = Some (File c0))
  ∧ ∀ q, q ≠ p → d' !! q = d !! q.
Proof.
  unfold write_file. destruct (d !! parent p) as [[|?]|]; [|done..].
  destruct (d !! p) as [[|c0]|] eqn:E; [done| |]; intros [= <-].
  - split_and!; [by rewrite lookup_insert_eq|eauto|].
    intros q Hq. by rewrite lookup_insert_ne.
  - split_and!; [by rewrite lookup_insert_eq|eauto|].
    intros q Hq. by rewrite lookup_insert_ne.
Qed.

Lemma mkdir_kind_le d p ok d' : mkdir d p ok = Some d' → kind_le d d'.
Proof.
  intros H q. destruct (mkdir_changes _ _ _ _ H q) as [E|(E & _)].
  - rewrite E. by destruct (d !! q) as [[]|]; eauto.
  - by rewrite E.
Qed.

Lemma mkdir_within d p ok d' t :
  mkdir d p ok = Some d' → p `prefix_of` t → within [t] d d'.
Proof.
  intros H Hp q Hq. destruct (mkdir_changes _ _ _ _ H q) as [?|(_ & _ & ?)]; [done|].
  exists t. split; [by apply list_elem_of_here|]. by etrans.
Qed.

Lemma write_file_kind_le d p c d' : write_file d p c = Some d' → kind_le d d'.
Proof.
  intros (H1 & H2 & H3)%write_file_changes q.
  destruct (decide (q = p)) as [->|Hne].
  - destruct H2 as [->|[c0 ->]]; [done|]. eauto.
  - rewrite <- (H3 q Hne). by destruct (d' !! q) as [[]|]; eauto.
Qed.

Lemma write_file_within d p c d' : write_file d p c = Some d' → within [p] d d'.
Proof.
  intros (H1 & H2 & H3)%write_file_changes q Hq.
  destruct (decide (q = p)) as [->|Hne]; [|by destruct Hq; apply H3].
  exists p. split; [by apply list_elem_of_here|done].
Qed.

Lemma parent_prefix (p : path) : parent p `prefix_of` p.
Proof.
  unfold parent. destruct p as [|x [|y p]].
  - done.
  - destruct (has_root [x]); [done|]. apply prefix_nil.
  - destruct (exists_last (l := x :: y :: p)) as (l & z & ->); [done|].
    rewrite removelast_last. by apply prefix_app_r.
Qed.

Global Instance disk_only_refl T : Reflexive (disk_only T).
Proof. intros s. unfold disk_only. split_and!; done. Qed.

Global Instance disk_only_trans T : Transitive (disk_only T).
Proof.
  intros s1 s2 s3 (?&?&?&?&?&?&?&?&?&?&?) (?&?&?&?&?&?&?&?&?&?&?).
  unfold disk_only. split_and!; try congruence; by etrans.
Qed.

Lemma disk_only_mono T T' s s' : T ⊆ T' → disk_only T s s' → disk_only T' s s'.
Proof.
  intros HT (?&?&?&?&?&?&?&?&?&?&?). unfold disk_only.
  split_and!; try done. by eapply within_mono.
Qed.

Lemma disk_only_op T f :
  (∀ d d', f d = Some d' → kind_le d d' ∧ within T d d') →
  keeps (disk_only T) (disk_op f).
Proof.
  intros Hf s. unfold disk_op. destruct (f (fs s)) as [d'|] eqn:E; cbn [final].
  - destruct (Hf _ _ E). unfold disk_only. cbn. by split_and!.
  - apply reflexivity.
Qed.

Lemma keeps_for_each_in {A} (R : relation state) `{!Reflexive R} `{!Transitive R}
    (l : list A) (f : A → M unit) :
  (∀ a, a ∈ l → keeps R (f a)) → keeps R (for_each l f).
Proof.
  induction l as [|x l IH]; intros Hf; cbn [for_each].
  - intros s. apply reflexivity.
  - apply keeps_bind; [done|apply Hf, list_elem_of_here|].
    intros _. apply IH. intros a Ha. by apply Hf, list_elem_of_further.
Qed.

Lemma disk_only_extract_member p info :
  keeps (disk_only (if selected p info then [target p info] else []))
    (extract_member p info).
Proof.
  unfold extract_member. destruct (selected p info); [|apply keeps_ret; typeclasses eauto].
  destruct (is_dir info).
  - apply disk_only_op. intros d d' H. split; [by eapply mkdir_kind_le|].
    by eapply mkdir_within.
  - apply keeps_bind; [typeclasses eauto| |intros _].
    + apply disk_only_op. intros d d' H. split; [by eapply mkdir_kind_le|].
      eapply mkdir_within; [done|]. apply parent_prefix.
    + apply disk_only_op. intros d d' H. split; [by eapply write_file_kind_le|].
      by eapply write_file_within.
Qed.

Lemma disk_only_extract p zipf :
  keeps (disk_only (targets p zipf)) (for_each zipf (extract_member p)).
Proof.
  apply keeps_for_each_in; try typeclasses eauto. intros info Hin.
  eapply keeps_weaken; [|apply disk_only_extract_member].
  intros s s'. apply disk_only_mono.
  destruct (selected p info) eqn:E; [|by intros ? ?%elem_of_nil].
  intros t ->%list_elem_of_singleton. unfold targets.
  apply list_elem_of_fmap. exists info. split; [done|].
  by apply list_elem_of_filter.
Qed.

Lemma bind_ok_inv {A B} (m : M A) (f : A → M B) s b s' :
  (m ≫= f) s = Ok b s' → ∃ a s1, m s = Ok a s1 ∧ f a s1 = Ok b s'.
Proof. rewrite bind_run. destruct (m s) as [a s1|]; [|done]. eauto. Qed.

Lemma disk_op_inv f s s' :
  disk_op f s = Ok tt s' → f (fs s) = Some (fs s') ∧ trace s' = trace s.
Proof. unfold disk_op. destruct (f (fs s)); [|done]. by intros [= <-]. Qed.

Lemma target_nonempty p info : selected p info = true → target p info ≠ [].
Proof.
  unfold selected, target. intros [Hlen _]%andb_true_iff.
  apply bool_decide_eq_true in Hlen.
  destruct (parts (filename info)) as [|a [|b [|c l]]]; cbn in Hlen; try lia.
  cbn [drop]. by intros [_ ?]%app_eq_nil.
Qed.

Lemma extracted_kind_le info d d' q :
  kind_le d d' → extracted info (d !! q) → extracted info (d' !! q).
Proof.
  intros H. specialize (H q). unfold extracted.
  destruct (is_dir info).
  - intros E. by rewrite E in H.
  - intros [c E]. by rewrite E in H.
Qed.

Lemma extract_member_target p info s s' :
  extract_member p info s = Ok tt s' → selected p info = true →
  extracted info (fs s' !! target p info).
Proof.
  unfold extract_member, extracted. intros H Hsel. rewrite Hsel in H.
  pose proof (target_nonempty p info Hsel) as Hne.
  destruct (is_dir info).
  - apply disk_op_inv in H as [H _]. by apply mkdir_made in H.
  - apply bind_ok_inv in H as ([] & s1 & _ & H).
    apply disk_op_inv in H as [H _].
    apply write_file_changes in H as (H & _). eauto.
Qed.

Lemma extract_targets p zipf s s' :
  for_each zipf (extract_member p) s = Ok tt s' →
  ∀ info, info ∈ zipf → selected p info = true →
          extracted info (fs s' !! target p info).
Proof.
  revert s. induction zipf as [|x zipf IH]; intros s H info Hin Hsel.
  - by apply elem_of_nil in Hin.
  - cbn [for_each] in H. apply bind_ok_inv in H as ([] & s1 & H1 & H2).
    apply elem_of_cons in Hin as [->|Hin]; [|by eapply IH].
    pose proof (disk_only_extract p zipf s1) as Hd. rewrite H2 in Hd.
    destruct Hd as (_&_&_&_&_&_&_&_&_&Hk&_).
    eapply extracted_kind_le; [done|]. by eapply extract_member_target.
Qed.




(** ** Downloads *)

Lemma path_exists_true (d : disk) q : is_Some (d !! q) → path_exists d q = true.
Proof. intros. by apply bool_decide_eq_true. Qed.

Lemma path_exists_false (d : disk) q : d !! q = None → path_exists d q = false.
Proof. intros H. apply bool_decide_eq_false. rewrite H. by intros []. Qed.

Lemma disk_only_trace T s s' : disk_only T s s' → trace s' = trace s.
Proof. by intros (_&_&_&_&_&_&_&_&?&_). Qed.

Lemma disk_only_kind_le T s s' : disk_only T s s' → kind_le (fs s) (fs s').
Proof. by intros (_&_&_&_&_&_&_&_&_&?&_). Qed.

(** With the artifact in the cache, an unforced download does not touch
    the network. *)
Lemma download_plugin_cached env p s :
  is_Some (fs s !! cache_path p) →
  trace (final (download_plugin env p false s)) = trace s.
Proof.
  intros Hc. unfold download_plugin. rewrite bind_run. cbn [get negb].
  rewrite andb_true_r. destruct (path_exists (fs s) (abs_path p)); [done|].
  rewrite bind_run.
  destruct (disk_op (λ d, mkdir d (abs_path p) true) s) as [[] sa|e sa] eqn:Ea.
  2:{ unfold disk_op in Ea. by destruct (mkdir _ _ _); simplify_eq. }
  apply disk_op_inv in Ea as [Ea Eta].
  rewrite bind_run. cbn [get]. rewrite andb_true_r.
  rewrite path_exists_true
    by (eapply kind_le_exists; [by eapply mkdir_kind_le|done]).
  rewrite bind_run. destruct (read_file (fs sa) (cache_path p)) as [c|]; [|done].
  cbn [ret mret M_ret]. rewrite bind_run. destruct c as [b|z]; [done|].
  cbn [ZipFile ret mret M_ret].
  rewrite (disk_only_trace _ _ _ (disk_only_extract p z sa)). done.
Qed.

(** Without the artifact and without the install directory, an unforced
    download that goes through has fetched the archive once and left it in
    the cache. *)
Lemma download_plugin_fresh env p s s1 :
  fs s !! abs_path p = None → fs s !! cache_path p = None →
  download_plugin env p false s = Ok tt s1 →
  trace s1 = trace s ++ [EvGet (url p)] ∧ is_Some (fs s1 !! cache_path p).
Proof.
  intros Ha Hc. unfold download_plugin. rewrite bind_run. cbn [get negb].
  rewrite andb_true_r, path_exists_false by done.
  intros ([] & sa & Ea & H)%bind_ok_inv.
  apply disk_op_inv in Ea as [Ea Eta].
  rewrite bind_run in H. cbn [get] in H. rewrite andb_true_r in H.
  apply bind_ok_inv in H as (c & sb & Hio & H).
  destruct (path_exists (fs sa) (cache_path p)) eqn:Ec.
  { apply bool_decide_eq_true in Ec.
    destruct (mkdir_changes _ _ _ _ Ea (cache_path p)) as [E|(_ & E & _)].
    - rewrite E, Hc in Ec. by destruct Ec.
    - unfold read_file in Hio. by rewrite E in Hio. }
  rewrite bind_run in Hio. cbn [emit modify] in Hio.
  destruct (http_get env (url p)) as [raw|]; [|done].
  apply bind_ok_inv in Hio as ([] & sc & Hmk & Hio).
  apply bind_ok_inv in Hio as ([] & sd & Hwr & Hio).
  injection Hio as -> ->.
  assert (trace sc = trace s ++ [EvGet (url p)]) as Htc.
  { destruct (negb _).
    - apply disk_op_inv in Hmk as [_ ->]. cbn. by rewrite Eta.
    - injection Hmk as <-. cbn. by rewrite Eta. }
  apply disk_op_inv in Hwr as [Hwr Etb].
  apply write_file_changes in Hwr as (Hwr & _).
  apply bind_ok_inv in H as (z & se & Hz & H).
  destruct c as [b|z0]; [done|]. injection Hz as -> ->.
  pose proof (disk_only_extract p z se) as Hd. rewrite H in Hd. cbn [final] in Hd.
  split.
  - rewrite (disk_only_trace _ _ _ Hd). congruence.
  - eapply kind_le_exists; [by eapply disk_only_kind_le|]. by rewrite Hwr.
Qed.

Lemma downloads_app tr tr' : downloads (tr ++ tr') = downloads tr + downloads tr'.
Proof. unfold downloads. by rewrite filter_app, length_app. Qed.

(** With the artifact in the cache and no install directory, an unforced
    download is the extraction of what the cache file holds. *)
Lemma download_plugin_from_cache env p s c :
  fs s !! cache_path p = Some (File c) →
  download_plugin env p false s
  = if path_exists (fs s) (abs_path p) then Ok tt s
    else (_ ← disk_op (λ d, mkdir d (abs_path p) true);
          zipf ← ZipFile c;
          for_each zipf (extract_member p)) s.
Proof.
  intros Hc. unfold download_plugin. rewrite bind_run. cbn [get negb].
  rewrite andb_true_r. destruct (path_exists (fs s) (abs_path p)); [done|].
  rewrite !bind_run.
  destruct (disk_op (λ d, mkdir d (abs_path p) true) s) as [[] sa|e sa] eqn:Ea;
    [|done].
  apply disk_op_inv in Ea as [Ea _].
  assert (fs sa !! cache_path p = Some (File c)) as Hc'.
  { destruct (mkdir_changes _ _ _ _ Ea (cache_path p)) as [E|(E & _)];
      congruence. }
  rewrite bind_run. cbn [get]. rewrite andb_true_r.
  rewrite path_exists_true by (by rewrite Hc').
  unfold read_file. rewrite Hc'. by rewrite !bind_run.
Qed.

(** What the first download of an archive leaves in the cache. *)
Lemma download_plugin_fresh_cache env p s s1 :
  fs s !! abs_path p = None → fs s !! cache_path p = None →
  download_plugin env p false s = Ok tt s1 →
  ∃ z c, http_get env (url p) = Some (ZipBytes z)
         ∧ fs s1 !! cache_path p = Some (File c)
         ∧ ((∀ info, info ∈ z → selected p info = true →
               ¬ cache_path p `prefix_of` target p info) →
            c = ZipBytes z).
Proof.
  intros Ha Hc. unfold download_plugin. rewrite bind_run. cbn [get negb].
  rewrite andb_true_r, path_exists_false by done.
  intros ([] & sa & Ea & H)%bind_ok_inv.
  apply disk_op_inv in Ea as [Ea Eta].
  rewrite bind_run in H. cbn [get] in H. rewrite andb_true_r in H.
  apply bind_ok_inv in H as (c & sb & Hio & H).
  destruct (path_exists (fs sa) (cache_path p)) eqn:Ec.
  { apply bool_decide_eq_true in Ec.
    destruct (mkdir_changes _ _ _ _ Ea (cache_path p)) as [E|(_ & E & _)].
    - rewrite E, Hc in Ec. by destruct Ec.
    - unfold read_file in Hio. by rewrite E in Hio. }
  rewrite bind_run in Hio. cbn [emit modify] in Hio.
  destruct (http_get env (url p)) as [raw|]; [|done].
  apply bind_ok_inv in Hio as ([] & sc & Hmk & Hio).
  apply bind_ok_inv in Hio as ([] & sd & Hwr & Hio).
  injection Hio as -> ->.
  apply disk_op_inv in Hwr as [Hwr Etb].
  apply write_file_changes in Hwr as (Hwr & _).
  apply bind_ok_inv in H as (z & se & Hz & H).
  destruct c as [b|z0]; [done|]. injection Hz as -> ->.
  pose proof (disk_only_extract p z se) as Hd. rewrite H in Hd. cbn [final] in Hd.
  destruct Hd as (_&_&_&_&_&_&_&_&_&Hk&Hw).
  exists z. specialize (Hk (cache_path p)). rewrite Hwr in Hk.
  destruct Hk as [c Hk]. exists c. split_and!; [done..|].
  intros Hfree.
  destruct (decide (fs s1 !! cache_path p = fs se !! cache_path p)) as [E|Hne].
  - rewrite Hk, Hwr in E. by injection E.
  - destruct (Hw _ Hne) as (t & Ht & Hpre). unfold targets in Ht.
    apply list_elem_of_fmap in Ht as (info & -> & [Hsel Hin]%list_elem_of_filter).
    by destruct (Hfree info Hin Hsel).
Qed.

(** C7, as the code has it. Two plugins of one repository and branch
    share the download address and the cache file. When neither the cache
    file nor the install directory of the first is there, and its unforced
    download goes through, then it has made one request and the cache file
    is there; it holds the archive that was received, unless the archive
    wrote over it (names without [..]). An unforced download for the second
    right after it, whatever the network would answer, makes no request: it
    does nothing when its install directory is there, and else makes that
    directory and extracts from what the cache file holds. One download in
    all. *)
Theorem download_plugin_once (env env' : Env) (p1 p2 : Plugin) (s s1 : state) :
  user p1 = user p2 → repo p1 = repo p2 → branch p1 = branch p2 →
  fs s !! cache_path p1 = None →
  fs s !! abs_path p1 = None →
  download_plugin env p1 false s = Ok tt s1 →
  let r2 := download_plugin env' p2 false s1 in
  cache_path p1 = cache_path p2
  ∧ url p1 = url p2
  ∧ trace s1 = trace s ++ [EvGet (url p1)]
  ∧ (∃ z c, http_get env (url p1) = Some (ZipBytes z)
            ∧ fs s1 !! cache_path p2 = Some (File c)
            ∧ ((".." ∉ cache_path p1) →
               (∀ info, info ∈ z → selected p1 info = true →
                  (".." ∉ target p1 info)
                  ∧ ¬ cache_path p1 `prefix_of` target p1 info) →
               c = ZipBytes z)
            ∧ r2 = if path_exists (fs s1) (abs_path p2) then Ok tt s1
                   else (_ ← disk_op (λ d, mkdir d (abs_path p2) true);
                         zipf ← ZipFile c;
                         for_each zipf (extract_member p2)) s1)
  ∧ trace (final r2) = trace s1
  ∧ downloads (trace (final r2)) = downloads (trace s) + 1.
Proof.
  intros Hu Hr Hb Hc Ha H1 r2.
  assert (cache_path p1 = cache_path p2) as Ecp.
  { unfold cache_path. by rewrite Hu, Hr, Hb. }
  assert (url p1 = url p2) as Eurl.
  { unfold url. by rewrite Hu, Hr, Hb. }
  destruct (download_plugin_fresh env p1 s s1 Ha Hc H1) as [Ht Hex].
  destruct (download_plugin_fresh_cache env p1 s s1 Ha Hc H1)
    as (z & c & Hget & Hfile & Hsame).
  assert (trace (final r2) = trace s1) as Ht2.
  { subst r2. apply download_plugin_cached. by rewrite <- Ecp. }
  split_and!; [done..| |done|].
  - exists z, c. rewrite <- Ecp. split_and!; [done..| |].
    + intros _ Hfree. apply Hsame. intros info Hin Hsel.
      by destruct (Hfree info Hin Hsel).
    + subst r2. apply download_plugin_from_cache. by rewrite <- Ecp.
  - rewrite Ht2, Ht, downloads_app. done.
Qed.

(** * Further properties of the code *)

(** ** Parsing and writing references *)

Lemma at_end_inv t : at_end t = true → t = "" ∨ t = String newline "".
Proof.
  destruct t as [|c [|d t]]; [by left| |done]. cbn [at_end].
  intros ->%Ascii.eqb_eq. by right.
Qed.

Lemma re_strict_fields s u r n b :
  re_strict s = Some (u, r, n, b) →
  u ≠ "" ∧ contains newline u = false
  ∧ r ≠ "" ∧ contains newline r = false
  ∧ n ≠ "" ∧ contains newline n = false
  ∧ ∃ b', b = Some b' ∧ b' ≠ "" ∧ contains newline b' = false
          ∧ (s = ref4 u r n b' ∨ s = ref4 u r n b' +:+ String newline "").
Proof.
  unfold re_strict. intros H.
  apply lazy_plus_inv_line in H as (q1 & t1 & Hq1 & Hn1 & -> & H).
  apply lit_inv in H as (t2 & -> & H).
  apply lazy_plus_inv_line in H as (q2 & t3 & Hq2 & Hn2 & -> & H).
  apply lit_inv in H as (t4 & -> & H).
  apply lazy_plus_inv_line in H as (q3 & t5 & Hq3 & Hn3 & -> & H).
  apply lit_inv in H as (t6 & -> & H).
  apply lazy_plus_inv_line in H as (q4 & t7 & Hq4 & Hn4 & -> & H).
  rewrite !str_app_nil_l in H. destruct (at_end t7) eqn:Hend; [|done].
  injection H as <- <- <- <-. split_and!; [done..|].
  exists q4. split_and!; [done..|].
  unfold ref4, ref3. rewrite !str_app_assoc.
  apply at_end_inv in Hend as [->| ->]; [left|right].
  - by rewrite str_app_nil_r.
  - done.
Qed.

Lemma re_lenient_text s u r n b :
  re_lenient s = Some (u, r, n, b) →
  match b with
  | Some b' => s = ref4 u r n b' ∨ s = ref4 u r n b' +:+ String newline ""
  | None => s = ref3 u r n ∨ s = ref3 u r n +:+ String newline ""
  end.
Proof.
  unfold re_lenient. intros H.
  apply lazy_plus_inv in H as (q1 & t1 & Hq1 & -> & H).
  apply lit_inv in H as (t2 & -> & H).
  apply lazy_plus_inv in H as (q2 & t3 & Hq2 & -> & H).
  apply lit_inv in H as (t4 & -> & H).
  apply lazy_plus_inv in H as (q3 & t5 & Hq3 & -> & H).
  rewrite !str_app_nil_l in H.
  destruct (lit "@" _ t5) as [m|] eqn:E.
  - injection H as ->. apply lit_inv in E as (t6 & -> & H).
    apply lazy_plus_inv in H as (q4 & t7 & Hq4 & -> & H).
    rewrite str_app_nil_l in H. destruct (at_end t7) eqn:Hend; [|done].
    injection H as <- <- <- <-. unfold ref4, ref3. rewrite !str_app_assoc.
    apply at_end_inv in Hend as [->| ->]; [left|right]; [|done].
    by rewrite str_app_nil_r.
  - destruct (at_end t5) eqn:Hend; [|done]. injection H as <- <- <- <-.
    unfold ref3. rewrite !str_app_assoc.
    apply at_end_inv in Hend as [->| ->]; [left|right]; [|done].
    by rewrite str_app_nil_r.
Qed.

(** X1. Whatever [from_string] accepts, the identity it returns has four
    fields that are not empty and hold no line break, and the text is that
    identity written out, up to one line break at the end: with the branch
    when the text had one, and without it, the branch being [master], only
    in the lenient parse. *)
Theorem from_string_sound (s : string) (strict : bool) (p : Plugin) :
  from_string s strict = Some p →
  one_line (user p) ∧ one_line (repo p) ∧ one_line (name p)
  ∧ one_line (branch p)
  ∧ (s = str p ∨ s = str p +:+ String newline ""
     ∨ (strict = false ∧ branch p = "master"
        ∧ (s = ref3 (user p) (repo p) (name p)
           ∨ s = ref3 (user p) (repo p) (name p) +:+ String newline ""))).
Proof.
  unfold from_string, one_line. destruct strict; cbn [negb].
  - destruct (re_strict s) as [[[[u r] n] b]|] eqn:E; [|done].
    intros [= <-]. apply re_strict_fields in E
      as (?&?&?&?&?&?& b' & -> & ? & ? & Hs).
    rewrite str_ref4. cbn [Plugin_init default user repo name branch].
    split_and!; [done..|]. destruct Hs; auto.
  - destruct (re_lenient s) as [[[[u r] n] b]|] eqn:E; [|done].
    intros [= <-]. pose proof (re_lenient_text _ _ _ _ _ E) as Hs.
    apply re_lenient_fields in E as (?&?&?&?&?&?&Hb).
    rewrite str_ref4. cbn [Plugin_init user repo name branch].
    destruct b as [b'|]; cbn [default].
    + destruct Hb. split_and!; [done..|]. destruct Hs; auto.
    + split_and!; [done..|]. right. right. by split_and!.
Qed.

(** X2. Writing an identity with valid fields and reading it back gives
    the same identity, in the strict and in the lenient parse. *)
Theorem from_string_str (p : Plugin) (strict : bool) :
  valid_field (user p) = true → valid_field (repo p) = true →
  valid_field (name p) = true → valid_branch (branch p) = true →
  from_string (str p) strict = Some p.
Proof.
  intros Hu Hr Hn Hb. rewrite str_ref4. unfold from_string.
  destruct strict; cbn [negb].
  - rewrite re_strict_ref4 by done. by destruct p.
  - rewrite re_lenient_ref4 by done. by destruct p.
Qed.

(** X3. Whatever text a parse accepted, strict or not, the identity it
    returned is written by [__str__] in a form that the strict parse
    accepts. (This is about identities that [from_string] returned; it is
    not stated of an identity made from a registry entry.) *)
Theorem from_string_rewritable (s : string) (strict : bool) (p : Plugin) :
  from_string s strict = Some p → is_Some (from_string (str p) true).
Proof.
  destruct strict; [|apply from_string_normal].
  unfold from_string. cbn [negb].
  destruct (re_strict s) as [[[[u r] n] b]|] eqn:E; [|done].
  intros [= <-]. apply re_strict_fields in E
    as (?&?&?&?&?&?& b' & -> & ? & ? & _).
  rewrite str_ref4. cbn [Plugin_init default user repo name branch id].
  destruct (re_strict_complete u r n b') as [m ->]; [done..|].
  by destruct m as [[[??]?]?].
Qed.

(** ** Downloading *)

Global Instance disk_grows_refl : Reflexive disk_grows.
Proof. intros s. unfold disk_grows. split_and!; done. Qed.

Global Instance disk_grows_trans : Transitive disk_grows.
Proof.
  intros s1 s2 s3 (?&?&?&?&?&?&?&?&?&?) (?&?&?&?&?&?&?&?&?&?).
  unfold disk_grows. split_and!; try congruence. by etrans.
Qed.

Lemma disk_only_grows T s s' : disk_only T s s' → disk_grows s s'.
Proof. intros (?&?&?&?&?&?&?&?&?&?&_). unfold disk_grows. by split_and!. Qed.

Lemma disk_grows_op f :
  (∀ d d', f d = Some d' → kind_le d d') → keeps disk_grows (disk_op f).
Proof.
  intros Hf s. unfold disk_op. destruct (f (fs s)) as [d'|] eqn:E; cbn [final].
  - unfold disk_grows. cbn. split_and!; try done. by apply Hf.
  - apply reflexivity.
Qed.

Lemma disk_grows_mkdir p ok : keeps disk_grows (disk_op (λ d, mkdir d p ok)).
Proof. apply disk_grows_op. intros d d'. apply mkdir_kind_le. Qed.

Lemma disk_grows_write_file p c :
  keeps disk_grows (disk_op (λ d, write_file d p c)).
Proof. apply disk_grows_op. intros d d'. apply write_file_kind_le. Qed.

Lemma disk_grows_unzip p c :
  keeps disk_grows (ZipFile c ≫= λ zipf, for_each zipf (extract_member p)).
Proof.
  destruct c as [b|z]; [intros s; apply reflexivity|].
  intros s. rewrite bind_run. cbn [ZipFile ret mret M_ret].
  eapply disk_only_grows, disk_only_extract.
Qed.

(** The part of [download_plugin] that reads the cache file. *)
Lemma disk_grows_cached p (o : option content) :
  keeps disk_grows
    (match o with Some c => ret c | None => raise OSError end
     ≫= λ plugin_io, ZipFile plugin_io
     ≫= λ zipf, for_each zipf (extract_member p)).
Proof.
  apply keeps_bind; [typeclasses eauto| |intros c; apply disk_grows_unzip].
  destruct o; [apply keeps_ret|apply keeps_raise]; typeclasses eauto.
Qed.

(** The part of [download_plugin] that follows the request. *)
Lemma disk_grows_fetched p (b : bool) (o : option content) :
  keeps disk_grows
    (match o with
     | None => raise ClientError
     | Some raw =>
         (if b
          then disk_op (λ d, mkdir d (parent (cache_path p)) false)
          else ret tt)
         ≫= λ _, disk_op (λ d, write_file d (cache_path p) raw)
         ≫= λ _, ret raw
     end
     ≫= λ plugin_io, ZipFile plugin_io
     ≫= λ zipf, for_each zipf (extract_member p)).
Proof.
  apply keeps_bind; [typeclasses eauto| |intros c; apply disk_grows_unzip].
  destruct o as [raw|]; [|apply keeps_raise; typeclasses eauto].
  apply keeps_bind; [typeclasses eauto| |intros _].
  { destruct b; [apply disk_grows_mkdir|apply keeps_ret; typeclasses eauto]. }
  apply keeps_bind; [typeclasses eauto|apply disk_grows_write_file|intros _].
  apply keeps_ret; typeclasses eauto.
Qed.

Lemma bind_assoc {A B C} (m : M A) (f : A → M B) (g : B → M C) s :
  ((m ≫= f) ≫= g) s = (m ≫= λ a, f a ≫= g) s.
Proof. rewrite !bind_run. by destruct (m s). Qed.

Lemma download_plugin_grows (env : Env) (p : Plugin) (force : bool) (s : state) :
  let s' := final (download_plugin env p force s) in
  disk_grows s s'
  ∨ ∃ sa, disk_grows s sa
          ∧ disk_grows (final (emit (EvGet (url p)) sa)) s'.
Proof.
  intros s'. subst s'. unfold download_plugin. rewrite bind_run. cbn [get].
  destruct (path_exists (fs s) (abs_path p) && negb force);
    [left; apply reflexivity|].
  rewrite bind_run.
  pose proof (disk_grows_mkdir (abs_path p) true s) as Ha.
  destruct (disk_op (λ d, mkdir d (abs_path p) true) s) as [[] sa|e sa];
    cbn [final] in Ha; [|by left].
  rewrite bind_run. cbn [get].
  destruct (path_exists (fs sa) (cache_path p) && negb force).
  - left. etrans; [done|]. apply disk_grows_cached.
  - right. exists sa. split; [done|].
    rewrite bind_assoc, bind_run. cbn [emit modify].
    apply disk_grows_fetched.
Qed.

Lemma download_plugin_same_but_disk env p force s :
  same_but_disk s (final (download_plugin env p force s)).
Proof.
  destruct (download_plugin_grows env p force s)
    as [(?&?&?&?&?&?&?&?&?&?)
       |(sa & (?&?&?&?&?&?&?&?&Ht&?) & (?&?&?&?&?&?&?&?&Ht'&Hk))].
  - unfold same_but_disk. by split_and!.
  - cbn in *. unfold same_but_disk. split_and!; congruence.
Qed.

Lemma download_plugin_kind_le env p force s :
  kind_le (fs s) (fs (final (download_plugin env p force s))).
Proof.
  destruct (download_plugin_grows env p force s)
    as [(?&?&?&?&?&?&?&?&?&?)
       |(sa & (?&?&?&?&?&?&?&?&Ht&?) & (?&?&?&?&?&?&?&?&Ht'&Hk))]; [done|].
  cbn in *. by etrans.
Qed.

(** X4. A download, forced or not and however it ends, changes nothing of
    the bot but the disk and the trace: what is on disk stays (a directory
    stays a directory, a file a file), and there is at most one request,
    to the address of the archive. *)
Theorem download_plugin_keeps (env : Env) (p : Plugin) (force : bool) (s : state) :
  let s' := final (download_plugin env p force s) in
  same_but_disk s s'
  ∧ kind_le (fs s) (fs s')
  ∧ (trace s' = trace s ∨ trace s' = trace s ++ [EvGet (url p)]).
Proof.
  intros s'. split; [apply download_plugin_same_but_disk|].
  split; [apply download_plugin_kind_le|].
  destruct (download_plugin_grows env p force s)
    as [(_&_&_&_&_&_&_&_&Ht&_)|(sa & (_&_&_&_&_&_&_&_&Ht&_) & (_&_&_&_&_&_&_&_&Ht'&_))].
  - by left.
  - right. fold s' in Ht'. rewrite Ht'. cbn. by rewrite Ht.
Qed.

Lemma join_nonempty (a b : path) : b ≠ [] → join a b ≠ [].
Proof.
  unfold join. destruct (has_root b); [done|].
  intros Hb [_ ?]%app_eq_nil. done.
Qed.

Lemma abs_path_nonempty p : abs_path p ≠ [].
Proof.
  apply (join_nonempty base (plugin_path p)). unfold plugin_path, joinpath.
  set (a := join (join (parts "plugins") _) _). set (b := parts _).
  unfold join. destruct (has_root b) eqn:Hb.
  - by destruct b.
  - intros [Ha _]%app_eq_nil. subst a. unfold join in Ha.
    destruct (has_root (parts (repo p))) eqn:Hr; [by destruct (parts (repo p))|].
    apply app_eq_nil in Ha as [Ha _].
    destruct (has_root (parts (user p))) eqn:Hu; [by destruct (parts (user p))|].
    by apply app_eq_nil in Ha as [Ha _].
Qed.

Lemma kind_le_dir d d' q : kind_le d d' → d !! q = Some Dir → d' !! q = Some Dir.
Proof. intros H E. specialize (H q). by rewrite E in H. Qed.

Lemma kind_le_file d d' q c :
  kind_le d d' → d !! q = Some (File c) → ∃ c', d' !! q = Some (File c').
Proof. intros H E. specialize (H q). by rewrite E in H. Qed.

Lemma download_plugin_forced_inv (env : Env) (p : Plugin) (s s' : state) :
  download_plugin env p true s = Ok tt s' →
  trace s' = trace s ++ [EvGet (url p)]
  ∧ fs s' !! abs_path p = Some Dir
  ∧ ∃ z, http_get env (url p) = Some (ZipBytes z)
         ∧ (∃ c, fs s' !! cache_path p = Some (File c))
         ∧ ∀ info, info ∈ z → selected p info = true →
             extracted info (fs s' !! target p info).
Proof.
  unfold download_plugin. rewrite bind_run. cbn [get negb].
  rewrite andb_false_r.
  intros ([] & sa & Ea & H)%bind_ok_inv.
  apply disk_op_inv in Ea as [Ea Eta].
  apply mkdir_made in Ea as Hdir; [|apply abs_path_nonempty].
  rewrite bind_run in H. cbn [get] in H. rewrite andb_false_r in H.
  apply bind_ok_inv in H as (c & sb & Hio & H).
  rewrite bind_run in Hio. cbn [emit modify] in Hio.
  destruct (http_get env (url p)) as [raw|]; [|done].
  apply bind_ok_inv in Hio as ([] & sc & Hmk & Hio).
  apply bind_ok_inv in Hio as ([] & sd & Hwr & Hio).
  injection Hio as -> ->.
  assert (trace sc = trace s ++ [EvGet (url p)] ∧ kind_le (fs sa) (fs sc))
    as [Htc Hkc].
  { destruct (negb _).
    - pose proof (disk_grows_mkdir (parent (cache_path p)) false
        (final (emit (EvGet (url p)) sa))) as Hg.
      cbn [emit modify final] in Hg. rewrite Hmk in Hg.
      destruct Hg as (_&_&_&_&_&_&_&_&Ht&Hk). cbn in Ht, Hk.
      split; [by rewrite Ht, Eta|done].
    - injection Hmk as <-. cbn. by rewrite Eta. }
  apply disk_op_inv in Hwr as [Hwr Etb].
  pose proof (write_file_kind_le _ _ _ _ Hwr) as Hkw.
  apply write_file_changes in Hwr as (Hwr & _).
  apply bind_ok_inv in H as (z & se & Hz & H).
  destruct c as [b|z0]; [done|]. injection Hz as -> ->.
  pose proof (disk_only_extract p z se) as Hd. rewrite H in Hd. cbn [final] in Hd.
  pose proof (disk_only_kind_le _ _ _ Hd) as Hke.
  split_and!.
  - rewrite (disk_only_trace _ _ _ Hd). congruence.
  - eapply kind_le_dir; [|done]. etrans; [done|]. by etrans.
  - exists z. split_and!; [done| |].
    + by eapply kind_le_file.
    + by apply (extract_targets p z se s' H).
Qed.

(** X5. A forced download that returns normally has sent exactly one
    request and got an archive. The install directory is then a directory,
    the cache file is a file, and for every member of the archive that
    belongs to the plugin there is, at the install path followed by the
    parts of the member after the first two, a directory when the member is
    one and a file otherwise (what the file holds is not stated). *)
Theorem download_plugin_forced (env : Env) (p : Plugin) (s s' : state) :
  download_plugin env p true s = Ok tt s' →
  downloads (trace s') = downloads (trace s) + 1
  ∧ trace s' = trace s ++ [EvGet (url p)]
  ∧ fs s' !! abs_path p = Some Dir
  ∧ ∃ z, http_get env (url p) = Some (ZipBytes z)
         ∧ (∃ c, fs s' !! cache_path p = Some (File c))
         ∧ ∀ info, info ∈ z → selected p info = true →
             extracted info (fs s' !! target p info).
Proof.
  intros H. destruct (download_plugin_forced_inv env p s s' H)
    as (Ht & Hdir & z & Hz & Hc & Hm).
  split.
  - rewrite Ht, downloads_app. reflexivity.
  - split_and!; [done..|]. exists z. by split_and!.
Qed.

(** An unforced download for a plugin whose install directory is there
    does nothing at all. *)
Lemma download_plugin_installed env p s :
  is_Some (fs s !! abs_path p) → download_plugin env p false s = Ok tt s.
Proof.
  intros H. unfold download_plugin. rewrite bind_run. cbn [get negb].
  by rewrite path_exists_true.
Qed.

(** ** Loading *)

Lemma load_plugin_cases (env : Env) (p : Plugin) (s : state) :
  match load_plugin env p s with
  | Raise e s' => e = InvalidPluginError ∧ s' = s
  | Ok _ s' =>
      is_Some (fs s !! joinpath (abs_path p) (name p +:+ ".py"))
      ∧ (is_Some (fs s !! joinpath (abs_path p) "requirements.txt") →
         pip_stderr env (joinpath (abs_path p) "requirements.txt") = false)
      ∧ (ext_string p ∉ extensions s)
      ∧ setup_ok env (ext_string p) = true
      ∧ extensions s' = {[ext_string p]} ∪ extensions s
      ∧ loaded_plugins s' = {[p]} ∪ loaded_plugins s
      ∧ fs s' = fs s ∧ trace s' = trace s
      ∧ config_plugins s' = config_plugins s
      ∧ stored_plugins s' = stored_plugins s
      ∧ ready s' = ready s
  end.
Proof.
  unfold load_plugin. rewrite bind_run. cbn [get].
  destruct (path_exists (fs s) (joinpath (abs_path p) (name p +:+ ".py"))) eqn:Hpy;
    cbn [negb]; [|done].
  apply bool_decide_eq_true in Hpy.
  rewrite bind_run.
  destruct (path_exists (fs s) (joinpath (abs_path p) "requirements.txt")) eqn:Hreq.
  - destruct (pip_stderr env _) eqn:Hpip; [done|].
    cbn [ret mret M_ret]. unfold try_except, load_extension.
    rewrite !bind_run. cbn [get]. case_decide as Hext; [done|].
    destruct (setup_ok env (ext_string p)) eqn:Hok; [|done].
    cbn. by split_and!.
  - cbn [ret mret M_ret]. unfold try_except, load_extension.
    rewrite !bind_run. cbn [get]. case_decide as Hext; [done|].
    destruct (setup_ok env (ext_string p)) eqn:Hok; [|done].
    cbn. split_and!; try done.
    intros H. apply path_exists_true in H. congruence.
Qed.

(** ** [remove] *)

Global Instance shrinks_refl : Reflexive shrinks.
Proof. intros d q. by right. Qed.

Global Instance shrinks_trans : Transitive shrinks.
Proof.
  intros d1 d2 d3 H12 H23 q. destruct (H23 q) as [?|E]; [by left|].
  rewrite E. apply H12.
Qed.

Lemma rmtree_lookup (d : disk) p q :
  d !! p = Some Dir →
  rmtree d p !! q = if decide (p `prefix_of` q) then None else d !! q.
Proof.
  intros Hp. unfold rmtree. rewrite Hp. case_decide as Hq.
  - apply map_lookup_filter_None. right. intros x _ Hn. by apply Hn.
  - destruct (d !! q) as [x|] eqn:E.
    + apply map_lookup_filter_Some. by split.
    + apply map_lookup_filter_None. by left.
Qed.

Lemma rmtree_shrinks (d : disk) p : shrinks d (rmtree d p).
Proof.
  intros q. destruct (d !! p) as [[|c]|] eqn:Hp.
  - rewrite rmtree_lookup by done. case_decide; [by left|by right].
  - right. unfold rmtree. by rewrite Hp.
  - right. unfold rmtree. by rewrite Hp.
Qed.

Lemma rmtree_changes (d : disk) p q :
  rmtree d p !! q ≠ d !! q → p `prefix_of` q.
Proof.
  destruct (d !! p) as [[|c]|] eqn:Hp.
  - rewrite rmtree_lookup by done. by case_decide.
  - unfold rmtree. by rewrite Hp.
  - unfold rmtree. by rewrite Hp.
Qed.

Lemma rmdir_inv (d : disk) p d' :
  rmdir d p = Some d' → d' = delete p d ∧ d !! p = Some Dir.
Proof.
  unfold rmdir. destruct (d !! p) as [[|c]|]; [|done..].
  case_decide; [|done]. by intros [= <-].
Qed.

Lemma delete_shrinks (d : disk) p : shrinks d (delete p d).
Proof.
  intros q. destruct (decide (p = q)) as [->|Hne].
  - left. apply lookup_delete_eq.
  - right. by apply lookup_delete_ne.
Qed.

(** The two [rmdir] of [plugins_remove], in their [try]. *)
Lemma remove_rmdirs pa ppa s :
  ∃ s', try_except
          (disk_op (λ d, rmdir d pa) ≫= λ _, disk_op (λ d, rmdir d ppa))
          (λ e, bool_decide (e = OSError)) (ret tt) s = Ok tt s'
        ∧ same_but_disk s s' ∧ trace s' = trace s
        ∧ shrinks (fs s) (fs s')
        ∧ ∀ q, fs s' !! q ≠ fs s !! q → q = pa ∨ q = ppa.
Proof.
  unfold try_except. rewrite bind_run. unfold disk_op.
  destruct (rmdir (fs s) pa) as [d1|] eqn:E1.
  2:{ cbn. exists s. unfold same_but_disk. by split_and!. }
  apply rmdir_inv in E1 as [-> _]. cbn [fs].
  destruct (rmdir (delete pa (fs s)) ppa) as [d2|] eqn:E2.
  - apply rmdir_inv in E2 as [-> _]. eexists. split; [done|].
    unfold same_but_disk. cbn. split_and!; try done.
    + etrans; apply delete_shrinks.
    + intros q Hq. destruct (decide (q = pa)) as [|H1]; [by left|].
      destruct (decide (q = ppa)) as [|H2]; [by right|].
      by rewrite !lookup_delete_ne in Hq.
  - cbn. eexists. split; [done|]. unfold same_but_disk. cbn.
    split_and!; try done.
    + apply delete_shrinks.
    + intros q Hq. destruct (decide (q = pa)) as [|H1]; [by left|].
      by rewrite lookup_delete_ne in Hq.
Qed.

(** The unloading of [plugins_remove], in its [try]. *)
Lemma remove_unload p s :
  ∃ s', try_except
          (unload_extension (ext_string p) ≫= λ _, get ≫= λ s0,
             if decide (p ∈ loaded_plugins s0)
             then set_loaded_plugins (loaded_plugins s0 ∖ {[p]})
             else raise KeyError)
          (λ e, bool_decide (e = ExtensionNotLoaded ∨ e = KeyError)) (ret tt) s
        = Ok tt s'
        ∧ config_plugins s' = config_plugins s
        ∧ stored_plugins s' = stored_plugins s
        ∧ fs s' = fs s ∧ trace s' = trace s
        ∧ (ext_string p ∉ extensions s')
        ∧ extensions s' ⊆ extensions s
        ∧ loaded_plugins s' ⊆ loaded_plugins s
        ∧ (ext_string p ∈ extensions s → p ∉ loaded_plugins s').
Proof.
  unfold try_except, unload_extension. rewrite !bind_run. cbn [get].
  case_decide as Hext.
  - cbn [set_extensions modify]. rewrite bind_run. cbn [get loaded_plugins].
    case_decide as Hl; cbn.
    + eexists. split; [done|]. cbn.
      split_and!; try done; [set_solver..].
    + eexists. split; [done|]. cbn.
      split_and!; try done; [set_solver..].
  - cbn. exists s. split_and!; try done.
Qed.

Lemma list_remove_elem x l : x ∈ l → is_Some (list_remove x l).
Proof.
  intros H%occ_elem_of. destruct (list_remove_occ x l H) as (l' & -> & _). done.
Qed.

(** [remove] of an identity of the list. *)
Lemma plugins_remove_run (n : string) (s : state) (p : Plugin) :
  parse_user_input n false s = Ok (Some p) s →
  str p ∈ config_plugins s →
  ∃ s', plugins_remove n s = Ok tt s'
    ∧ list_remove (str p) (config_plugins s) = Some (config_plugins s')
    ∧ stored_plugins s' = config_plugins s'
    ∧ trace s' = trace s ++ [EvConfigUpdate (config_plugins s'); EvSend Removed]
    ∧ (enable_plugins s = true → (ext_string p ∉ extensions s'))
    ∧ loaded_plugins s' ⊆ loaded_plugins s
    ∧ (fs s !! abs_path p = Some Dir →
       ∀ q, abs_path p `prefix_of` q → fs s' !! q = None)
    ∧ shrinks (fs s) (fs s')
    ∧ ∀ q, fs s' !! q ≠ fs s !! q →
        abs_path p `prefix_of` q ∨ q = parent (abs_path p)
        ∨ q = parent (parent (abs_path p)).
Proof.
  intros Hparse Hin. unfold plugins_remove. rewrite (bind_ok _ _ _ _ _ Hparse).
  rewrite bind_run. cbn [get].
  rewrite decide_False by (by intros ?).
  rewrite bind_run.
  assert (∃ su, (if enable_plugins s
                 then try_except
                   (unload_extension (ext_string p) ≫= λ _, get ≫= λ s0,
                      if decide (p ∈ loaded_plugins s0)
                      then set_loaded_plugins (loaded_plugins s0 ∖ {[p]})
                      else raise KeyError)
                   (λ e, bool_decide (e = ExtensionNotLoaded ∨ e = KeyError))
                   (ret tt)
                 else ret tt) s = Ok tt su
            ∧ config_plugins su = config_plugins s
            ∧ stored_plugins su = stored_plugins s
            ∧ fs su = fs s ∧ trace su = trace s
            ∧ (enable_plugins s = true → ext_string p ∉ extensions su)
            ∧ extensions su ⊆ extensions s
            ∧ loaded_plugins su ⊆ loaded_plugins s)
    as (su & -> & Hc & Hst & Hfs & Htr & Hext & Hexts & Hl).
  { destruct (enable_plugins s).
    - destruct (remove_unload p s) as (su & ? & ? & ? & ? & ? & ? & ? & ? & _).
      exists su. by split_and!.
    - exists s. by split_and!. }
  rewrite bind_run. cbn [get]. rewrite Hc.
  destruct (list_remove_elem _ _ Hin) as [l Hrm]. rewrite Hrm.
  unfold config_update. repeat mstep.
  match goal with |- context [disk_op _ ?s1] => set (sr := s1) end.
  change (disk_op (λ d, Some (rmtree d (abs_path p))) sr)
    with (Ok tt (final (disk_op (λ d, Some (rmtree d (abs_path p))) sr))).
  cbv beta iota. rewrite bind_run.
  match goal with |- context [try_except _ _ _ ?s1] => set (st := s1) end.
  destruct (remove_rmdirs (parent (abs_path p)) (parent (parent (abs_path p))) st)
    as (s' & -> & (?&?&?&?&Hexts'&?&Hl'&?) & Ht' & Hsh & Hch).
  cbn [st sr disk_op final fs trace config_plugins stored_plugins
       extensions loaded_plugins] in *.
  eexists. split; [done|]. cbn. rewrite Hfs in *.
  split_and!; try congruence.
  + rewrite Ht', Htr, <- app_assoc. cbn. congruence.
  + intros He. rewrite Hexts'. by apply Hext.
  + by rewrite Hl'.
  + intros Hdir q Hq. destruct (Hsh q) as [?|E]; [done|].
    rewrite E, rmtree_lookup by done. by rewrite decide_True.
  + etrans; [apply rmtree_shrinks|done].
  + intros q Hq.
    destruct (decide (fs s' !! q = rmtree (fs s) (abs_path p) !! q)) as [E|Hne].
    * left. apply (rmtree_changes (fs s)). by rewrite <- E.
    * right. by apply Hch.
Qed.

(** [remove] of an identity that is not in the list. *)
Lemma plugins_remove_absent (n : string) (s : state) (p : Plugin) :
  parse_user_input n false s = Ok (Some p) s →
  str p ∉ config_plugins s →
  plugins_remove n s = Ok tt (final (send NotInstalled s)).
Proof.
  intros Hparse Hin. unfold plugins_remove. rewrite (bind_ok _ _ _ _ _ Hparse).
  rewrite bind_run. cbn [get]. by rewrite decide_True.
Qed.


(** ** [add], step by step *)

Lemma plugins_add_run env n s p :
  parse_user_input n true s = Ok (Some p) s →
  str p ∉ config_plugins s → name p ∉ cogs env →
  plugins_add env n s = Ok tt (added env p s).
Proof.
  intros Hparse Hnew Hcog. unfold added.
  set (sd := final (send Downloading s)). unfold plugins_add.
  rewrite (bind_ok _ _ _ _ _ Hparse). rewrite bind_run. cbn [get].
  rewrite !decide_False by done.
  rewrite bind_run. change (send Downloading s) with (Ok tt sd).
  cbv beta iota.
  destruct (download_plugin env p true sd) as [[] s1|e s1] eqn:Hdl.
  - assert (try_except (A := bool) (download_plugin env p true ≫= λ _, ret true)
              (λ _, true) (send DownloadFailed ≫= λ _, ret false) sd
            = Ok true s1) as Htry.
    { unfold try_except. by rewrite (bind_ok _ _ _ _ _ Hdl). }
    rewrite (bind_ok _ _ _ _ _ Htry). cbn [negb].
    unfold config_update. repeat mstep.
    destruct (enable_plugins s1); [|done].
    unfold try_except. rewrite !bind_run.
    match goal with |- context [load_plugin env p ?s2] =>
      destruct (load_plugin env p s2) as [[] s3|e s3] end; done.
  - assert (try_except (A := bool) (download_plugin env p true ≫= λ _, ret true)
              (λ _, true) (send DownloadFailed ≫= λ _, ret false) sd
            = Ok false (final (send DownloadFailed s1))) as Htry.
    { unfold try_except. by rewrite (bind_raise _ _ _ _ _ Hdl). }
    by rewrite (bind_ok _ _ _ _ _ Htry).
Qed.


Lemma parse_user_input_replies n cv s :
  (∃ p, parse_user_input n cv s = Ok (Some p) s)
  ∨ (∃ r, r ∈ [StillLoading; VersionTooLow; InvalidName]
          ∧ parse_user_input n cv s = Ok None (final (send r s)))
  ∨ parse_user_input n cv s = Raise ValueError s.
Proof.
  unfold parse_user_input. rewrite bind_run. cbn [get].
  destruct (negb (ready s)).
  { right; left. exists StillLoading. split; [|done]. apply list_elem_of_here. }
  destruct (registry s !! n) as [d|].
  - destruct (split_once "/" (repository d)) as [[u r]|]; [|by right; right].
    destruct (cv && _); [|left; by eexists].
    right; left. exists VersionTooLow. split; [|done].
    apply list_elem_of_further, list_elem_of_here.
  - destruct (from_string n false); [left; by eexists|].
    right; left. exists InvalidName. split; [|done].
    do 2 apply list_elem_of_further. apply list_elem_of_here.
Qed.

(** What [parse_user_input] gives depends on the gate, the registry and
    the version of the bot only. *)
Lemma parse_kept_parse n cv s s' p :
  parse_kept s s' →
  parse_user_input n cv s = Ok (Some p) s →
  parse_user_input n cv s' = Ok (Some p) s'.
Proof.
  intros (Hr & Hg & Hv). unfold parse_user_input. rewrite !bind_run. cbn [get].
  rewrite Hr, Hg, Hv. destruct (negb (ready s)); [done|].
  destruct (registry s !! n) as [d|].
  - destruct (split_once "/" (repository d)) as [[u r]|]; [|done].
    destruct (cv && _); [done|]. by intros [= ->].
  - destruct (from_string n false); [|done]. by intros [= ->].
Qed.




(** X10. [add] twice. When an [add] got through its download, the next
    [add] of the same name, whatever the network and the code do then, only
    answers that the plugin is installed and changes nothing. *)
Theorem plugins_add_twice (env env' : Env) (n : string) (s sd : state) (p : Plugin) :
  parse_user_input n true s = Ok (Some p) s →
  name p ∉ cogs env →
  download_plugin env p true (final (send Downloading s)) = Ok tt sd →
  let s1 := final (plugins_add env n s) in
  plugins_add env' n s1 = Ok tt (final (send AlreadyInstalled s1)).
Proof.
  intros Hp Hcog Hdl s1.
  assert (parse_kept s s1 ∧ str p ∈ config_plugins s1) as [Hk Hin].
  { subst s1. destruct (decide (str p ∈ config_plugins s)) as [Hin|Hnew].
    - unfold plugins_add. rewrite (bind_ok _ _ _ _ _ Hp), bind_run. cbn [get].
      rewrite decide_True by done. by cbn.
    - rewrite (plugins_add_run env n s p) by done. cbn [final]. unfold added.
      pose proof (frame_download_plugin env p true (final (send Downloading s))) as Hd.
      rewrite Hdl in *. cbn [final] in Hd.
      destruct Hd as (Hc&_&_&Hv&Hg&Hr&_). cbn in Hc, Hv, Hg, Hr.
      destruct (enable_plugins sd).
      + match goal with |- context [load_plugin env p ?s2] =>
          pose proof (frame_load_plugin env p s2) as Hload;
          destruct (load_plugin env p s2) as [[] s3|e s3] end;
          cbn [final] in Hload; destruct Hload as (Hc3&_&_&Hv3&Hg3&Hr3&_);
          cbn in Hc3, Hv3, Hg3, Hr3; unfold parse_kept; cbn;
          rewrite Hc3, Hv3, Hg3, Hr3, Hc; (split; [done|]);
          apply elem_of_app; right; apply list_elem_of_here.
      + unfold parse_kept. cbn. rewrite Hc. split; [done|].
        apply elem_of_app. right. apply list_elem_of_here. }
  unfold plugins_add.
  rewrite (bind_ok _ _ _ _ _ (parse_kept_parse _ _ _ _ _ Hk Hp)), bind_run.
  cbn [get]. by rewrite decide_True.
Qed.

(** ** [update] *)

Global Instance settings_kept_refl : Reflexive settings_kept.
Proof.
  intros s. unfold settings_kept. split_and!; try done.
  exists []. by rewrite app_nil_r.
Qed.

Global Instance settings_kept_trans : Transitive settings_kept.
Proof.
  intros s1 s2 s3 (?&?&?&?&?&?&evs1&?&?) (?&?&?&?&?&?&evs2&?&?).
  unfold settings_kept. split_and!; try congruence.
  exists (evs1 ++ evs2). split; [|by apply Forall_app].
  rewrite app_assoc. congruence.
Qed.

Lemma frame_settings_kept s s' : frame s s' → settings_kept s s'.
Proof.
  intros (?&?&?&?&?&?&evs&?&Hevs). unfold settings_kept.
  split_and!; try done. exists evs. split; [done|].
  eapply Forall_impl; [done|]. intros ? [u ->]. by left.
Qed.

Lemma settings_kept_send r : keeps settings_kept (send r).
Proof.
  intros s. unfold settings_kept. cbn. split_and!; try done.
  exists [EvSend r]. split; [done|]. apply Forall_singleton. right. by eexists.
Qed.

Lemma settings_kept_parse_user_input n cv :
  keeps settings_kept (parse_user_input n cv).
Proof.
  intros s. destruct (parse_user_input_cases n cv s) as [[p ->]|[[r ->]| ->]].
  - apply reflexivity.
  - apply settings_kept_send.
  - apply reflexivity.
Qed.

Lemma settings_kept_update_plugin env n : keeps settings_kept (update_plugin env n).
Proof.
  unfold update_plugin.
  apply keeps_bind; [typeclasses eauto|apply settings_kept_parse_user_input|].
  intros [p|]; [|apply keeps_ret; typeclasses eauto].
  apply keeps_bind; [typeclasses eauto|apply keeps_get; typeclasses eauto|].
  intros s0. case_decide; [apply settings_kept_send|].
  apply keeps_bind; [typeclasses eauto| |intros _].
  { eapply keeps_weaken; [apply frame_settings_kept|apply frame_download_plugin]. }
  apply keeps_bind; [typeclasses eauto| |intros _; apply settings_kept_send].
  destruct (enable_plugins s0); [|apply keeps_ret; typeclasses eauto].
  apply keeps_bind; [typeclasses eauto| |intros _].
  - apply keeps_try; [typeclasses eauto| |apply keeps_ret; typeclasses eauto].
    eapply keeps_weaken; [apply frame_settings_kept|apply frame_unload_extension].
  - eapply keeps_weaken; [apply frame_settings_kept|apply frame_load_plugin].
Qed.

(** X11. [update], of one plugin or of all and however it ends, never
    touches the list, in memory or in the store, nor the gate and the
    switch: the entry of a plugin stays where it is while the plugin is
    updated, and the store is not written. *)
Theorem plugins_update_keeps_list (env : Env) (n : option string) (s : state) :
  let s' := final (plugins_update env n s) in
  config_plugins s' = config_plugins s
  ∧ stored_plugins s' = stored_plugins s
  ∧ ready s' = ready s
  ∧ enable_plugins s' = enable_plugins s
  ∧ ∀ l, EvConfigUpdate l ∈ trace s' → EvConfigUpdate l ∈ trace s.
Proof.
  intros s'.
  assert (settings_kept s s') as (Hc&Hst&He&_&_&Hr&evs&Ht&Hevs).
  { subst s'. destruct n as [n|]; cbn [plugins_update].
    - apply settings_kept_update_plugin.
    - rewrite bind_run. cbn [get]. apply keeps_for_each; try typeclasses eauto.
      intros x. apply settings_kept_update_plugin. }
  split_and!; [done..|].
  intros l. rewrite Ht. intros [?|Hin]%elem_of_app; [done|].
  rewrite Forall_forall in Hevs. destruct (Hevs _ Hin) as [?|[r ?]]; done.
Qed.

(** [update] of an identity that is not in the list only answers that it
    is not installed: nothing is downloaded. *)
Lemma update_plugin_not_installed env n s p :
  parse_user_input n true s = Ok (Some p) s → str p ∉ config_plugins s →
  update_plugin env n s = Ok tt (final (send NotInstalled s)).
Proof.
  intros Hp Hnew. unfold update_plugin.
  rewrite (bind_ok _ _ _ _ _ Hp), bind_run. cbn [get]. by rewrite decide_True.
Qed.

(** ** With plugins disabled *)

Global Instance loading_kept_refl : Reflexive loading_kept.
Proof. intros s. by unfold loading_kept. Qed.

Global Instance loading_kept_trans : Transitive loading_kept.
Proof.
  intros s1 s2 s3 (?&?&?) (?&?&?). unfold loading_kept. split_and!; congruence.
Qed.

Lemma same_but_disk_loading_kept s s' : same_but_disk s s' → loading_kept s s'.
Proof. intros (?&?&?&?&?&?&?&?). by unfold loading_kept. Qed.

Lemma loading_kept_download_plugin env p force :
  keeps loading_kept (download_plugin env p force).
Proof.
  intros s. apply same_but_disk_loading_kept, download_plugin_same_but_disk.
Qed.

Lemma loading_kept_parse_user_input n cv :
  keeps loading_kept (parse_user_input n cv).
Proof.
  intros s. destruct (parse_user_input_cases n cv s) as [[p ->]|[[r ->]| ->]];
    by unfold loading_kept.
Qed.

Lemma loading_kept_send r : keeps loading_kept (send r).
Proof. intros s. by unfold loading_kept. Qed.

Lemma loading_kept_disk_op f : keeps loading_kept (disk_op f).
Proof. intros s. unfold disk_op. by destruct (f (fs s)). Qed.

Lemma plugins_add_off env n s :
  enable_plugins s = false → loading_kept s (final (plugins_add env n s)).
Proof.
  intros Hoff.
  destruct (parse_user_input_replies n true s) as [[p Hp]|[(r & Hr & Hp)|Hp]].
  - destruct (decide (str p ∈ config_plugins s)) as [Hin|Hnew].
    { unfold plugins_add. rewrite (bind_ok _ _ _ _ _ Hp), bind_run. cbn [get].
      by rewrite decide_True. }
    destruct (decide (name p ∈ cogs env)) as [Hcog|Hcog].
    { unfold plugins_add. rewrite (bind_ok _ _ _ _ _ Hp), bind_run. cbn [get].
      rewrite decide_False by done. by rewrite decide_True. }
    rewrite (plugins_add_run env n s p) by done. cbn [final].
    unfold added.
    pose proof (loading_kept_download_plugin env p true (final (send Downloading s)))
      as Hd.
    destruct (download_plugin env p true _) as [[] s1|e s1]; cbn [final] in Hd;
      destruct Hd as (He&Hl&Hx); cbn in He, Hl, Hx.
    + rewrite He, Hoff. by unfold loading_kept.
    + by unfold loading_kept.
  - unfold plugins_add. rewrite (bind_ok _ _ _ _ _ Hp). by unfold loading_kept.
  - unfold plugins_add. rewrite (bind_raise _ _ _ _ _ Hp). by unfold loading_kept.
Qed.

Lemma plugins_remove_off n s :
  enable_plugins s = false → loading_kept s (final (plugins_remove n s)).
Proof.
  intros Hoff.
  destruct (parse_user_input_replies n false s) as [[p Hp]|[(r & Hr & Hp)|Hp]].
  - unfold plugins_remove. rewrite (bind_ok _ _ _ _ _ Hp), bind_run. cbn [get].
    case_decide; [done|]. rewrite Hoff. rewrite bind_run. cbn [ret mret M_ret].
    rewrite bind_run. cbn [get].
    destruct (list_remove (str p) (config_plugins s)) as [l|]; [|done].
    unfold config_update. repeat mstep.
    match goal with |- context [disk_op _ ?s1] =>
      change (disk_op (λ d, Some (rmtree d (abs_path p))) s1)
        with (Ok tt (final (disk_op (λ d, Some (rmtree d (abs_path p))) s1))) end.
    cbv beta iota. rewrite bind_run.
    match goal with |- context [try_except _ _ _ ?s1] =>
      destruct (remove_rmdirs (parent (abs_path p))
                  (parent (parent (abs_path p))) s1)
        as (s' & -> & (_&_&He&_&Hx&_&Hl&_) & _) end.
    cbn in *. unfold loading_kept. cbn. by rewrite He, Hx, Hl.
  - unfold plugins_remove. rewrite (bind_ok _ _ _ _ _ Hp). by unfold loading_kept.
  - unfold plugins_remove. rewrite (bind_raise _ _ _ _ _ Hp). by unfold loading_kept.
Qed.

Lemma update_plugin_off env n s :
  enable_plugins s = false → loading_kept s (final (update_plugin env n s)).
Proof.
  intros Hoff.
  destruct (parse_user_input_replies n true s) as [[p Hp]|[(r & Hr & Hp)|Hp]].
  - unfold update_plugin. rewrite (bind_ok _ _ _ _ _ Hp), bind_run. cbn [get].
    case_decide; [done|]. rewrite Hoff. rewrite bind_run.
    pose proof (loading_kept_download_plugin env p true s) as Hd.
    destruct (download_plugin env p true s) as [[] s1|e s1]; cbn [final] in Hd;
      [|done].
    rewrite bind_run. cbn [ret mret M_ret].
    destruct Hd as (?&?&?). by unfold loading_kept.
  - unfold update_plugin. rewrite (bind_ok _ _ _ _ _ Hp). by unfold loading_kept.
  - unfold update_plugin. rewrite (bind_raise _ _ _ _ _ Hp). by unfold loading_kept.
Qed.

Lemma update_all_off env l s :
  enable_plugins s = false →
  loading_kept s (final (for_each l (update_plugin env) s)).
Proof.
  revert s. induction l as [|n l IH]; intros s Hoff; cbn [for_each].
  - apply reflexivity.
  - rewrite bind_run. pose proof (update_plugin_off env n s Hoff) as H1.
    destruct (update_plugin env n s) as [[] s1|e s1]; cbn [final] in H1; [|done].
    etrans; [done|]. apply IH. destruct H1 as (->&_). done.
Qed.

(** X12. While [enable_plugins] is off, no command loads or unloads
    anything: after [add], [remove] or [update], the loaded set and the
    extensions of the bot are what they were. *)
Theorem commands_load_nothing_when_off (env : Env) (c : command) (s : state) :
  enable_plugins s = false →
  let s' := final (run_command env c s) in
  loaded_plugins s' = loaded_plugins s
  ∧ extensions s' = extensions s
  ∧ enable_plugins s' = false.
Proof.
  intros Hoff s'.
  assert (loading_kept s s') as (He&Hl&Hx).
  { subst s'. destruct c as [n|n|[n|]]; cbn [run_command plugins_update].
    - by apply plugins_add_off.
    - by apply plugins_remove_off.
    - by apply update_plugin_off.
    - rewrite bind_run. cbn [get]. by apply update_all_off. }
  split_and!; congruence.
Qed.

(** ** More on the initial load *)

Lemma migrate_all_normal names l :
  (∀ x, x ∈ names → is_Some (from_string x true)) → migrate_all names l = Some l.
Proof.
  induction names as [|x names IH]; intros H; cbn [migrate_all]; [done|].
  unfold migrate. destruct (H x) as [p ->]; [apply list_elem_of_here|].
  apply IH. intros y Hy. by apply H, list_elem_of_further.
Qed.

(** The list after the initial load, which always returns. *)
Lemma initial_load_plugins_list env s :
  ∃ l' s', migrate_all (config_plugins s) (config_plugins s) = Some l'
    ∧ initial_load_plugins env s = Ok tt s'
    ∧ config_plugins s' = l' ∧ stored_plugins s' = l' ∧ ready s' = true
    ∧ (∀ x, x ∈ l' → is_Some (from_string x true)).
Proof.
  unfold initial_load_plugins. rewrite bind_run. cbn [get]. cbv beta.
  pose proof (initial_load_loop_spec env (config_plugins s) s) as Hloop.
  destruct (migrate_all_spec (config_plugins s) (config_plugins s))
    as (l' & Hm & Hnone & _ & _); [done|].
  rewrite Hm in Hloop. destruct Hloop as (s1 & Hl & <- & _).
  rewrite (bind_ok _ _ _ _ _ Hl). unfold config_update. repeat mstep.
  eexists _, _. split; [done|]. split; [done|]. cbn. split_and!; [done..|].
  intros x Hx. destruct (from_string x true) eqn:E; [done|].
  apply occ_elem_of in Hx. rewrite Hnone in Hx by done. lia.
Qed.

(** X13. The initial load leaves a list of entries with a branch as it
    is, in the same order; and so a second initial load, whatever the
    network and the code do then, leaves the list as the first one left
    it. *)
Theorem initial_load_plugins_stable (env env' : Env) (s : state) :
  ((∀ x, x ∈ config_plugins s → is_Some (from_string x true)) →
   config_plugins (final (initial_load_plugins env s)) = config_plugins s)
  ∧ let s1 := final (initial_load_plugins env s) in
    config_plugins (final (initial_load_plugins env' s1)) = config_plugins s1.
Proof.
  assert (∀ e t, (∀ x, x ∈ config_plugins t → is_Some (from_string x true)) →
            config_plugins (final (initial_load_plugins e t)) = config_plugins t)
    as Hnormal.
  { intros e t Hall.
    destruct (initial_load_plugins_list e t) as (l' & t' & Hm & Hrun & Hc & _).
    rewrite migrate_all_normal in Hm by done. injection Hm as <-.
    by rewrite Hrun. }
  split; [apply Hnormal|].
  intros s1. apply Hnormal. subst s1.
  destruct (initial_load_plugins_list env s) as (l' & s' & _ & Hrun & Hc & _ & _ & H).
  rewrite Hrun. cbn [final]. by rewrite Hc.
Qed.

Global Instance grows_refl : Reflexive grows.
Proof. intros s. split; [apply reflexivity|done]. Qed.

Global Instance grows_trans : Transitive grows.
Proof. intros s1 s2 s3 [??] [??]. split; [by etrans|set_solver]. Qed.

Lemma grows_download_plugin env p force : keeps grows (download_plugin env p force).
Proof.
  intros s. split; [apply download_plugin_kind_le|].
  destruct (download_plugin_same_but_disk env p force s) as (_&_&_&_&->&_). done.
Qed.

Lemma grows_load_plugin env p : keeps grows (load_plugin env p).
Proof.
  intros s. pose proof (load_plugin_cases env p s) as H.
  destruct (load_plugin env p s) as [[] s'|e s']; cbn [final].
  - destruct H as (_&_&_&_&Hx&_&Hf&_). split; [by rewrite Hf|]. set_solver.
  - destruct H as [_ ->]. apply reflexivity.
Qed.

Lemma grows_set_config_plugins l : keeps grows (set_config_plugins l).
Proof. intros s. split; [apply reflexivity|done]. Qed.

Lemma grows_initial_load_one env x : keeps grows (initial_load_one env x).
Proof.
  unfold initial_load_one.
  apply keeps_bind; [typeclasses eauto| |intros [p|]].
  - destruct (from_string x true); [apply keeps_ret; typeclasses eauto|].
    apply keeps_bind; [typeclasses eauto|apply keeps_get; typeclasses eauto|].
    intros s0. destruct (list_remove x (config_plugins s0));
      [|apply keeps_raise; typeclasses eauto].
    apply keeps_bind; [typeclasses eauto|apply grows_set_config_plugins|intros _].
    destruct (from_string x false); [|apply keeps_ret; typeclasses eauto].
    apply keeps_bind; [typeclasses eauto|apply keeps_get; typeclasses eauto|].
    intros s1.
    apply keeps_bind; [typeclasses eauto|apply grows_set_config_plugins|intros _].
    apply keeps_ret; typeclasses eauto.
  - apply keeps_try; [typeclasses eauto| |apply keeps_ret; typeclasses eauto].
    apply keeps_bind; [typeclasses eauto|apply grows_download_plugin|intros _].
    apply grows_load_plugin.
  - apply keeps_ret; typeclasses eauto.
Qed.

(** The turn of a plugin that is installed and whose code is sound. *)
Lemma try_load_installed env p s :
  is_Some (fs s !! abs_path p) →
  is_Some (fs s !! joinpath (abs_path p) (name p +:+ ".py")) →
  pip_stderr env (joinpath (abs_path p) "requirements.txt") = false →
  setup_ok env (ext_string p) = true →
  ∃ s', try_except (download_plugin env p false ≫= λ _, load_plugin env p)
          (λ _, true) (ret tt) s = Ok tt s'
        ∧ ext_string p ∈ extensions s'.
Proof.
  intros Hdir Hpy Hpip Hok. unfold try_except.
  rewrite (bind_ok _ _ _ _ _ (download_plugin_installed env p s Hdir)).
  unfold load_plugin. rewrite bind_run. cbn [get].
  rewrite (path_exists_true _ _ Hpy). cbn [negb]. rewrite bind_run, Hpip.
  assert ((if path_exists (fs s) (joinpath (abs_path p) "requirements.txt")
           then ret tt else ret tt) s = Ok tt s) as -> by (by destruct (path_exists _ _)).
  unfold try_except, load_extension. rewrite !bind_run. cbn [get].
  case_decide as Hext.
  - cbn. by exists s.
  - rewrite Hok. cbn. eexists. split; [done|]. cbn. set_solver.
Qed.

Lemma initial_load_one_loads env x p s s' :
  initial_load_one env x s = Ok tt s' →
  entry_plugin x = Some p →
  is_Some (fs s !! abs_path p) →
  is_Some (fs s !! joinpath (abs_path p) (name p +:+ ".py")) →
  pip_stderr env (joinpath (abs_path p) "requirements.txt") = false →
  setup_ok env (ext_string p) = true →
  ext_string p ∈ extensions s'.
Proof.
  unfold initial_load_one, entry_plugin. intros H He Hdir Hpy Hpip Hok.
  destruct (from_string x true) as [p0|].
  - injection He as ->. rewrite bind_run in H. cbn [ret mret M_ret] in H.
    destruct (try_load_installed env p s Hdir Hpy Hpip Hok) as (s1 & E & Hin).
    rewrite E in H. by injection H as <-.
  - rewrite He in H. revert H. repeat mstep.
    destruct (list_remove x (config_plugins s)) as [l|]; [|done].
    repeat mstep.
    match goal with |- context [try_except _ _ _ ?s2] =>
      destruct (try_load_installed env p s2 Hdir Hpy Hpip Hok) as (s1 & E & Hin) end.
    rewrite E. by intros [= <-].
Qed.

Lemma initial_load_loop_loads env names x p s s' :
  for_each names (initial_load_one env) s = Ok tt s' →
  x ∈ names → entry_plugin x = Some p →
  is_Some (fs s !! abs_path p) →
  is_Some (fs s !! joinpath (abs_path p) (name p +:+ ".py")) →
  pip_stderr env (joinpath (abs_path p) "requirements.txt") = false →
  setup_ok env (ext_string p) = true →
  ext_string p ∈ extensions s'.
Proof.
  revert s. induction names as [|y names IH]; intros s H Hin He Hdir Hpy Hpip Hok.
  - by apply elem_of_nil in Hin.
  - cbn [for_each] in H. apply bind_ok_inv in H as ([] & s1 & H1 & H2).
    pose proof (grows_initial_load_one env y s) as [Hk Hx].
    rewrite H1 in Hk, Hx. cbn [final] in Hk, Hx.
    apply elem_of_cons in Hin as [->|Hin].
    + pose proof (keeps_for_each grows names _ (grows_initial_load_one env) s1)
        as [_ Hx2].
      rewrite H2 in Hx2. cbn [final] in Hx2. apply Hx2.
      by apply (initial_load_one_loads env y p s s1).
    + apply (IH s1); try done; by eapply kind_le_exists.
Qed.

(** X14. One broken plugin does not keep another from being loaded at
    start. Take an entry of the list whose install directory and entry file
    are on disk, whose requirements, if any, install without error and
    whose code sets itself up: after the initial load its extension is
    loaded, whatever happens to the other entries of the list. *)
Theorem initial_load_plugins_isolated (env : Env) (s : state) (x : string) (p : Plugin) :
  x ∈ config_plugins s → entry_plugin x = Some p →
  is_Some (fs s !! abs_path p) →
  is_Some (fs s !! joinpath (abs_path p) (name p +:+ ".py")) →
  pip_stderr env (joinpath (abs_path p) "requirements.txt") = false →
  setup_ok env (ext_string p) = true →
  ∃ s', initial_load_plugins env s = Ok tt s'
        ∧ ready s' = true
        ∧ ext_string p ∈ extensions s'.
Proof.
  intros Hin He Hdir Hpy Hpip Hok.
  unfold initial_load_plugins. rewrite bind_run. cbn [get]. cbv beta.
  pose proof (initial_load_loop_spec env (config_plugins s) s) as Hloop.
  destruct (migrate_all_spec (config_plugins s) (config_plugins s))
    as (l' & Hm & _); [done|].
  rewrite Hm in Hloop. destruct Hloop as (s1 & Hl & _).
  rewrite (bind_ok _ _ _ _ _ Hl). unfold config_update. repeat mstep.
  eexists. split; [done|]. cbn. split; [done|].
  by apply (initial_load_loop_loads env (config_plugins s) x p s s1).
Qed.

(** ** The pages of [plugins loaded] *)

Lemma str_snoc_inj y z c d :
  y +:+ String c "" = z +:+ String d "" → y = z ∧ c = d.
Proof.
  revert z. induction y as [|a y IH]; intros [|b z]; rewrite ?str_app_cons, ?str_app_nil_l.
  - by intros [= ->].
  - intros [= -> E]. by destruct z.
  - intros [= -> E]. by destruct y.
  - intros [= -> E]. apply IH in E as [-> ->]. done.
Qed.

Lemma str_drop_snoc n s c :
  n ≤ String.length s → str_drop n (s +:+ String c "") = str_drop n s +:+ String c "".
Proof.
  revert s. induction n as [|n IH]; intros s Hn; [by destruct s|].
  destruct s as [|a s]; cbn in Hn; [lia|].
  rewrite str_app_cons. cbn [str_drop]. apply IH. lia.
Qed.

(** A text that ends with a line break does not end with a fence. *)
Lemma str_last_newline s : str_last 3 (s +:+ String newline "") ≠ fence_close.
Proof.
  unfold str_last. rewrite str_length_app. cbn [String.length].
  rewrite str_drop_snoc by lia.
  change fence_close with ("``" +:+ String "`" "").
  intros [_ [=]]%str_snoc_inj.
Qed.

Lemma str_concat_app l1 l2 : str_concat (l1 ++ l2) = str_concat l1 +:+ str_concat l2.
Proof.
  induction l1 as [|x l1 IH]; [done|]. cbn [app str_concat foldr].
  fold (str_concat (l1 ++ l2)). fold (str_concat l1). by rewrite IH, str_app_assoc.
Qed.

Lemma fenced_length b : String.length (fenced b) = String.length b + 7.
Proof.
  unfold fenced. rewrite !str_length_app.
  change (String.length fence_open) with 4.
  change (String.length fence_close) with 3. lia.
Qed.

Lemma pages_loop_spec names bs b done cur :
  pages_loop names (fenced <$> bs) (fence_open +:+ b) = (done, cur) →
  open_body b →
  ∃ bs' b',
    done = fenced <$> bs' ∧ cur = fence_open +:+ b' ∧ open_body b'
    ∧ str_concat bs' +:+ b'
      = str_concat bs +:+ b
        +:+ str_concat ((λ x, x +:+ String newline "") <$> names)
    ∧ ((∀ x, x ∈ names → String.length x ≤ 2040) →
       String.length b ≤ 2041 → Forall (λ y, String.length y ≤ 2041) bs →
       String.length b' ≤ 2041 ∧ Forall (λ y, String.length y ≤ 2041) bs').
Proof.
  revert bs b. induction names as [|x names IH]; intros bs b; cbn [pages_loop].
  - intros [= <- <-] Hb. exists bs, b. cbn. rewrite str_app_nil_r.
    by split_and!.
  - case_decide as Hfit.
    + rewrite str_app_assoc. intros H Hb.
      destruct (IH _ _ H) as (bs' & b' & -> & -> & Hb' & Hcat & Hlen).
      { right. exists (b +:+ x). by rewrite str_app_assoc. }
      exists bs', b'. split_and!; [done..| |].
      * rewrite Hcat. cbn [fmap list_fmap str_concat foldr].
        by rewrite !str_app_assoc.
      * intros Hx Hlb Hbs. apply Hlen; [|clear Hlen|done].
        -- intros y Hy. by apply Hx, list_elem_of_further.
        -- rewrite !str_length_app in Hfit |- *. cbn [String.length] in Hfit |- *.
           change (String.length fence_open) with 4 in Hfit. lia.
    + replace ((fenced <$> bs) ++ [(fence_open +:+ b) +:+ fence_close])
        with (fenced <$> (bs ++ [b])).
      2:{ rewrite fmap_app. cbn. unfold fenced. by rewrite str_app_assoc. }
      intros H Hb.
      destruct (IH _ _ H) as (bs' & b' & -> & -> & Hb' & Hcat & Hlen).
      { right. by exists x. }
      exists bs', b'. split_and!; [done..| |].
      * rewrite Hcat, str_concat_app. cbn [fmap list_fmap str_concat foldr].
        by rewrite !str_app_assoc, str_app_nil_l.
      * intros Hx Hlb Hbs. apply Hlen.
        -- intros y Hy. by apply Hx, list_elem_of_further.
        -- rewrite str_length_app. cbn.
           specialize (Hx x (list_elem_of_here _ _)). lia.
        -- apply Forall_app. split; [done|]. by apply Forall_singleton.
Qed.

(** X15. The pages of [plugins loaded]. Every page is one code fence, the
    bodies of the pages put together are the names, one per line and in
    their order, and when no name is longer than 2040 characters no page is
    longer than 2048. *)
Theorem loaded_pages_spec (names : list string) :
  ∃ bodies,
    loaded_pages names = fenced <$> bodies
    ∧ bodies ≠ []
    ∧ str_concat bodies
      = str_concat ((λ x, x +:+ String newline "") <$> names)
    ∧ ((∀ x, x ∈ names → String.length x ≤ 2040) →
       ∀ page, page ∈ loaded_pages names → String.length page ≤ 2048).
Proof.
  unfold loaded_pages.
  destruct (pages_loop names [] fence_open) as [done cur] eqn:E.
  destruct (pages_loop_spec names [] "" done cur) as (bs & b & -> & -> & Hb & Hcat & Hlen).
  { by rewrite str_app_nil_r. }
  { by left. }
  assert (str_last 3 (fence_open +:+ b) ≠ fence_close) as Hopen.
  { destruct Hb as [->|[t ->]].
    - by rewrite str_app_nil_r.
    - rewrite <- str_app_assoc. apply str_last_newline. }
  rewrite decide_True by done.
  exists (bs ++ [b]). split_and!.
  - rewrite fmap_app. cbn. unfold fenced. by rewrite str_app_assoc.
  - by intros [_ ?]%app_eq_nil.
  - rewrite str_concat_app. cbn [str_concat foldr]. rewrite str_app_nil_r.
    rewrite Hcat. by cbn.
  - intros Hx page Hpage. destruct Hlen as [Hlb Hbs]; [done|cbn; lia|done|].
    apply elem_of_app in Hpage as [Hpage|Hpage].
    + apply list_elem_of_fmap in Hpage as (y & -> & Hy).
      rewrite Forall_forall in Hbs. specialize (Hbs _ Hy).
      rewrite fenced_length. lia.
    + apply list_elem_of_singleton in Hpage as ->.
      rewrite !str_length_app.
      change (String.length fence_open) with 4.
      change (String.length fence_close) with 3. lia.
Qed.

(** ** The page of [plugins registry] *)

Lemma find_index_spec names n i r :
  find_index names n i = r →
  ((n ∉ names) ∧ r = 0%Z)
  ∨ ∃ j, names !! j = Some n ∧ (n ∉ take j names) ∧ r = (i + Z.of_nat j)%Z.
Proof.
  revert i. induction names as [|x names IH]; intros i; cbn [find_index].
  - intros <-. left. split; [apply not_elem_of_nil|done].
  - case_decide as Hx.
    + intros <-. right. exists 0. subst x. cbn.
      split_and!; [done|apply not_elem_of_nil|lia].
    + intros H. destruct (IH _ H) as [[Hn ->]|(j & Hj & Hnj & ->)].
      * left. split; [|done]. by intros [?|?]%elem_of_cons.
      * right. exists (S j). cbn. split_and!; [done| |lia].
        by intros [?|?]%elem_of_cons.
Qed.

Lemma find_index_at names n i j :
  names !! j = Some n → n ∉ take j names →
  find_index names n i = (i + Z.of_nat j)%Z.
Proof.
  revert i j. induction names as [|x names IH]; intros i j; [done|].
  cbn [find_index]. destruct j as [|j]; cbn.
  - intros [= ->] _. rewrite decide_True by done. lia.
  - intros Hj Hn. rewrite decide_False.
    + rewrite (IH _ j) by (done || by intros ?; apply Hn, list_elem_of_further).
      lia.
    + intros ->. apply Hn, list_elem_of_here.
Qed.

Lemma find_index_zero names n :
  find_index names n 0 = 0%Z ↔ n ∉ names ∨ head names = Some n.
Proof.
  split.
  - intros E.
    destruct (find_index_spec names n 0 _ E) as [[Hn _]|(j & Hj & Hn & Hz)];
      [by left|].
    right. assert (j = 0) as -> by lia. by destruct names.
  - intros [Hn|Hh].
    + destruct (find_index_spec names n 0 _ eq_refl) as [[_ E]|(j & Hj & _)];
        [done|].
      exfalso. apply Hn. by eapply list_elem_of_lookup_2.
    + destruct names as [|x names]; [done|]. injection Hh as ->.
      rewrite (find_index_at (n :: names) n 0 0); [done..|].
      apply not_elem_of_nil.
Qed.

(** The three ways the command goes on, by the argument. *)
Lemma registry_page_cases (names : list string) (arg : registry_arg) :
  registry_page names arg
  = match arg with
    | ArgNone => Paginate 0
    | ArgStr n =>
        if decide (find_index names n 0 = 0%Z) then AnswerNotFound
        else Paginate (find_index names n 0)
    | ArgInt k =>
        if decide (registry_index names (ArgInt k) = 0%Z) then RaiseTypeError
        else Paginate (registry_index names (ArgInt k))
    end.
Proof.
  unfold registry_page. destruct arg as [|k|n].
  - cbn. by rewrite andb_false_r.
  - rewrite (bool_decide_eq_false_2 (ArgInt k = ArgNone)) by done.
    cbn [negb]. rewrite andb_true_r.
    case_bool_decide; [by rewrite decide_True|by rewrite decide_False].
  - rewrite (bool_decide_eq_false_2 (ArgStr n = ArgNone)) by done.
    cbn [negb registry_index]. rewrite andb_true_r.
    case_bool_decide; [by rewrite decide_True|by rewrite decide_False].
Qed.

(** X16. How [plugins registry] goes on after its argument is read. It
    sets the paginator to an index in three cases: without an argument, to
    0; with a name whose first entry is not the first of the registry, to
    the place of that entry; with a number [k], to [k - 1] or to the last
    entry when [k] is too large, when [k] is at least 2 and there are at
    least two entries, and to -1 when the registry is empty. It answers
    that no such plugin was found for a name that is not there, and also
    for the name of the first entry. For a number with a registry that is
    not empty, when [k] is at most 1 or there is one entry only, it raises
    [TypeError] and answers nothing. *)
Theorem registry_page_spec (names : list string) (arg : registry_arg) :
  (∀ i, registry_page names arg = Paginate i ↔
     (arg = ArgNone ∧ i = 0%Z)
     ∨ (∃ n j, arg = ArgStr n ∧ 0 < j ∧ names !! j = Some n
               ∧ (n ∉ take j names) ∧ i = Z.of_nat j)
     ∨ (∃ k, arg = ArgInt k
             ∧ ((names = [] ∧ i = (-1)%Z)
                ∨ (2 ≤ k ∧ 2 ≤ Z.of_nat (length names)
                   ∧ i = Z.min (k - 1) (Z.of_nat (length names) - 1)))%Z))
  ∧ (registry_page names arg = AnswerNotFound ↔
     ∃ n, arg = ArgStr n ∧ ((n ∉ names) ∨ head names = Some n))
  ∧ (registry_page names arg = RaiseTypeError ↔
     ∃ k, arg = ArgInt k ∧ names ≠ []
          ∧ ((k ≤ 1)%Z ∨ length names = 1)).
Proof.
  rewrite registry_page_cases. split_and!.
  - intros i. destruct arg as [|k|n].
    + split.
      * intros [= <-]. by left.
      * intros [[_ ->]|[(?&?&?&_)|(?&?&_)]]; done.
    + cbn [registry_index]. split.
      * intros H. right; right. exists k. split; [done|].
        destruct names as [|x names]; cbn [length] in *.
        -- left. split; [done|]. revert H.
           repeat case_decide; try done; try lia; intros [= <-]; lia.
        -- right. revert H.
           repeat case_decide; try done; try lia; intros [= <-]; lia.
      * intros [[? _]|[(?&?&?&_)|(k' & [= <-] & H)]]; [done..|].
        destruct H as [[-> ->]|(Hk & Hlen & ->)]; cbn [length].
        -- repeat case_decide; try lia; f_equal; lia.
        -- repeat case_decide; try lia; f_equal; lia.
    + split.
      * intros H. right; left.
        destruct (find_index_spec names n 0 _ eq_refl) as [[_ E]|(j & Hj & Hn & E)].
        -- rewrite E in H. by rewrite decide_True in H.
        -- rewrite E in H. case_decide as Hz; [done|]. injection H as <-.
           exists n, j. split_and!; [done|lia|done|done|lia].
      * intros [[? _]|[(n' & j & [= <-] & Hpos & Hj & Hn & ->)|(?&?&_)]]; [done| |done].
        rewrite (find_index_at names n 0 j) by done.
        rewrite Z.add_0_l. by rewrite decide_False by lia.
  - destruct arg as [|k|n].
    + split; [done|]. by intros (? & ? & _).
    + split; [by case_decide|]. by intros (? & ? & _).
    + split.
      * case_decide as E; [|done]. intros _. exists n.
        split; [done|]. by apply find_index_zero.
      * intros (n' & [= <-] & E). apply find_index_zero in E.
        by rewrite decide_True.
  - destruct arg as [|k|n].
    + split; [done|]. by intros (? & ? & _).
    + cbn [registry_index]. split.
      * intros H. exists k. split; [done|].
        destruct names as [|x names]; cbn [length] in *.
        -- exfalso. revert H. repeat case_decide; try done; lia.
        -- split; [done|]. revert H.
           repeat case_decide; try done; intros _; lia.
      * intros (k' & [= <-] & Hne & Hk).
        destruct names as [|x names]; [done|]. cbn [length] in *.
        repeat case_decide; try done; lia.
    + split; [by case_decide|]. by intros (? & ? & _).
Qed.

(** ** Install directories *)

Lemma root_of_other c s : Ascii.eqb "/" c = false → root_of (String c s) = None.
Proof. intros H. by destruct c as [[] [] [] [] [] [] [] []]. Qed.

Lemma has_root_other s l : contains "/" s = false → has_root (s :: l) = false.
Proof.
  destruct s as [|c s]; [done|]. cbn [contains].
  destruct (Ascii.eqb "/" c) eqn:Hc; [done|]. intros _.
  by destruct c as [[] [] [] [] [] [] [] []].
Qed.

Lemma parts_segment s : segment s → parts s = [s].
Proof.
  intros (Hne & Hdot & _ & Hsl). unfold parts. rewrite split_on_none by done.
  destruct s as [|c s]; [done|]. cbn [contains] in Hsl.
  destruct (Ascii.eqb "/" c) eqn:Hc; [done|].
  rewrite root_of_other by done. cbn [option_list app].
  by rewrite filter_cons_True.
Qed.

Lemma plugin_path_plain p :
  plain p →
  plugin_path p = ["plugins"; user p; repo p; name p +:+ "-" +:+ branch p].
Proof.
  intros ((Hu1 & Hu2 & Hu2' & Hu3) & (Hr1 & Hr2 & Hr2' & Hr3) & Hn & Hh & Hb).
  assert (contains "-" (name p +:+ "-" +:+ branch p) = true) as Hd.
  { rewrite !str_contains_app. cbn. by rewrite orb_true_r. }
  assert (contains "/" (name p +:+ "-" +:+ branch p) = false) as Hs.
  { rewrite !str_contains_app, Hn, Hb. done. }
  unfold plugin_path, joinpath.
  rewrite (parts_segment (user p)), (parts_segment (repo p)) by done.
  rewrite (parts_segment (name p +:+ "-" +:+ branch p)).
  2:{ split_and!; [| | |done]; intros E; by rewrite E in Hd. }
  change (parts "plugins") with ["plugins"].
  unfold join. by rewrite !has_root_other.
Qed.

Lemma abs_path_plain p :
  plain p →
  abs_path p
  = base ++ ["plugins"; user p; repo p; name p +:+ "-" +:+ branch p].
Proof.
  intros Hp. change (abs_path p) with (join base (plugin_path p)).
  rewrite plugin_path_plain by done. done.
Qed.

Lemma parent_length (l : path) : 2 ≤ length l → length (parent l) < length l.
Proof.
  intros Hl. pose proof (parent_prefix l) as [k Hk].
  destruct k as [|x k].
  - exfalso. rewrite app_nil_r in Hk. unfold parent in Hk.
    destruct l as [|a [|b l]]; cbn in Hl; [lia..|].
    destruct (exists_last (l := a :: b :: l)) as (l' & z & E); [done|].
    rewrite E, removelast_last in Hk.
    apply (f_equal length) in Hk. rewrite length_app in Hk. cbn in Hk. lia.
  - rewrite Hk at 2. rewrite length_app. cbn. lia.
Qed.

Lemma abs_path_plain_eq (p q : Plugin) :
  plain p → plain q → abs_path p = abs_path q → p = q.
Proof.
  intros Hp Hq E. rewrite !abs_path_plain in E by done.
  apply app_inv_head in E. injection E as Hu Hr Hnb.
  destruct Hp as (_ & _ & _ & Hhp & _), Hq as (_ & _ & _ & Hhq & _).
  change ("-" +:+ ?x) with (String "-" x) in Hnb.
  apply (str_split_unique "-" _ _ _ _ Hhp Hhq) in Hnb as [Hn Hb].
  destruct p, q. cbn in *. congruence.
Qed.

Lemma abs_path_plain_length (p : Plugin) :
  plain p → length (abs_path p) = length base + 4.
Proof. intros Hp. rewrite abs_path_plain by done. by rewrite length_app. Qed.

(** X17. Install directories do not collide. Take two identities whose
    owner and repository are one path segment each (not empty, neither [.]
    nor [..], no slash), whose name and branch hold no slash and whose name
    holds no hyphen. Their install paths are [base] followed by four parts,
    none of them [..], and the install path of one is the install path of
    the other, or goes on from it, only when they are the same identity. *)
Theorem abs_path_inj (p q : Plugin) :
  plain p → plain q →
  (∃ l, abs_path p = base ++ l ∧ length l = 4 ∧ ".." ∉ l)
  ∧ (abs_path p `prefix_of` abs_path q → p = q).
Proof.
  intros Hp Hq. split.
  - eexists. split; [by apply abs_path_plain|]. split; [done|].
    destruct Hp as ((_ & _ & Hu & _) & (_ & _ & Hr & _) & _ & Hh & _).
    intros H. apply elem_of_cons in H as [H|H]; [discriminate H|].
    apply elem_of_cons in H as [H|H]; [done|].
    apply elem_of_cons in H as [H|H]; [done|].
    apply list_elem_of_singleton in H.
    assert (contains "-" ".." = contains "-" (name p +:+ "-" +:+ branch p))
      as E by (by rewrite <- H).
    rewrite !str_contains_app in E. cbn in E. by rewrite orb_true_r in E.
  - intros Hpre. apply abs_path_plain_eq; [done..|].
    apply prefix_length_eq; [done|].
    by rewrite !abs_path_plain_length.
Qed.

(** X18. [remove] spares the other plugins. When [remove] is given an
    identity, the install directory of every other identity, and every
    path below it whose name holds no [..], is on disk afterwards as it was
    before (for identities whose owner and repository are one path segment
    each, whose name and branch hold no slash and whose name holds no
    hyphen, and a [base] without [..]). *)
Theorem plugins_remove_spares (n : string) (s : state) (p q : Plugin) (f : path) :
  parse_user_input n false s = Ok (Some p) s →
  plain p → plain q → q ≠ p →
  abs_path q `prefix_of` f → ".." ∉ f →
  fs (final (plugins_remove n s)) !! f = fs s !! f.
Proof.
  intros Hparse Hp Hq Hne Hf _.
  destruct (decide (str p ∈ config_plugins s)) as [Hin|Hin].
  2:{ by rewrite (plugins_remove_absent n s p). }
  destruct (plugins_remove_run n s p Hparse Hin) as (s' & -> & Hrest).
  destruct Hrest as (_ & _ & _ & _ & _ & _ & _ & Hch). cbn [final].
  destruct (decide (fs s' !! f = fs s !! f)) as [|Hd]; [done|]. exfalso.
  pose proof (abs_path_plain_length p Hp) as Hlp.
  pose proof (abs_path_plain_length q Hq) as Hlq.
  assert (2 ≤ length (abs_path p)) as H2 by lia.
  pose proof (parent_length _ H2) as Hpar.
  pose proof (prefix_length _ _ (parent_prefix (parent (abs_path p)))) as Hpp.
  destruct (Hch f Hd) as [Hpre|[->| ->]].
  - apply Hne. symmetry. apply abs_path_plain_eq; [done..|].
    destruct (prefix_weak_total _ _ _ Hpre Hf) as [H|H].
    + apply prefix_length_eq in H; [done|lia].
    + apply prefix_length_eq in H; [done|lia].
  - apply prefix_length in Hf. lia.
  - apply prefix_length in Hf. lia.
Qed.

(** ** The pages of [plugins registry compact] *)

Lemma compact_loop_spec fmts done cur :
  str_concat (compact_loop fmts done cur)
  = str_concat done +:+ cur +:+ str_concat fmts
  ∧ compact_loop fmts done cur ≠ []
  ∧ ((∀ x, x ∈ fmts → String.length x ≤ 2048) →
     String.length cur ≤ 2048 → Forall (λ y, String.length y ≤ 2048) done →
     Forall (λ y, String.length y ≤ 2048) (compact_loop fmts done cur)).
Proof.
  revert done cur. induction fmts as [|fmt fmts IH]; intros done cur;
    cbn [compact_loop].
  - split_and!.
    + rewrite str_concat_app. cbn. by rewrite !str_app_nil_r.
    + by intros [_ ?]%app_eq_nil.
    + intros _ Hc Hd. apply Forall_app. split; [done|]. by apply Forall_singleton.
  - case_decide as Hfit.
    + destruct (IH done (cur +:+ fmt)) as (Hcat & Hne & Hlen).
      split_and!; [|done|].
      * rewrite Hcat. cbn [str_concat foldr]. by rewrite !str_app_assoc.
      * intros Hx Hc Hd. apply Hlen; [|by rewrite str_length_app; lia|done].
        intros y Hy. by apply Hx, list_elem_of_further.
    + destruct (IH (done ++ [cur]) fmt) as (Hcat & Hne & Hlen).
      split_and!; [|done|].
      * rewrite Hcat, str_concat_app. cbn [str_concat foldr].
        by rewrite !str_app_assoc, str_app_nil_l.
      * intros Hx Hc Hd. apply Hlen.
        -- intros y Hy. by apply Hx, list_elem_of_further.
        -- apply Hx, list_elem_of_here.
        -- apply Forall_app. split; [done|]. by apply Forall_singleton.
Qed.

(** X19. The pages of [plugins registry compact]. The pages put together
    are the lines of the registry in their order, there is always a page
    (an empty one for an empty registry), and when no line is longer than
    2048 characters no page is. *)
Theorem compact_pages_spec (fmts : list string) :
  str_concat (compact_pages fmts) = str_concat fmts
  ∧ compact_pages fmts ≠ []
  ∧ ((∀ x, x ∈ fmts → String.length x ≤ 2048) →
     ∀ page, page ∈ compact_pages fmts → String.length page ≤ 2048).
Proof.
  unfold compact_pages.
  destruct (compact_loop_spec fmts [] "") as (Hcat & Hne & Hlen).
  split_and!; [|done|].
  - rewrite Hcat. cbn. by rewrite str_app_nil_l.
  - intros Hx page Hpage.
    assert (Forall (λ y, String.length y ≤ 2048) (compact_loop fmts [] "")) as Hall.
    { apply Hlen; [done|cbn; lia|constructor]. }
    rewrite Forall_forall in Hall. by apply Hall.
Qed.

(** ** Equality of identities *)

(** X20. Equality and hash of identities agree. [__eq__] compares the
    texts of two identities and [__hash__] hashes their fields. For
    identities whose owner and repository hold no slash and whose name
    holds no [@], the texts are equal only when the fields are, so that
    equal identities have the same hash. *)
Theorem eq_hash_agree {H : Type} (h : string * string * string * string → H)
    (p q : Plugin) :
  contains "/" (user p) = false → contains "/" (repo p) = false →
  contains "@" (name p) = false →
  contains "/" (user q) = false → contains "/" (repo q) = false →
  contains "@" (name q) = false →
  __eq__ p q = true → p = q ∧ __hash__ h p = __hash__ h q.
Proof.
  intros Hup Hrp Hnp Huq Hrq Hnq E. apply bool_decide_eq_true in E.
  assert (p = q) as ->; [|done].
  destruct p as [u1 r1 n1 b1], q as [u2 r2 n2 b2].
  unfold str in E. cbn [user repo name branch] in *.
  change ("/" +:+ ?x) with (String "/" x) in E.
  apply (str_split_unique "/" u1 _ u2 _ Hup Huq) in E as [-> E].
  change ("/" +:+ ?x) with (String "/" x) in E.
  apply (str_split_unique "/" r1 _ r2 _ Hrp Hrq) in E as [-> E].
  change ("@" +:+ ?x) with (String "@" x) in E.
  by apply (str_split_unique "@" n1 _ n2 _ Hnp Hnq) in E as [-> ->].
Qed.

(** ** [update] of one plugin *)

Lemma download_plugin_trace env p force s :
  let s' := final (download_plugin env p force s) in
  trace s' = trace s ∨ trace s' = trace s ++ [EvGet (url p)].
Proof.
  intros s'.
  destruct (download_plugin_grows env p force s)
    as [(_&_&_&_&_&_&_&_&Ht&_)|(sa & (_&_&_&_&_&_&_&_&Ht&_) & (_&_&_&_&_&_&_&_&Ht'&_))].
  - by left.
  - right. fold s' in Ht'. rewrite Ht'. cbn. by rewrite Ht.
Qed.

(** The unloading of [update_plugin], in its [try]. *)
Lemma update_unload ext s :
  ∃ su, try_except (unload_extension ext) is_ExtensionError (ret tt) s = Ok tt su
        ∧ extensions su = extensions s ∖ {[ext]}
        ∧ loaded_plugins su = loaded_plugins s
        ∧ fs su = fs s ∧ trace su = trace s.
Proof.
  unfold try_except, unload_extension. rewrite bind_run. cbn [get].
  case_decide as Hext.
  - eexists. split; [done|]. by cbn.
  - exists s. cbn. split_and!; [done| |done..]. set_solver.
Qed.

(** X21. [update] of a plugin of the list. When it returns, the archive
    was requested once and the update answered last, the install directory
    is on disk, and with plugins enabled the extension is loaded, was set up
    without error and the plugin is in the loaded set (with plugins
    disabled nothing is loaded or unloaded). When it raises, nothing was
    answered to the user, the loaded set is as before and no extension was
    added. *)
Theorem update_plugin_outcome (env : Env) (n : string) (s : state) (p : Plugin) :
  parse_user_input n true s = Ok (Some p) s →
  str p ∈ config_plugins s →
  match update_plugin env n s with
  | Ok _ s' =>
      trace s' = trace s ++ [EvGet (url p); EvSend Updated]
      ∧ fs s' !! abs_path p = Some Dir
      ∧ (if enable_plugins s
         then extensions s' = {[ext_string p]} ∪ extensions s
              ∧ loaded_plugins s' = {[p]} ∪ loaded_plugins s
              ∧ setup_ok env (ext_string p) = true
         else extensions s' = extensions s
              ∧ loaded_plugins s' = loaded_plugins s)
  | Raise e s' =>
      (trace s' = trace s ∨ trace s' = trace s ++ [EvGet (url p)])
      ∧ loaded_plugins s' = loaded_plugins s
      ∧ extensions s' ⊆ extensions s
  end.
Proof.
  intros Hparse Hin. unfold update_plugin.
  rewrite (bind_ok _ _ _ _ _ Hparse), bind_run. cbn [get].
  rewrite decide_False by (by intros ?). rewrite bind_run.
  pose proof (download_plugin_trace env p true s) as Htr.
  pose proof (download_plugin_same_but_disk env p true s)
    as (_ & _ & _ & _ & Hext & _ & Hl & _).
  destruct (download_plugin env p true s) as [[] s1|e s1] eqn:Hdl;
    cbn [final] in Htr, Hext, Hl.
  2:{ split_and!; [done..|]. by rewrite Hext. }
  apply download_plugin_forced_inv in Hdl as (Ht1 & Hdir & _).
  rewrite bind_run. destruct (enable_plugins s).
  - rewrite bind_run.
    destruct (update_unload (ext_string p) s1) as (su & -> & Heu & Hlu & Hfu & Htu).
    pose proof (load_plugin_cases env p su) as Hload.
    destruct (load_plugin env p su) as [[] s3|e s3].
    + destruct Hload as (_ & _ & _ & Hok & He3 & Hl3 & Hf3 & Ht3 & _).
      cbn. split_and!.
      * rewrite Ht3, Htu, Ht1, <- app_assoc. done.
      * by rewrite Hf3, Hfu.
      * rewrite He3, Heu, Hext. apply set_eq. intros x.
        destruct (decide (x = ext_string p)); set_solver.
      * by rewrite Hl3, Hlu, Hl.
      * done.
    + destruct Hload as [_ ->]. split_and!.
      * right. by rewrite Htu.
      * by rewrite Hlu.
      * rewrite Heu, Hext. set_solver.
  - cbn. split_and!; [|done..]. by rewrite Ht1, <- app_assoc.
Qed.

End properties.

(** * The configuration manager *)

Section config.

Context {V : Type} `{EqDecision V}.
Variable lower : string → string.
Variables public_keys private_keys protected_keys : list (string * V).

Local Abbreviation dict := (list (string * V)).
Local Abbreviation keys := ConfigManager.keys.
Local Abbreviation dict_get := ConfigManager.dict_get.
Local Abbreviation dict_set := ConfigManager.dict_set.
Local Abbreviation dict_del := ConfigManager.dict_del.
Local Abbreviation defaults :=
  (ConfigManager.defaults public_keys private_keys protected_keys).
Local Abbreviation all_keys :=
  (ConfigManager.all_keys public_keys private_keys protected_keys).
Local Abbreviation lower_case_keys :=
  (ConfigManager.lower_case_keys lower public_keys private_keys protected_keys).
Local Abbreviation valid :=
  (ConfigManager.valid public_keys private_keys protected_keys).
Local Abbreviation changed :=
  (ConfigManager.changed public_keys private_keys protected_keys).
Local Abbreviation __setitem__ :=
  (ConfigManager.__setitem__ lower public_keys private_keys protected_keys).
Local Abbreviation __getitem__ :=
  (ConfigManager.__getitem__ lower public_keys private_keys protected_keys).
Local Abbreviation remove :=
  (ConfigManager.remove lower public_keys private_keys protected_keys).
Local Abbreviation filter_valid :=
  (ConfigManager.filter_valid lower public_keys private_keys).
Local Abbreviation filter_default :=
  (ConfigManager.filter_default lower public_keys private_keys protected_keys).
Local Abbreviation update :=
  (ConfigManager.update lower public_keys private_keys protected_keys).
Local Abbreviation refresh :=
  (ConfigManager.refresh lower public_keys private_keys protected_keys).
Local Abbreviation set_cache := ConfigManager.set_cache.
Local Abbreviation self_of := ConfigManager.self_of.
Local Abbreviation _cache := ConfigManager._cache.
Local Abbreviation Return := ConfigManager.Return.
Local Abbreviation Raise := ConfigManager.Raise.
Local Abbreviation InvalidConfigError := ConfigManager.InvalidConfigError.
Local Abbreviation KeyError := ConfigManager.KeyError.

(** ** Dicts *)

Lemma dict_get_None k (d : dict) : dict_get k d = None ↔ k ∉ keys d.
Proof.
  unfold ConfigManager.keys. induction d as [|[k' v] d IH]; cbn.
  - split; [intros _; apply not_elem_of_nil|done].
  - case_decide as E.
    + split; [done|]. intros []. subst. apply list_elem_of_here.
    + rewrite IH, not_elem_of_cons. naive_solver.
Qed.

Lemma dict_get_is_Some k (d : dict) : is_Some (dict_get k d) ↔ k ∈ keys d.
Proof.
  destruct (dict_get k d) as [v|] eqn:E.
  - split; [intros _|by eexists].
    destruct (decide (k ∈ keys d)) as [|Hn]; [done|].
    apply dict_get_None in Hn. congruence.
  - apply dict_get_None in E. split; [by intros [? [=]]|done].
Qed.

Lemma dict_get_elem k v (d : dict) : dict_get k d = Some v → (k, v) ∈ d.
Proof.
  induction d as [|[k' v'] d IH]; cbn; [done|]. case_decide as E.
  - intros [= ->]. subst. apply list_elem_of_here.
  - intros H. by apply list_elem_of_further, IH.
Qed.

Lemma dict_get_set k v (d : dict) : dict_get k (dict_set k v d) = Some v.
Proof.
  induction d as [|[k' v'] d IH]; cbn.
  - by rewrite decide_True.
  - case_decide as E; cbn; [by rewrite decide_True|by rewrite decide_False].
Qed.

Lemma dict_get_set_ne k k' v (d : dict) :
  k ≠ k' → dict_get k' (dict_set k v d) = dict_get k' d.
Proof.
  intros Hne. induction d as [|[k0 v0] d IH]; cbn.
  - by rewrite decide_False.
  - case_decide as E; cbn.
    + subst. by rewrite !decide_False by done.
    + by rewrite IH.
Qed.

Lemma dict_set_fresh k v (d : dict) : k ∉ keys d → dict_set k v d = d ++ [(k, v)].
Proof.
  unfold ConfigManager.keys. induction d as [|[k' v'] d IH]; cbn; [done|].
  rewrite not_elem_of_cons. intros [Hne Hd].
  rewrite decide_False by done. by rewrite IH.
Qed.

Lemma keys_set_old k v (d : dict) : k ∈ keys d → keys (dict_set k v d) = keys d.
Proof.
  unfold ConfigManager.keys. induction d as [|[k' v'] d IH]; cbn.
  - by intros ?%elem_of_nil.
  - intros Hk. case_decide as E; cbn; [done|]. f_equal. apply IH.
    apply elem_of_cons in Hk as [->|Hk]; done.
Qed.

Lemma keys_set k v (d : dict) :
  keys (dict_set k v d) = if decide (k ∈ keys d) then keys d else keys d ++ [k].
Proof.
  case_decide as Hk.
  - by apply keys_set_old.
  - rewrite dict_set_fresh by done. unfold ConfigManager.keys.
    by rewrite fmap_app.
Qed.

Lemma elem_of_keys_set k' k v (d : dict) :
  k' ∈ keys (dict_set k v d) ↔ k' = k ∨ k' ∈ keys d.
Proof.
  rewrite keys_set. case_decide as Hk.
  - split; [by right|]. by intros [->|?].
  - rewrite elem_of_app, list_elem_of_singleton. tauto.
Qed.

Lemma NoDup_keys_set k v (d : dict) :
  NoDup (keys d) → NoDup (keys (dict_set k v d)).
Proof.
  intros Hd. rewrite keys_set. case_decide as Hk; [done|].
  apply NoDup_app. split_and!; [done| |apply NoDup_singleton].
  intros x Hx ->%list_elem_of_singleton. done.
Qed.

Lemma keys_del k (d : dict) : keys (dict_del k d) = filter (λ x, x ≠ k) (keys d).
Proof.
  unfold ConfigManager.keys, ConfigManager.dict_del.
  induction d as [|[k' v'] d IH]; [done|].
  rewrite fmap_cons, !filter_cons. cbn [fst]. case_decide; cbn; by rewrite IH.
Qed.

Lemma elem_of_keys_del k' k (d : dict) :
  k' ∈ keys (dict_del k d) ↔ k' ≠ k ∧ k' ∈ keys d.
Proof. rewrite keys_del. by rewrite list_elem_of_filter. Qed.

Lemma NoDup_keys_del k (d : dict) : NoDup (keys d) → NoDup (keys (dict_del k d)).
Proof. rewrite keys_del. apply NoDup_filter. Qed.

Lemma dict_get_del_ne k k' (d : dict) :
  k ≠ k' → dict_get k' (dict_del k d) = dict_get k' d.
Proof.
  intros Hne. unfold ConfigManager.dict_del.
  induction d as [|[k0 v0] d IH]; [done|].
  rewrite filter_cons. cbn [fst]. case_decide as E; cbn.
  - by rewrite IH.
  - rewrite IH. subst. by rewrite decide_False.
Qed.

Lemma dict_del_absent k (d : dict) : k ∉ keys d → dict_del k d = d.
Proof.
  unfold ConfigManager.keys, ConfigManager.dict_del.
  induction d as [|[k' v'] d IH]; [done|].
  rewrite fmap_cons, not_elem_of_cons. cbn [fst]. intros [Hne Hd].
  rewrite filter_cons_True by (cbn; congruence). by rewrite IH.
Qed.

Lemma dict_get_filter (P : string * V → Prop) `{!∀ kv, Decision (P kv)}
    k (d : dict) :
  NoDup (keys d) →
  dict_get k (filter P d)
  = dict_get k d ≫= λ v, if decide (P (k, v)) then Some v else None.
Proof.
  unfold ConfigManager.keys. induction d as [|[k' v'] d IH]; [done|].
  rewrite fmap_cons, NoDup_cons. cbn [fst]. intros [Hk Hd].
  rewrite filter_cons. cbn [ConfigManager.dict_get].
  destruct (decide (k' = k)) as [->|Hne].
  - cbn. case_decide as HP; cbn.
    + by rewrite decide_True.
    + apply dict_get_None. unfold ConfigManager.keys.
      intros ([k0 v0] & -> & [_ H0]%list_elem_of_filter)%list_elem_of_fmap.
      apply Hk. apply list_elem_of_fmap. by exists (k0, v0).
  - case_decide as HP; cbn.
    + rewrite decide_False by done. by apply IH.
    + by apply IH.
Qed.

Lemma elem_of_all_keys k : k ∈ all_keys ↔ is_Some (dict_get k defaults).
Proof.
  unfold ConfigManager.all_keys. rewrite elem_of_list_to_set.
  symmetry. apply dict_get_is_Some.
Qed.

(** ** [filter_default] on a valid cache *)

Lemma filter_default_loop (acc d : dict) :
  lower_case_keys →
  (∀ k, k ∈ keys d → k ∈ all_keys) →
  NoDup (keys acc ++ keys d) →
  foldl (λ filtered kv,
           match dict_get (lower kv.1) defaults with
           | None => filtered
           | Some default =>
               if decide (kv.2 ≠ default)
               then dict_set (lower kv.1) kv.2 filtered else filtered
           end) acc d
  = acc ++ filter changed d.
Proof.
  intros Hlow. revert acc. induction d as [|[k v] d IH]; intros acc Hk Hnd.
  - cbn. by rewrite app_nil_r.
  - cbn [foldl fst snd]. rewrite filter_cons.
    assert (k ∈ all_keys) as Hin.
    { apply Hk. unfold ConfigManager.keys. rewrite fmap_cons. apply list_elem_of_here. }
    rewrite (Hlow k Hin).
    destruct (proj1 (elem_of_all_keys k) Hin) as [default Hd]. rewrite Hd.
    assert (∀ k0, k0 ∈ keys d → k0 ∈ all_keys) as Hk'.
    { intros k0 H0. apply Hk. unfold ConfigManager.keys in *.
      rewrite fmap_cons. by apply list_elem_of_further. }
    unfold ConfigManager.keys in Hnd. rewrite fmap_cons in Hnd. cbn [fst] in Hnd.
    assert (k ∉ keys acc) as Hfresh.
    { apply NoDup_app in Hnd as (_ & Hdis & _). intros Ha.
      apply (Hdis k Ha), list_elem_of_here. }
    case_decide as Hv.
    + rewrite (decide_True (P := changed (k, v))).
      2:{ unfold ConfigManager.changed. cbn [fst snd]. rewrite Hd. congruence. }
      rewrite dict_set_fresh by done. rewrite IH; [|done|].
      * by rewrite <- app_assoc.
      * unfold ConfigManager.keys. rewrite fmap_app, <- app_assoc. done.
    + rewrite (decide_False (P := changed (k, v))).
      2:{ unfold ConfigManager.changed. cbn [fst snd]. rewrite Hd.
          intros Hc. apply Hc. congruence. }
      apply IH; [done|]. apply NoDup_app in Hnd as (Ha & Hdis & Hd').
      apply NoDup_app. split_and!; [done| |by apply NoDup_cons in Hd' as [_ ?]].
      intros x Hx Hxd. apply (Hdis x Hx). by apply list_elem_of_further.
Qed.

Lemma filter_default_valid (d : dict) :
  lower_case_keys →
  NoDup (keys d) → (∀ k, k ∈ keys d → k ∈ all_keys) →
  filter_default d = filter changed d.
Proof.
  intros Hlow Hnd Hk. unfold ConfigManager.filter_default.
  by rewrite filter_default_loop.
Qed.

Lemma update_lookup (self : ConfigManager.t) k :
  lower_case_keys → valid self →
  dict_get k (update self)
  = dict_get k (_cache self)
    ≫= λ v, if decide (dict_get k defaults = Some v) then None else Some v.
Proof.
  intros Hlow [Hnd Hk]. unfold ConfigManager.update.
  rewrite filter_default_valid, dict_get_filter by done.
  destruct (dict_get k (_cache self)) as [v|]; [|done]. cbn.
  unfold ConfigManager.changed. cbn [fst snd]. by repeat case_decide.
Qed.

(** ** The methods on a valid cache *)

Lemma valid_set (self : ConfigManager.t) k v :
  valid self → k ∈ all_keys → valid (set_cache self (dict_set k v (_cache self))).
Proof.
  intros [Hnd Hk] Hin. split; cbn.
  - by apply NoDup_keys_set.
  - intros k' [->|?]%elem_of_keys_set; [done|by apply Hk].
Qed.

Lemma valid_del (self : ConfigManager.t) k :
  valid self → valid (set_cache self (dict_del k (_cache self))).
Proof.
  intros [Hnd Hk]. split; cbn.
  - by apply NoDup_keys_del.
  - intros k' [_ ?]%elem_of_keys_del. by apply Hk.
Qed.

Lemma setitem_cases (self : ConfigManager.t) key item :
  ((lower key ∉ all_keys)
   ∧ __setitem__ self key item = Raise (InvalidConfigError (lower key)) self)
  ∨ (lower key ∈ all_keys
     ∧ __setitem__ self key item
       = Return tt (set_cache self (dict_set (lower key) item (_cache self)))).
Proof.
  unfold ConfigManager.__setitem__. case_decide as Hk; [by left|].
  by right.
Qed.

Lemma getitem_cases (self : ConfigManager.t) key :
  ((lower key ∉ all_keys)
   ∧ __getitem__ self key = Raise (InvalidConfigError (lower key)) self)
  ∨ (∃ v, lower key ∈ all_keys
          ∧ dict_get (lower key) (_cache self) = Some v
          ∧ __getitem__ self key = Return v self)
  ∨ (∃ d, lower key ∈ all_keys
          ∧ (lower key ∉ keys (_cache self))
          ∧ dict_get (lower key) defaults = Some d
          ∧ __getitem__ self key
            = Return d (set_cache self (_cache self ++ [(lower key, d)]))).
Proof.
  unfold ConfigManager.__getitem__. case_decide as Hk; [by left|].
  right. case_decide as Hc.
  - right. destruct (proj1 (elem_of_all_keys _) Hk) as [d Hd].
    exists d. split_and!; [done..|].
    unfold ConfigManager.subscript. rewrite Hd. cbn.
    rewrite dict_get_set. by rewrite dict_set_fresh.
  - left. apply dict_get_is_Some in Hc as [v Hv].
    exists v. split_and!; [done..|].
    unfold ConfigManager.subscript. by rewrite Hv.
Qed.

Lemma remove_cases (self : ConfigManager.t) key :
  ((lower key ∉ all_keys)
   ∧ remove self key = Raise (InvalidConfigError (lower key)) self)
  ∨ (∃ d, lower key ∈ all_keys
          ∧ dict_get (lower key) defaults = Some d
          ∧ remove self key
            = Return d (set_cache self
                          (dict_del (lower key) (_cache self) ++ [(lower key, d)]))).
Proof.
  unfold ConfigManager.remove. case_decide as Hk; [by left|].
  right.
  destruct (proj1 (elem_of_all_keys _) Hk) as [d Hd].
  exists d. split_and!; [done..|].
  unfold ConfigManager.subscript. rewrite Hd. cbn.
  rewrite dict_get_set. case_decide as Hc; cbn.
  - rewrite dict_set_fresh; [done|]. by intros [? _]%elem_of_keys_del.
  - rewrite dict_set_fresh by done. by rewrite dict_del_absent.
Qed.

Lemma valid_refresh_loop (db cache : dict) :
  NoDup (keys cache) → (∀ k, k ∈ keys cache → k ∈ all_keys) →
  let cache' :=
    foldl (λ cache kv,
             let k := lower kv.1 in
             if decide (k ∈ all_keys) then dict_set k kv.2 cache else cache)
          cache db in
  NoDup (keys cache') ∧ (∀ k, k ∈ keys cache' → k ∈ all_keys).
Proof.
  revert cache. induction db as [|[k v] db IH]; intros cache Hnd Hk; [done|].
  cbn [foldl fst snd]. case_decide as Hin.
  - apply IH; [by apply NoDup_keys_set|].
    intros k' [->|?]%elem_of_keys_set; [done|by apply Hk].
  - by apply IH.
Qed.

Lemma remove_ok (self self' : ConfigManager.t) key v :
  remove self key = Return v self' →
  lower key ∈ all_keys
  ∧ dict_get (lower key) defaults = Some v
  ∧ self' = set_cache self
              (dict_set (lower key) v (dict_del (lower key) (_cache self))).
Proof.
  destruct (remove_cases self key) as [[_ ->]|(d & Hk & Hd & ->)]; [done|].
  intros [= <- <-]. split_and!; [done..|].
  rewrite dict_set_fresh; [done|]. by intros [? _]%elem_of_keys_del.
Qed.

Lemma filter_valid_loop (acc data : dict) k :
  dict_get k
    (foldl (λ out kv,
              let k := lower kv.1 in
              if decide (k ∈ keys public_keys ∨ k ∈ keys private_keys)
              then dict_set k kv.2 out else out)
           acc data)
  = if decide (k ∈ keys public_keys ∨ k ∈ keys private_keys)
    then match last (omap (λ kv : string * V,
                             if decide (lower kv.1 = k) then Some kv.2 else None)
                          data) with
         | Some v => Some v
         | None => dict_get k acc
         end
    else dict_get k acc.
Proof.
  revert acc. induction data as [|[k0 v0] data IH]; intros acc.
  - cbn. by case_decide.
  - cbn [foldl omap list_omap fst snd]. rewrite IH. clear IH.
    destruct (decide (lower k0 = k)) as [<-|Hne].
    + case_decide as Hal; [|done].
      rewrite last_cons, dict_get_set. by destruct (last _).
    + assert (dict_get k
                (if decide (lower k0 ∈ keys public_keys ∨ lower k0 ∈ keys private_keys)
                 then dict_set (lower k0) v0 acc else acc)
              = dict_get k acc) as ->; [|done].
      case_decide; [|done]. by rewrite dict_get_set_ne.
Qed.

(** X22. The cache of the configuration stays valid. On a cache whose
    keys are names of the configuration, none twice, storing, reading and
    removing a setting and a refresh from the database leave such a cache;
    the three methods raise for a name that is not one of the configuration
    once put in lower case, then leaving the manager as it was, and for no
    other reason (the subscripts in them never fail); what reading and
    removing return is what the cache then holds. *)
Theorem config_stays_valid (self : ConfigManager.t) :
  valid self →
  (∀ key item,
     match __setitem__ self key item with
     | ConfigManager.Return _ self' =>
         valid self' ∧ dict_get (lower key) (_cache self') = Some item
     | ConfigManager.Raise e self' =>
         e = InvalidConfigError (lower key)
         ∧ (lower key ∉ all_keys) ∧ self' = self
     end)
  ∧ (∀ key,
       match __getitem__ self key with
       | ConfigManager.Return v self' =>
           valid self' ∧ dict_get (lower key) (_cache self') = Some v
       | ConfigManager.Raise e self' =>
           e = InvalidConfigError (lower key)
           ∧ (lower key ∉ all_keys) ∧ self' = self
       end)
  ∧ (∀ key,
       match remove self key with
       | ConfigManager.Return v self' =>
           valid self' ∧ dict_get (lower key) (_cache self') = Some v
       | ConfigManager.Raise e self' =>
           e = InvalidConfigError (lower key)
           ∧ (lower key ∉ all_keys) ∧ self' = self
       end)
  ∧ (∀ db, valid (refresh self db).2).
Proof.
  intros Hv. split_and!.
  - intros key item.
    destruct (setitem_cases self key item) as [[Hk ->]|[Hk ->]]; [done|].
    split; [by apply valid_set|]. cbn. apply dict_get_set.
  - intros key.
    destruct (getitem_cases self key)
      as [[Hk ->]|[(v & Hk & Hc & ->)|(d & Hk & Hc & Hd & ->)]]; [done..|].
    rewrite <- dict_set_fresh by done.
    split; [by apply valid_set|]. cbn. apply dict_get_set.
  - intros key. destruct (remove self key) as [v self'|e self'] eqn:E.
    + apply remove_ok in E as (Hk & Hd & ->).
      split; [|cbn; apply dict_get_set].
      apply (valid_set (set_cache self _)); [by apply valid_del|done].
    + destruct (remove_cases self key) as [[Hk E']|(d & _ & _ & E')];
        rewrite E' in E; [|done]. by injection E as <- <-.
  - intros db. destruct Hv as [Hnd Hk]. unfold ConfigManager.refresh, ConfigManager.valid.
    cbn [snd ConfigManager._cache]. by apply valid_refresh_loop.
Qed.

(** X23. Reading a setting is not seen by the database. [__getitem__]
    may write the default of a missing name into the cache, but the data
    [update] hands to the database after the read are the data it would
    have handed over before, whatever the key and whether the read raised
    or not. *)
Theorem getitem_update_same (self : ConfigManager.t) (key : string) :
  lower_case_keys →
  update (self_of (__getitem__ self key)) = update self.
Proof.
  intros Hlow.
  destruct (getitem_cases self key)
    as [[Hk ->]|[(v & Hk & Hc & ->)|(d & Hk & Hc & Hd & ->)]]; [done..|].
  unfold ConfigManager.update, ConfigManager.filter_default. cbn [ConfigManager.self_of ConfigManager.set_cache ConfigManager._cache].
  rewrite foldl_app. cbn [foldl fst snd].
  rewrite (Hlow _ Hk), Hd. by rewrite decide_False by (by intros []).
Qed.

(** X24. What [update] sends. For a valid cache the data handed to the
    database are the items of the cache whose value is not the default of
    their name, in the order of the cache: a setting is sent exactly when
    the cache holds it with a value other than its default. *)
Theorem update_sends_changes (self : ConfigManager.t) :
  lower_case_keys → valid self →
  update self = filter changed (_cache self)
  ∧ ∀ k v, dict_get k (update self) = Some v
           ↔ dict_get k (_cache self) = Some v ∧ dict_get k defaults ≠ Some v.
Proof.
  intros Hlow Hv. split.
  - destruct Hv as [Hnd Hk]. by apply filter_default_valid.
  - intros k v. rewrite update_lookup by done.
    destruct (dict_get k (_cache self)) as [v'|]; cbn; [|naive_solver].
    case_decide; naive_solver.
Qed.

(** X25. A setting that was stored is read back, under any spelling of
    its name that has the same lower case, and [update] then sends it,
    unless the value stored is the default of the name: then the name is
    left out of the data sent. *)
Theorem setitem_then_getitem (self self' : ConfigManager.t)
    (key key' : string) (item : V) :
  lower_case_keys → valid self →
  __setitem__ self key item = Return tt self' →
  lower key' = lower key →
  __getitem__ self' key' = Return item self'
  ∧ dict_get (lower key) (update self')
    = if decide (dict_get (lower key) defaults = Some item)
      then None else Some item.
Proof.
  intros Hlow Hv Hset Hkey.
  destruct (setitem_cases self key item) as [[_ E]|[Hk E]];
    rewrite E in Hset; [done|]. injection Hset as <-.
  split.
  - destruct (getitem_cases (set_cache self (dict_set (lower key) item (_cache self))) key')
      as [[Hk' _]|[(v & _ & Hc & ->)|(d & _ & Hc & _)]].
    + by rewrite Hkey in Hk'.
    + rewrite Hkey in Hc. cbn in Hc. rewrite dict_get_set in Hc. congruence.
    + exfalso. apply Hc. rewrite Hkey. cbn. apply elem_of_keys_set. by left.
  - rewrite update_lookup by (done || by apply valid_set).
    cbn [ConfigManager.set_cache ConfigManager._cache]. by rewrite dict_get_set.
Qed.

(** X26. Removing a setting puts its default back. When [remove]
    returns, what it returns is the default of the name, a read of the
    name gives that default, [update] no longer sends the name, and what
    it sends for every other name is what it sent before. *)
Theorem remove_restores_default (self self' : ConfigManager.t)
    (key : string) (v : V) :
  lower_case_keys → valid self →
  remove self key = Return v self' →
  dict_get (lower key) defaults = Some v
  ∧ __getitem__ self' key = Return v self'
  ∧ dict_get (lower key) (update self') = None
  ∧ ∀ k, k ≠ lower key → dict_get k (update self') = dict_get k (update self).
Proof.
  intros Hlow Hv (Hk & Hd & ->)%remove_ok.
  assert (valid (set_cache self
                   (dict_set (lower key) v (dict_del (lower key) (_cache self)))))
    as Hv'.
  { apply (valid_set (set_cache self _)); [by apply valid_del|done]. }
  split_and!; [done| | |].
  - destruct (getitem_cases (set_cache self
                (dict_set (lower key) v (dict_del (lower key) (_cache self)))) key)
      as [[Hk' _]|[(v' & _ & Hc & ->)|(d & _ & Hc & _)]]; [done| |].
    + cbn in Hc. rewrite dict_get_set in Hc. congruence.
    + exfalso. apply Hc. cbn. apply elem_of_keys_set. by left.
  - rewrite update_lookup by done.
    cbn [ConfigManager.set_cache ConfigManager._cache].
    rewrite dict_get_set. cbn. by rewrite decide_True.
  - intros k Hne. rewrite !update_lookup by done.
    cbn [ConfigManager.set_cache ConfigManager._cache].
    by rewrite dict_get_set_ne, dict_get_del_ne.
Qed.

(** X27. What [filter_valid] lets through. The result holds a name
    exactly when the name is a public or a private one and is the lower
    case of a key of the data; its value is then the value of the last such
    key. A name that is only a protected one never passes. *)
Theorem filter_valid_lookup (data : dict) (k : string) :
  dict_get k (filter_valid data)
  = if decide (k ∈ keys public_keys ∨ k ∈ keys private_keys)
    then last (omap (λ kv : string * V,
                       if decide (lower kv.1 = k) then Some kv.2 else None)
                    data)
    else None.
Proof.
  unfold ConfigManager.filter_valid. rewrite filter_valid_loop. cbn.
  case_decide; [|done]. by destruct (last _).
Qed.

End config.

(** * The properties in the sample world *)

Section sample.
Import Sample.


Lemma plugins_add_persist_witness :
  let s := started ["a/b/x@master"] true in
  plugins_add base env_ok "a/b/x" s = Ok tt (final (send AlreadyInstalled s))
  ∧ fs (final (plugins_add base env_ok "a/b/x" s)) = fs s.
Proof.
  intros s.
  destruct (plugins_add_persist base env_ok "a/b/x" s) as (Hconflict & _).
  apply (Hconflict X); [reflexivity|]. apply list_elem_of_here.
Defined.

Lemma initial_load_plugins_order_witness :
  ∃ s' evs,
    initial_load_plugins base env_ok (fresh ["a/b/x"] true) = Ok tt s'
    ∧ ready s' = true
    ∧ stored_plugins s' = config_plugins s'
    ∧ trace s' = evs ++ [EvReady; EvConfigUpdate (config_plugins s')]
    ∧ "a/b/x@master" ∈ config_plugins s'.
Proof.
  destruct (initial_load_plugins_order base env_ok (fresh ["a/b/x"] true))
    as (s' & evs & H1 & H2 & H3 & H4 & _ & _ & H5).
  exists s', evs. split_and!; [done..|].
  apply (H5 "a" "b" "x"); [reflexivity..|]. apply list_elem_of_here.
Defined.

(** [x] is fetched with the network up, then [z], of the same repository,
    with the network down: [z] is installed from the cache. *)
Lemma download_plugin_once_witness :
  let s := started [] true in
  let s1 := final (download_plugin base env_ok X false s) in
  let r2 := download_plugin base env_offline Z false s1 in
  cache_path base X = cache_path base Z
  ∧ trace s1 = [EvGet (url X)]
  ∧ fs s1 !! cache_path base Z = Some (File zip_ab)
  ∧ raised r2 = None
  ∧ trace (final r2) = trace s1
  ∧ downloads (trace (final r2)) = 1
  ∧ is_Some (fs (final r2) !! (abs_path base Z ++ ["z.py"])).
Proof.
  intros s s1 r2.
  destruct (download_plugin_once base env_ok env_offline X Z s s1)
    as (Hcp & _ & Ht1 & _ & Ht2 & Hn);
    [reflexivity|reflexivity|reflexivity|reflexivity|reflexivity| |].
  { vm_compute. reflexivity. }
  split_and!; [exact Hcp|exact Ht1| | |exact Ht2|exact Hn|].
  - vm_compute. reflexivity.
  - vm_compute. reflexivity.
  - vm_compute. by eexists.
Defined.

Lemma disabled_never_ready_witness :
  let s := fresh ["a/b/x@master"] false in
  let l := [(env_ok, RunTask InitialLoad); (env_ok, Invoke (CmdAdd "c/d/y"));
            (env_ok, Invoke (CmdRemove "a/b/x")); (env_ok, Invoke (CmdUpdate None))] in
  (InitialLoad ∉ snd (Plugins_init s))
  ∧ ready (run base s l) = false
  ∧ config_plugins (run base s l) = config_plugins s
  ∧ stored_plugins (run base s l) = stored_plugins s
  ∧ fs (run base s l) = fs s
  ∧ loaded_plugins (run base s l) = ∅
  ∧ ∀ r, EvSend r ∈ trace (run base s l) → EvSend r ∈ trace s ∨ r = StillLoading.
Proof.
  intros s l. apply (disabled_never_ready base s l). reflexivity.
Defined.

(** C7, as stated, fails: two unforced fetches for plugins of one
    repository and branch do not always make one download. When the
    request of the first fails, nothing is left in the cache and the second
    fetch, run right after it, goes to the network again: two requests.
    And when the cache file is there from before ([x] was added and removed
    again, which leaves the cache), both fetches go through without any
    request: no download at all. *)
Lemma fetch_twice_two_requests :
  let s := started [] true in
  let r1 := download_plugin base env_offline X false s in
  let r2 := download_plugin base env_ok Z false (final r1) in
  let s' := run base (fresh [] true)
              [(env_ok, RunTask InitialLoad);
               (env_ok, Invoke (CmdAdd "a/b/x"));
               (env_ok, Invoke (CmdRemove "a/b/x"))] in
  let r1' := download_plugin base env_ok X false s' in
  let r2' := download_plugin base env_ok Z false (final r1') in
  (user X, repo X, branch X) = (user Z, repo Z, branch Z)
  ∧ raised r1 = Some ClientError
  ∧ fs (final r1) !! cache_path base X = None
  ∧ raised r2 = None
  ∧ trace (final r2) = [EvGet (url X); EvGet (url Z)]
  ∧ downloads (trace (final r2)) = 2
  ∧ fs s' !! abs_path base X = None
  ∧ fs s' !! abs_path base Z = None
  ∧ raised r1' = None ∧ raised r2' = None
  ∧ trace (final r2') = trace s'.
Proof. vm_compute. by split_and!. Qed.

(** C3, as stated, fails: the gate is open before the rewritten list is
    stored. After the legacy entry [a/b/x] was loaded, the trace has the
    opening of the gate first and the one update of the store last. *)
Lemma ready_before_persist :
  let tr := trace (final (initial_load_plugins base env_ok (fresh ["a/b/x"] true))) in
  tr = [EvGet (url X); EvReady; EvConfigUpdate ["a/b/x@master"]]
  ∧ ¬ persist_before_ready tr.
Proof.
  intros tr. assert (tr = [EvGet (url X); EvReady; EvConfigUpdate ["a/b/x@master"]]) as ->.
  { vm_compute. reflexivity. }
  split; [reflexivity|].
  intros (i & j & l & Hlt & Hi & Hj).
  destruct i as [|[|[|i]]]; try discriminate Hi.
  destruct j as [|[|[|j]]]; try discriminate Hj. lia.
Qed.

(** C2: updating all plugins stops at the first one that fails. The list
    holds [x] and then [y]; the code of [x] fails when it is loaded again.
    The update leaves the command with that exception; [y], which updates
    without a problem on its own, is never downloaded nor installed. *)
Lemma update_all_stops :
  let s := started [str X; str Y] true in
  let r := plugins_update base env_x_broken None s in
  raised r = Some InvalidPluginError
  ∧ trace (final r) = [EvGet (url X)]
  ∧ fs (final r) !! abs_path base Y = None
  ∧ raised (update_plugin base env_x_broken (str Y) s) = None
  ∧ elements (loaded_plugins (final (update_plugin base env_x_broken (str Y) s))) = [Y].
Proof. vm_compute. by split_and!. Qed.

(** C8: a loaded plugin without its install directory. The plugin [x] is
    added and loaded; an update brings code that fails to load, which leaves
    [x] in the loaded set with its extension unloaded; the removal then
    finds no extension to unload, skips the loaded set, and deletes the
    directory. *)
Lemma loaded_without_directory :
  let l := [(env_ok, RunTask InitialLoad);
            (env_ok, Invoke (CmdAdd "a/b/x"));
            (env_x_broken, Invoke (CmdUpdate (Some "a/b/x")));
            (env_ok, Invoke (CmdRemove "a/b/x"))] in
  let s := run base (fresh [] true) l in
  elements (loaded_plugins s) = [X]
  ∧ fs s !! abs_path base X = None
  ∧ ¬ loaded_installed base s.
Proof.
  intros l s.
  assert (elements (loaded_plugins s) = [X]) as He by (vm_compute; reflexivity).
  assert (fs s !! abs_path base X = None) as Hf by (vm_compute; reflexivity).
  split_and!; [done..|].
  intros H. destruct (H X) as [n Hn]; [|by rewrite Hf in Hn].
  apply elem_of_elements. rewrite He. apply list_elem_of_here.
Qed.

(** ** The further properties at work *)

Lemma from_string_sound_witness :
  one_line (user X) ∧ one_line (repo X) ∧ one_line (name X)
  ∧ one_line (branch X)
  ∧ ("a/b/x" = str X ∨ "a/b/x" = str X +:+ String newline ""
     ∨ (false = false ∧ branch X = "master"
        ∧ ("a/b/x" = ref3 (user X) (repo X) (name X)
           ∨ "a/b/x" = ref3 (user X) (repo X) (name X) +:+ String newline ""))).
Proof. apply (from_string_sound "a/b/x" false X). reflexivity. Defined.

Lemma from_string_str_witness : from_string (str X) true = Some X.
Proof. apply (from_string_str X true); reflexivity. Defined.

Lemma from_string_rewritable_witness : is_Some (from_string (str X) true).
Proof. apply (from_string_rewritable "a/b/x" false X). reflexivity. Defined.

Lemma download_plugin_forced_witness :
  let s := started [] true in
  let s' := final (download_plugin base env_ok X true s) in
  downloads (trace s') = downloads (trace s) + 1
  ∧ trace s' = trace s ++ [EvGet (url X)]
  ∧ fs s' !! abs_path base X = Some Dir
  ∧ ∃ z, http_get env_ok (url X) = Some (ZipBytes z)
         ∧ (∃ c, fs s' !! cache_path base X = Some (File c))
         ∧ ∀ info, info ∈ z → selected X info = true →
             extracted info (fs s' !! target base X info).
Proof.
  intros s s'. apply (download_plugin_forced base env_ok X s s').
  vm_compute. reflexivity.
Defined.



Lemma plugins_add_twice_witness :
  let s := started [] true in
  let s1 := final (plugins_add base env_ok "a/b/x" s) in
  plugins_add base env_x_broken "a/b/x" s1
  = Ok tt (final (send AlreadyInstalled s1)).
Proof.
  intros s s1.
  apply (plugins_add_twice base env_ok env_x_broken "a/b/x" s
           (final (download_plugin base env_ok X true (final (send Downloading s)))) X);
    [reflexivity|apply not_elem_of_nil|].
  vm_compute. reflexivity.
Defined.

Lemma commands_load_nothing_when_off_witness :
  let s := started [] false in
  let s' := final (run_command base env_ok (CmdAdd "a/b/x") s) in
  loaded_plugins s' = loaded_plugins s
  ∧ extensions s' = extensions s
  ∧ enable_plugins s' = false.
Proof.
  intros s s'. apply (commands_load_nothing_when_off base env_ok (CmdAdd "a/b/x") s).
  reflexivity.
Defined.

(** The code of [x] fails when it is set up; [y], the entry after it, is
    loaded all the same. *)
Lemma initial_load_plugins_isolated_witness :
  ∃ s', initial_load_plugins base env_x_broken with_y = Ok tt s'
        ∧ ready s' = true
        ∧ ext_string Y ∈ extensions s'.
Proof.
  apply (initial_load_plugins_isolated base env_x_broken with_y (str Y) Y).
  - apply list_elem_of_further, list_elem_of_here.
  - reflexivity.
  - vm_compute. by eexists.
  - vm_compute. by eexists.
  - reflexivity.
  - reflexivity.
Defined.

Lemma sample_plain_X : plain X.
Proof. by repeat split. Qed.

Lemma sample_plain_Z : plain Z.
Proof. by repeat split. Qed.

Lemma abs_path_inj_witness : ¬ abs_path base X `prefix_of` abs_path base Z.
Proof.
  intros H.
  assert (X = Z) as E
    by exact (proj2 (abs_path_inj base X Z sample_plain_X sample_plain_Z) H).
  discriminate E.
Defined.

(** [x] and [z] come from one repository; removing [x] leaves the files
    of [z]. *)
Lemma plugins_remove_spares_witness :
  let s := final (download_plugin base env_ok Z true
                    (started [str X; str Z] true)) in
  let f := abs_path base Z ++ ["z.py"] in
  fs (final (plugins_remove base "a/b/x" s)) !! f = fs s !! f.
Proof.
  intros s f.
  apply (plugins_remove_spares base "a/b/x" s X Z f);
    [reflexivity|exact sample_plain_X|exact sample_plain_Z|discriminate| |].
  - by apply prefix_app_r.
  - vm_compute. intros H.
    repeat (apply elem_of_cons in H as [H|H]; [discriminate H|]).
    by apply elem_of_nil in H.
Defined.

Lemma eq_hash_agree_witness :
  X = mkPlugin "a" "b" "x" "master"
  ∧ __hash__ id X = __hash__ id (mkPlugin "a" "b" "x" "master").
Proof.
  apply (eq_hash_agree id X (mkPlugin "a" "b" "x" "master")); reflexivity.
Defined.

Lemma update_plugin_outcome_witness :
  let s := started ["a/b/x@master"] true in
  match update_plugin base env_ok "a/b/x" s with
  | Ok _ s' =>
      trace s' = trace s ++ [EvGet (url X); EvSend Updated]
      ∧ fs s' !! abs_path base X = Some Dir
      ∧ (if enable_plugins s
         then extensions s' = {[ext_string X]} ∪ extensions s
              ∧ loaded_plugins s' = {[X]} ∪ loaded_plugins s
              ∧ setup_ok env_ok (ext_string X) = true
         else extensions s' = extensions s
              ∧ loaded_plugins s' = loaded_plugins s)
  | Raise e s' =>
      (trace s' = trace s ∨ trace s' = trace s ++ [EvGet (url X)])
      ∧ loaded_plugins s' = loaded_plugins s
      ∧ extensions s' ⊆ extensions s
  end.
Proof.
  intros s.
  apply (update_plugin_outcome base env_ok "a/b/x" s X);
    [reflexivity|apply list_elem_of_here].
Defined.

(** ** The configuration of the sample *)

Lemma sample_all_keys k :
  k ∈ ConfigManager.all_keys public_keys private_keys protected_keys
  ↔ k ∈ ["prefix"; "plugins"; "enable_plugins"].
Proof. unfold ConfigManager.all_keys. by rewrite elem_of_list_to_set. Qed.

Lemma sample_lower_case_keys :
  ConfigManager.lower_case_keys lower public_keys private_keys protected_keys.
Proof.
  intros k Hk%sample_all_keys.
  repeat (apply elem_of_cons in Hk as [->|Hk]; [reflexivity|]).
  by apply elem_of_nil in Hk.
Qed.

Lemma sample_valid :
  ConfigManager.valid public_keys private_keys protected_keys
    (config [("prefix", "!"); ("plugins", "[]")]).
Proof.
  split.
  - cbn. apply NoDup_cons. split; [|apply NoDup_singleton].
    by intros [=]%list_elem_of_singleton.
  - intros k Hk. apply sample_all_keys. cbn in Hk.
    apply elem_of_cons in Hk as [->|Hk]; [apply list_elem_of_here|].
    apply list_elem_of_singleton in Hk as ->.
    apply list_elem_of_further, list_elem_of_here.
Qed.

Lemma config_stays_valid_witness :
  ConfigManager.valid public_keys private_keys protected_keys
    (ConfigManager.refresh lower public_keys private_keys protected_keys
       (config [("prefix", "!"); ("plugins", "[]")])
       [("PLUGINS", "[a/b/x@master]"); ("unknown", "1")]).2.
Proof.
  destruct (config_stays_valid lower public_keys private_keys protected_keys
              (config [("prefix", "!"); ("plugins", "[]")]) sample_valid)
    as (_ & _ & _ & H).
  apply H.
Defined.

Lemma getitem_update_same_witness :
  ConfigManager.update lower public_keys private_keys protected_keys
    (ConfigManager.self_of
       (ConfigManager.__getitem__ lower public_keys private_keys protected_keys
          (config []) "Plugins"))
  = ConfigManager.update lower public_keys private_keys protected_keys (config []).
Proof.
  apply (getitem_update_same lower public_keys private_keys protected_keys
           (config []) "Plugins" sample_lower_case_keys).
Defined.

Lemma update_sends_changes_witness :
  let self := config [("prefix", "!"); ("plugins", "[]")] in
  ConfigManager.update lower public_keys private_keys protected_keys self
  = filter (ConfigManager.changed public_keys private_keys protected_keys)
      (ConfigManager._cache self)
  ∧ ∀ k v,
      ConfigManager.dict_get k
        (ConfigManager.update lower public_keys private_keys protected_keys self)
      = Some v
      ↔ ConfigManager.dict_get k (ConfigManager._cache self) = Some v
        ∧ ConfigManager.dict_get k
            (ConfigManager.defaults public_keys private_keys protected_keys)
          ≠ Some v.
Proof.
  intros self.
  apply (update_sends_changes lower public_keys private_keys protected_keys self
           sample_lower_case_keys sample_valid).
Defined.

Lemma setitem_then_getitem_witness :
  let self := config [("prefix", "!"); ("plugins", "[]")] in
  let self' :=
    ConfigManager.self_of
      (ConfigManager.__setitem__ lower public_keys private_keys protected_keys
         self "Plugins" "[a/b/x@master]") in
  ConfigManager.__getitem__ lower public_keys private_keys protected_keys
    self' "PLUGINS"
  = ConfigManager.Return "[a/b/x@master]" self'
  ∧ ConfigManager.dict_get "plugins"
      (ConfigManager.update lower public_keys private_keys protected_keys self')
    = Some "[a/b/x@master]".
Proof.
  intros self self'.
  destruct (setitem_then_getitem lower public_keys private_keys protected_keys
              self self' "Plugins" "PLUGINS" "[a/b/x@master]"
              sample_lower_case_keys sample_valid) as [Hget Hsent];
    [reflexivity..|].
  split; [exact Hget|exact Hsent].
Defined.

Lemma remove_restores_default_witness :
  let self := config [("prefix", "!"); ("plugins", "[]")] in
  let self' :=
    ConfigManager.self_of
      (ConfigManager.remove lower public_keys private_keys protected_keys
         self "Prefix") in
  ConfigManager.dict_get "prefix"
    (ConfigManager.defaults public_keys private_keys protected_keys) = Some "/"
  ∧ ConfigManager.__getitem__ lower public_keys private_keys protected_keys
      self' "Prefix"
    = ConfigManager.Return "/" self'
  ∧ ConfigManager.dict_get "prefix"
      (ConfigManager.update lower public_keys private_keys protected_keys self')
    = None
  ∧ ∀ k, k ≠ "prefix" →
      ConfigManager.dict_get k
        (ConfigManager.update lower public_keys private_keys protected_keys self')
      = ConfigManager.dict_get k
          (ConfigManager.update lower public_keys private_keys protected_keys self).
Proof.
  intros self self'.
  apply (remove_restores_default lower public_keys private_keys protected_keys
           self self' "Prefix" "/" sample_lower_case_keys sample_valid).
  reflexivity.
Defined.

End sample.
